(** * Presence synchronisation and prediction/interpolation engine

    A shallow embedding of the virtual-room component (the [VirtualRoom]
    React component with its [onMsg] reconciliation handler and its [step]
    simulation tick) and of the adaptive realtime channel
    ([supabaseChannel], [broadcastChannel], [localStorageChannel]).

    JavaScript numbers are modelled as real numbers: [Math.exp], [Math.pow],
    [Math.hypot], [Math.abs], [Math.min] and [Math.max] are the functions of
    the real-number library, without rounding, NaN or infinities.  A
    [Map] used as a dictionary is a finite map with string keys.  A plain
    object used as a dictionary is the finite map of its own properties,
    read through its prototype chain: a key that is not an own property
    still finds what [Object.prototype] has under that name. *)

From Stdlib Require Import Reals Lra Lia ZArith.
From Stdlib Require Import Zfloor.
From stdpp Require Import gmap strings list fin_maps.

Local Open Scope R_scope.

(** ** Numbers *)

#[global] Instance Rlt_decision : RelDecision Rlt := Rlt_dec.
#[global] Instance Rle_decision : RelDecision Rle := Rle_dec.
#[global] Instance Req_decision : EqDecision R := Req_dec_T.

(** [a > b], [a >= b], [a < b] and [a !== b] as the booleans the source
    branches on. *)
Definition gtb (a b : R) : bool := bool_decide (b < a).
Definition geb (a b : R) : bool := bool_decide (b <= a).
Definition ltb (a b : R) : bool := bool_decide (a < b).
Definition neqb (a b : R) : bool := negb (bool_decide (a = b)).

(** [Math.round]: the integer nearest to [v], halves rounded up. *)
Definition Math_round (v : R) : R := IZR (Zfloor (v + / 2)).

(** [Math.hypot] of two arguments. *)
Definition Math_hypot (a b : R) : R := sqrt (a * a + b * b).

(** ** Constants of the room *)

Definition TILE : R := 64.
Definition WORLD_W : R := 16.
Definition WORLD_H : R := 10.
Definition BASE_SPEED : R := 180.
Definition ACCEL : R := 8.
Definition DECEL : R := 10.
Definition SEND_RATE_MS : R := 60.
Definition VOICE_RATE_MS : R := 140.
Definition LERP_REMOTE : R := 12.

(** ** Data model *)

Inductive Dir := DirUp | DirDown | DirLeft | DirRight.

#[global] Instance Dir_eq_dec : EqDecision Dir.
Proof. solve_decision. Defined.

(** A point or a velocity: the [{ x, y }] objects of the source. *)
Record Vec2 := mkVec2 { vx : R; vy : R }.

Record AvatarProfile := mkProfile {
  name : string;
  color : string;
  accessory : option string
}.

(** The optional fields [micEnabled?] and [speakingLevel?] are [None] when
    the property is missing from the object. *)
Record Participant := mkParticipant {
  p_id : string;
  p_profile : AvatarProfile;
  p_x : R;
  p_y : R;
  p_dir : Dir;
  p_camEnabled : bool;
  p_micEnabled : option bool;
  p_speakingLevel : option R;
  p_lastSeen : R
}.

(** Values of the free-form [state] record of a world object. *)
Inductive JsVal := JBool (b : bool) | JNum (r : R) | JStr (s : string).

Inductive ObjType := Lamp | Rug | Board.

Record WorldObject := mkObject {
  o_id : string;
  o_type : ObjType;
  o_x : R;
  o_y : R;
  o_w : R;
  o_h : R;
  o_interactive : bool;
  o_state : option (gmap string JsVal)
}.

Record ChatEntry := mkChat {
  c_id : string;
  c_name : string;
  c_text : string;
  c_ts : R
}.

(** The payload of [join] and of [state]: a participant snapshot.  The
    receiver spreads it and overwrites [lastSeen], so the snapshot carries
    every field but that one. *)
Record Snapshot := mkSnapshot {
  s_id : string;
  s_profile : AvatarProfile;
  s_x : R;
  s_y : R;
  s_dir : Dir;
  s_camEnabled : bool;
  s_micEnabled : option bool;
  s_speakingLevel : option R
}.

(** The tagged union [BroadcastMessage]. *)
Inductive BroadcastMessage :=
| MsgJoin (p : Snapshot)
| MsgLeave (id : string)
| MsgMove (id : string) (x y : R) (dir : Dir)
| MsgChat (c : ChatEntry)
| MsgState (p : Snapshot)
| MsgAvatar (id : string) (profile : AvatarProfile) (camEnabled micEnabled : bool)
| MsgVoice (id : string) (level : R) (micEnabled : bool)
| MsgObject (id : string) (state : gmap string JsVal).

(** ** Pure helpers at the end of the component file *)

Definition clamp (v min max : R) : R := Rmax min (Rmin max v).

Definition lerp (a b t : R) : R := a + (b - a) * t.

Definition smoothApproach (current target gain dt : R) : R :=
  let t := 1 - exp (- gain * dt) in
  current + (target - current) * t.

Definition getDirFromVel (vel : Vec2) : Dir :=
  let ax := Rabs (vx vel) in
  let ay := Rabs (vy vel) in
  if gtb ax ay then (if geb (vx vel) 0 then DirRight else DirLeft)
  else if gtb ay 0 then (if geb (vy vel) 0 then DirDown else DirUp)
  else DirDown.

Definition hasKey (keys : gset string) (k : string) : bool :=
  bool_decide (k ∈ keys).

Definition getDesiredVelocity (dt : R) (pos : Vec2) (keys : gset string)
    (target : option Vec2) : Vec2 :=
  let up := hasKey keys "arrowup" || hasKey keys "w" in
  let down := hasKey keys "arrowdown" || hasKey keys "s" in
  let left := hasKey keys "arrowleft" || hasKey keys "a" in
  let right := hasKey keys "arrowright" || hasKey keys "d" in
  let vy1 := if up then 0 - 1 else 0 in
  let vy2 := if down then vy1 + 1 else vy1 in
  let vx1 := if left then 0 - 1 else 0 in
  let vx2 := if right then vx1 + 1 else vx1 in
  if neqb vx2 0 || neqb vy2 0 then
    let h := Math_hypot vx2 vy2 in
    let mag := if neqb h 0 then h else 1 in
    mkVec2 ((vx2 / mag) * BASE_SPEED) ((vy2 / mag) * BASE_SPEED)
  else
    match target with
    | Some tg =>
        let dx := vx tg - vx pos in
        let dy := vy tg - vy pos in
        let dist := Math_hypot dx dy in
        if gtb dist 1 then
          mkVec2 ((dx / dist) * BASE_SPEED) ((dy / dist) * BASE_SPEED)
        else mkVec2 0 0
    | None => mkVec2 0 0
    end.

(** ** State of the component

    [Store] holds what the message handler mutates: [participantsRef],
    [displayPosRef], [objectsRef], [staticDirtyRef] and the chat log.
    [Sim] holds the refs of the local simulation, and [Loop] the variables
    closed over by [step].  [Env] is what the handler and the tick close
    over from the current render. *)

(** An entry written by the known-id path of the [avatar] branch on top of
    something that is not a participant: [profile], [camEnabled],
    [micEnabled] and [lastSeen], and no [id], [x], [y] or [dir]. *)
Record BareEntry := mkBare {
  b_profile : AvatarProfile;
  b_camEnabled : bool;
  b_micEnabled : bool;
  b_lastSeen : R
}.

(** What the message handler does through the prototype chain of the
    participants record, see [onMsg]: none of these leaves a participant
    with a position in the record. *)
Inductive Stray :=
| OwnBare (k : string) (b : BareEntry)
    (* [record[k] = b] for [k] the name of a member of [Object.prototype] *)
| ProtoFull (e : Participant)
    (* [record["__proto__"] = e]: the prototype of the record is replaced *)
| ProtoBare (b : BareEntry)
    (* [record["__proto__"] = b] *)
| OnInherited (k : string) (micEnabled : bool) (speakingLevel lastSeen : R).
    (* the three assignments of the [voice] branch, on the inherited member *)

(** [participants] holds the own properties of [participantsRef.current]
    that are participants.  [strays] lists, in order, what the handler did
    through the prototype chain instead; while it is empty, the record is
    exactly [participants] on top of an untouched [Object.prototype].  Once
    it is not, a lookup may also find what a stray write left behind (the
    fields of a snapshot that has become the prototype, say), which is not
    followed here: what is proved about ids without an entry is proved for
    records without stray writes. *)
Record Store := mkStore {
  participants : gmap string Participant;
  displayPos : gmap string Vec2;
  objects : list WorldObject;
  staticDirty : bool;
  logs : list ChatEntry;
  strays : list Stray
}.

Record Sim := mkSim {
  pos : Vec2;
  vel : Vec2;
  keys : gset string;
  target : option Vec2;
  voiceLevel : R
}.

Record Loop := mkLoop {
  last : R;
  lastSend : R;
  lastVoice : R;
  prevVoiceLevel : R
}.

(** [myId] is [myIdRef.current], a [crypto.randomUUID()]. *)
Record Env := mkEnv {
  myId : string;
  profile : AvatarProfile;
  camEnabled : bool;
  micEnabled : bool
}.

Definition setParticipants (ps : gmap string Participant) (st : Store) : Store :=
  mkStore ps (displayPos st) (objects st) (staticDirty st) (logs st)
    (strays st).

Definition addStray (x : Stray) (st : Store) : Store :=
  mkStore (participants st) (displayPos st) (objects st) (staticDirty st)
    (logs st) (strays st ++ [x]).

(** *** Reading and writing the participants record

    [participantsRef.current] starts as [{}] and is read with
    [record[id]], where [id] comes from the message.  When [id] is not an
    own property, the read goes on to [Object.prototype]: under the names
    below it finds a function (under ["__proto__"] the prototype object
    itself), which is truthy and has no [x], [y], [id] or [dir]. *)
Definition objectPrototypeKeys : list string :=
  [ "constructor"; "__defineGetter__"; "__defineSetter__"; "hasOwnProperty";
    "__lookupGetter__"; "__lookupSetter__"; "isPrototypeOf";
    "propertyIsEnumerable"; "toString"; "valueOf"; "__proto__";
    "toLocaleString" ].

Definition inherited (k : string) : bool :=
  existsb (String.eqb k) objectPrototypeKeys.

(** [record[k] = e].  An assignment to ["__proto__"] that finds no own
    property of that name runs the setter of [Object.prototype]: it
    replaces the prototype of the record and creates no own property. *)
Definition writeEntry (k : string) (e : Participant) (st : Store) : Store :=
  if bool_decide (k = "__proto__") && bool_decide (participants st !! k = None)
  then addStray (ProtoFull e) st
  else setParticipants (<[k := e]> (participants st)) st.

(** [{ ...exists, profile, camEnabled, micEnabled, lastSeen: now }] where
    [exists] is a member of [Object.prototype]: the spread copies
    nothing. *)
Definition bareFromAvatar (pr : AvatarProfile) (cam mic : bool) (now : R)
    : BareEntry :=
  mkBare pr cam mic now.

(** ** Reconciliation: [onMsg] *)

(** [{ ...p, lastSeen: now }] *)
Definition ofSnapshot (p : Snapshot) (now : R) : Participant :=
  mkParticipant (s_id p) (s_profile p) (s_x p) (s_y p) (s_dir p)
    (s_camEnabled p) (s_micEnabled p) (s_speakingLevel p) now.

(** [{ ...exists, x: p.x, y: p.y, dir: p.dir, lastSeen: now }] *)
Definition applyMove (e : Participant) (x y : R) (d : Dir) (now : R) : Participant :=
  mkParticipant (p_id e) (p_profile e) x y d
    (p_camEnabled e) (p_micEnabled e) (p_speakingLevel e) now.

(** [{ ...exists, profile, camEnabled, micEnabled, lastSeen: now }] *)
Definition applyAvatar (e : Participant) (pr : AvatarProfile) (cam mic : bool)
    (now : R) : Participant :=
  mkParticipant (p_id e) pr (p_x e) (p_y e) (p_dir e)
    cam (Some mic) (p_speakingLevel e) now.

(** The entry an [avatar] message creates for an unknown id. *)
Definition newFromAvatar (id : string) (pr : AvatarProfile) (cam mic : bool)
    (now : R) : Participant :=
  mkParticipant id pr
    (Math_round ((WORLD_W * TILE) / 2)) (Math_round ((WORLD_H * TILE) / 2))
    DirDown cam (Some mic) (Some 0) now.

(** The three assignments of the [voice] branch. *)
Definition applyVoice (e : Participant) (level : R) (mic : bool) (now : R)
    : Participant :=
  mkParticipant (p_id e) (p_profile e) (p_x e) (p_y e) (p_dir e)
    (p_camEnabled e) (Some mic) (Some (clamp level 0 1)) now.

(** [{ ...obj.state, ...state }]: the keys of [state] win. *)
Definition mergeState (old : option (gmap string JsVal))
    (state : gmap string JsVal) : gmap string JsVal :=
  state ∪ default ∅ old.

Definition withState (o : WorldObject) (s : gmap string JsVal) : WorldObject :=
  mkObject (o_id o) (o_type o) (o_x o) (o_y o) (o_w o) (o_h o)
    (o_interactive o) (Some s).

(** [objects.find(o => o.id === id)] followed by the assignment to
    [obj.state]: the first object with this id is updated in place. *)
Fixpoint mergeObject (id : string) (state : gmap string JsVal)
    (objs : list WorldObject) : list WorldObject :=
  match objs with
  | [] => []
  | o :: rest =>
      if bool_decide (o_id o = id)
      then withState o (mergeState (o_state o) state) :: rest
      else o :: mergeObject id state rest
  end.

Fixpoint findObject (id : string) (objs : list WorldObject) : option WorldObject :=
  match objs with
  | [] => None
  | o :: rest => if bool_decide (o_id o = id) then Some o else findObject id rest
  end.

Definition needsRedraw (t : ObjType) : bool :=
  match t with Lamp | Board => true | Rug => false end.

(** [l.slice(-199)] *)
Definition lastEntries (n : nat) (l : list ChatEntry) : list ChatEntry :=
  drop (length l - n) l.

(** The handler returns the new store and the messages it posts on the
    channel.  [now] is [Date.now()].  The handler reads [posRef] and
    [velRef] (for the handshake reply) and never writes them.

    In the [move], [avatar] and [voice] branches [exists] is
    [record[id]].  Without an own property [id]:
    - [move]: under an inherited name [exists] is truthy, but [exists.x]
      and [exists.y] are undefined, both differences are NaN and neither
      comparison holds; nothing is written, as for a name that finds
      nothing;
    - [avatar]: under an inherited name the known-id path runs and writes
      an entry without position; otherwise the entry is created at the
      world centre;
    - [voice]: under an inherited name the three assignments land on the
      inherited member; otherwise nothing happens. *)
Definition onMsg (env : Env) (sim : Sim) (now : R) (m : BroadcastMessage)
    (st : Store) : Store * list BroadcastMessage :=
  match m with
  | MsgJoin p =>
      (writeEntry (s_id p) (ofSnapshot p now) st,
       if bool_decide (s_id p ≠ myId env) then
         [MsgState (mkSnapshot (myId env) (profile env)
                      (vx (pos sim)) (vy (pos sim)) (getDirFromVel (vel sim))
                      (camEnabled env) (Some (micEnabled env)) (Some 0))]
       else [])
  | MsgState p =>
      (writeEntry (s_id p) (ofSnapshot p now) st, [])
  | MsgMove id x y d =>
      match participants st !! id with
      | Some e =>
          if gtb (Rabs (p_x e - x)) 0.5 || gtb (Rabs (p_y e - y)) 0.5
          then (setParticipants (<[id := applyMove e x y d now]> (participants st)) st, [])
          else (st, [])
      | None => (st, [])
      end
  | MsgAvatar id pr cam mic =>
      match participants st !! id with
      | Some e =>
          (setParticipants (<[id := applyAvatar e pr cam mic now]> (participants st)) st, [])
      | None =>
          if inherited id then
            (addStray
               (if bool_decide (id = "__proto__")
                then ProtoBare (bareFromAvatar pr cam mic now)
                else OwnBare id (bareFromAvatar pr cam mic now)) st, [])
          else
            (setParticipants (<[id := newFromAvatar id pr cam mic now]> (participants st)) st, [])
      end
  | MsgVoice id level mic =>
      match participants st !! id with
      | Some e =>
          (setParticipants (<[id := applyVoice e level mic now]> (participants st)) st, [])
      | None =>
          if inherited id
          then (addStray (OnInherited id mic (clamp level 0 1) now) st, [])
          else (st, [])
      end
  | MsgObject id state =>
      match findObject id (objects st) with
      | Some obj =>
          (mkStore (participants st) (displayPos st)
             (mergeObject id state (objects st))
             (if needsRedraw (o_type obj) then true else staticDirty st)
             (logs st) (strays st), [])
      | None => (st, [])
      end
  | MsgLeave id =>
      (mkStore (delete id (participants st)) (delete id (displayPos st))
         (objects st) (staticDirty st) (logs st) (strays st), [])
  | MsgChat c =>
      (mkStore (participants st) (displayPos st) (objects st) (staticDirty st)
         (lastEntries 199 (logs st) ++ [c]) (strays st), [])
  end.

(** ** The simulation tick: [step]

    A tick receives the frame timestamp [now] (the argument of the
    animation-frame callback), the wall clock [Date.now()] and, when the
    microphone analyser exists, the RMS of its current buffer.  Pointer
    smoothing, ripples and drawing touch none of the state below, except
    that the static layer is rebuilt when [staticDirtyRef] is set, which
    clears the flag. *)

Record Tick := mkTick {
  t_now : R;
  t_dateNow : R;
  t_rms : option R
}.

(** [Math.min(0.05, (now - last) / 1000)] *)
Definition tickDt (now lst : R) : R := Rmin 0.05 ((now - lst) / 1000).

(** [desired.x === 0 ? DECEL : ACCEL] *)
Definition axisGain (desired : R) : R :=
  if bool_decide (desired = 0) then DECEL else ACCEL.

(** "Desired velocity": the new value of [velRef]. *)
Definition stepVel (dt : R) (sim : Sim) : Vec2 :=
  let desired := getDesiredVelocity dt (pos sim) (keys sim) (target sim) in
  mkVec2 (smoothApproach (vx (vel sim)) (vx desired) (axisGain (vx desired)) dt)
         (smoothApproach (vy (vel sim)) (vy desired) (axisGain (vy desired)) dt).

(** "Integrate": the new value of [posRef]. *)
Definition stepPos (dt : R) (p v : Vec2) : Vec2 :=
  mkVec2 (clamp (vx p + vx v * dt) (TILE / 2) (WORLD_W * TILE - TILE / 2))
         (clamp (vy p + vy v * dt) (TILE / 2) (WORLD_H * TILE - TILE / 2)).

(** "Arrived near target" *)
Definition stepTarget (p : Vec2) (tg : option Vec2) : option Vec2 :=
  match tg with
  | Some t =>
      let dx := vx t - vx p in
      let dy := vy t - vy p in
      if ltb (dx * dx + dy * dy) 9 then None else Some t
  | None => None
  end.

(** "Voice analysis": the new value of [voiceLevelRef]. *)
Definition stepVoiceLevel (lvl : R) (rms : option R) : R :=
  match rms with
  | Some r => lerp lvl r 0.25
  | None => 0
  end.

(** "Update my participant" and the [speakingLevel] assignment of the voice
    analysis: every write the tick makes through the reference [my]. *)
Definition updateMy (env : Env) (p : Vec2) (d : Dir) (dateNow lvl : R)
    (my : Participant) : Participant :=
  mkParticipant (p_id my) (p_profile my) (vx p) (vy p) d
    (p_camEnabled my) (Some (micEnabled env)) (Some lvl) dateNow.

(** "Throttle movement sends": the new [lastSend] and the message posted. *)
Definition throttleMove (env : Env) (now lst : R) (p : Vec2) (d : Dir)
    : R * list BroadcastMessage :=
  if gtb (now - lst) SEND_RATE_MS
  then (now, [MsgMove (myId env) (vx p) (vy p) d])
  else (lst, []).

(** [!v] for an optional boolean property read through [my?.micEnabled]. *)
Definition notOpt (v : option bool) : bool :=
  match v with Some b => negb b | None => true end.

(** "Throttle voice level sends": the new [lastVoice] and
    [prevVoiceLevel], and the message posted.  [my] is the local entry as
    the tick has just written it, or [None] when there is none. *)
Definition throttleVoice (env : Env) (now lst prev lvl0 : R)
    (my : option Participant) : R * R * list BroadcastMessage :=
  if gtb (now - lst) VOICE_RATE_MS then
    let lvl := clamp (lvl0 * 2.2) 0 1 in
    if gtb (Rabs (lvl - prev)) 0.03
       || negb (eqb (negb (micEnabled env)) (notOpt (my ≫= p_micEnabled)))
    then (now, lvl, [MsgVoice (myId env) lvl (micEnabled env)])
    else (now, prev, [])
  else (lst, prev, []).

(** The interpolation factor [1 - Math.pow(1 - LERP_REMOTE / 60, dt * 60)]. *)
Definition remoteFactor (dt : R) : R :=
  1 - Rpower (1 - LERP_REMOTE / 60) (dt * 60).

(** "Remote display smoothing" for one entry of [participantsRef]. *)
Definition smoothEntry (env : Env) (dt : R) (disp : gmap string Vec2)
    (id : string) (p : Participant) : Vec2 :=
  if bool_decide (id = myId env) then mkVec2 (p_x p) (p_y p)
  else
    let d := default (mkVec2 (p_x p) (p_y p)) (disp !! id) in
    mkVec2 (lerp (vx d) (p_x p) (remoteFactor dt))
           (lerp (vy d) (p_y p) (remoteFactor dt)).

(** The loop over [Object.entries(participantsRef.current)]: every
    participant gets its display position set; other keys of
    [displayPosRef] stay. *)
Definition smoothDisplay (env : Env) (dt : R) (ps : gmap string Participant)
    (disp : gmap string Vec2) : gmap string Vec2 :=
  map_imap (λ id p, Some (smoothEntry env dt disp id p)) ps ∪ disp.

Definition step (env : Env) (tk : Tick) (s : Sim * Loop * Store)
    : (Sim * Loop * Store) * list BroadcastMessage :=
  let '(sim, lp, st) := s in
  let now := t_now tk in
  let dt := tickDt now (last lp) in
  let vel' := stepVel dt sim in
  let pos' := stepPos dt (pos sim) vel' in
  let target' := stepTarget pos' (target sim) in
  let myDir := getDirFromVel vel' in
  let lvl' := stepVoiceLevel (voiceLevel sim) (t_rms tk) in
  let my := updateMy env pos' myDir (t_dateNow tk) lvl'
              <$> participants st !! myId env in
  let ps' := match my with
             | Some m => <[myId env := m]> (participants st)
             | None => participants st
             end in
  let '(lastSend', moves) := throttleMove env now (lastSend lp) pos' myDir in
  let '(lastVoice', prev', voices) :=
    throttleVoice env now (lastVoice lp) (prevVoiceLevel lp) lvl' my in
  let disp' := smoothDisplay env dt ps' (displayPos st) in
  (mkSim pos' vel' (keys sim) target' lvl',
   mkLoop now lastSend' lastVoice' prev',
   mkStore ps' disp' (objects st) false (logs st) (strays st),
   moves ++ voices).

(** ** Renders and their effects

    [useRoomChannel(roomId)] is called in the body of the component and
    returns a new object at every call (each transport builds an object
    literal), so after every render the effects that depend on [channel]
    are cleaned up and run again: the microphone effect, the effect that
    subscribes [onMsg], the pointer effect and the main loop, whose
    variables [last], [lastSend], [lastVoice] and [prevVoiceLevel] start
    afresh.  The effect that announces the avatar runs again when
    [profile], [camEnabled] or [micEnabled] is a new value.

    A render follows every state update: [setLogs] (the chat branch of
    [onMsg], [sendMessage]), [setParticipantsUI] (when the timer of
    [scheduleUI] fires, 150 ms after a join, state, avatar or leave
    message), [setProfile], [setCamEnabled], [setMicEnabled].  React runs
    it, and the effects after it, as a task of its own: it is an event of
    the run.

    A render carries what the effects read: [performance.now()] at the
    time the main-loop effect runs, the profile, whether the profile is
    another object than at the render before (the hook that provides it is
    not part of these sources), and the two flags. *)
Record Render := mkRender {
  rn_now : R;
  rn_profile : AvatarProfile;
  rn_profileIsNew : bool;
  rn_camEnabled : bool;
  rn_micEnabled : bool
}.

Definition envAfterRender (env : Env) (rd : Render) : Env :=
  mkEnv (myId env) (rn_profile rd) (rn_camEnabled rd) (rn_micEnabled rd).

(** [const me = participantsRef.current[myIdRef.current]; if (me) { ... }] *)
Definition withMe (id : string) (f : Participant -> Participant) (st : Store)
    : Store :=
  match participants st !! id with
  | Some me => setParticipants (<[id := f me]> (participants st)) st
  | None => st
  end.

(** [disableMic()]: the level is reset, the flag is announced and written
    into the local entry. *)
Definition disableMic (env : Env) (sim : Sim) (st : Store)
    : Sim * Store * list BroadcastMessage :=
  (mkSim (pos sim) (vel sim) (keys sim) (target sim) 0,
   withMe (myId env)
     (λ me, mkParticipant (p_id me) (p_profile me) (p_x me) (p_y me) (p_dir me)
              (p_camEnabled me) (Some false) (Some 0) (p_lastSeen me)) st,
   [MsgVoice (myId env) 0 false]).

(** The microphone effect, [if (micEnabled) enableMic() else disableMic()]:
    [enableMic] does nothing before the microphone is granted. *)
Definition micEffect (env : Env) (sim : Sim) (st : Store)
    : Sim * Store * list BroadcastMessage :=
  if micEnabled env then (sim, st, []) else disableMic env sim st.

(** [enableMic] once the microphone is granted, unless the effect was
    cleaned up in between: "announce mic enabled". *)
Definition micGranted (env : Env) (st : Store) : Store * list BroadcastMessage :=
  (withMe (myId env)
     (λ me, mkParticipant (p_id me) (p_profile me) (p_x me) (p_y me) (p_dir me)
              (p_camEnabled me) (Some true) (p_speakingLevel me) (p_lastSeen me))
     st,
   [MsgVoice (myId env) 0 true]).

(** "Broadcast avatar updates (profile, cam, mic)" *)
Definition avatarEffect (env : Env) (st : Store) : Store * list BroadcastMessage :=
  (withMe (myId env)
     (λ me, mkParticipant (p_id me) (profile env) (p_x me) (p_y me) (p_dir me)
              (camEnabled env) (Some (micEnabled env)) (p_speakingLevel me)
              (p_lastSeen me)) st,
   [MsgAvatar (myId env) (profile env) (camEnabled env) (micEnabled env)]).

(** Whether a dependency of the avatar effect changed with the render. *)
Definition avatarDepsChanged (env : Env) (rd : Render) : bool :=
  rn_profileIsNew rd
  || negb (eqb (camEnabled env) (rn_camEnabled rd))
  || negb (eqb (micEnabled env) (rn_micEnabled rd)).

(** The effects after a render, in the order of their declaration: the
    microphone effect, the avatar effect when it runs, and the main loop,
    which starts with [last = performance.now()] and the other three
    variables at 0. *)
Definition render (env : Env) (rd : Render) (s : Sim * Loop * Store)
    : (Sim * Loop * Store) * list BroadcastMessage :=
  let '(sim, _, st) := s in
  let env' := envAfterRender env rd in
  let '(sim1, st1, voices) := micEffect env' sim st in
  let '(st2, avatars) :=
    if avatarDepsChanged env rd then avatarEffect env' st1 else (st1, []) in
  ((sim1, mkLoop (rn_now rd) 0 0 0, st2), voices ++ avatars).

(** ** Runs of the component

    A run is a sequence of events handled in order: animation frames,
    messages delivered by the transport, renders, and the microphone being
    granted to the [enableMic] call of the current microphone effect (there
    is one only while [micEnabled] holds).  Its trace records what each
    event posted on the channel.  The handler and the tick close over the
    values of the latest render. *)

Inductive Event :=
| EvTick (tk : Tick)
| EvMsg (now : R) (m : BroadcastMessage)
| EvRender (rd : Render)
| EvMicReady.

Definition react (env : Env) (ev : Event) (s : Sim * Loop * Store)
    : (Sim * Loop * Store) * list BroadcastMessage :=
  match ev with
  | EvTick tk => step env tk s
  | EvMsg now m =>
      let r := onMsg env s.1.1 now m s.2 in
      ((s.1.1, s.1.2, r.1), r.2)
  | EvRender rd => render env rd s
  | EvMicReady =>
      if micEnabled env then
        let r := micGranted env s.2 in
        ((s.1.1, s.1.2, r.1), r.2)
      else (s, [])
  end.

(** The values the closures hold after an event. *)
Definition envAfter (env : Env) (ev : Event) : Env :=
  match ev with
  | EvRender rd => envAfterRender env rd
  | _ => env
  end.

Fixpoint run (env : Env) (evs : list Event) (s : Sim * Loop * Store)
    : (Sim * Loop * Store) * list (Event * list BroadcastMessage) :=
  match evs with
  | [] => (s, [])
  | ev :: rest =>
      let r := react env ev s in
      let r' := run (envAfter env ev) rest r.1 in
      (r'.1, (ev, r.2) :: r'.2)
  end.

(** No event of the list is a render: the events are handled by one
    instance of the main loop. *)
Fixpoint oneLoop (evs : list Event) : Prop :=
  match evs with
  | [] => True
  | EvRender _ :: _ => False
  | _ :: rest => oneLoop rest
  end.

Definition isMove (m : BroadcastMessage) : bool :=
  match m with MsgMove _ _ _ _ => true | _ => false end.

(** The frame timestamps of the move messages of a trace, one per message.
    Only ticks post move messages: the handler posts nothing but the
    handshake reply, and the effects post voice and avatar messages. *)
Definition moveTimesOf (e : Event * list BroadcastMessage) : list R :=
  match e.1 with
  | EvTick tk => map (λ _, t_now tk) (List.filter isMove e.2)
  | _ => []
  end.

Definition moveTimes (tr : list (Event * list BroadcastMessage)) : list R :=
  flat_map moveTimesOf tr.

(** [t] lies in the window of length [T] that starts at [a]. *)
Definition inWindow (a T t : R) : bool := bool_decide (a <= t <= a + T).

Definition countIn (a T : R) (ts : list R) : nat :=
  length (List.filter (inWindow a T) ts).

(** Each time is more than the send interval after the one before, the
    first one after [l]. *)
Fixpoint spaced (l : R) (ts : list R) : Prop :=
  match ts with
  | [] => True
  | t :: rest => l + SEND_RATE_MS < t /\ spaced t rest
  end.

(** ** The realtime channel: delivery to subscribed handlers

    A handler is a callback on messages.  It acts on the world [W] (all
    that a callback can reach, the handler sets included) and either
    returns or throws.  Computations of the channel thread the world, may
    end in an exception, and log every handler they call. *)

Section Channel.
Variable W : Type.

Inductive Outcome := Returned (w : W) | Threw (w : W).

Definition Handler := BroadcastMessage -> W -> Outcome.

(** The result of running a computation: [value] is [None] when an
    exception escaped. *)
Record Ran (A : Type) := mkRan {
  value : option A;
  world : W;
  calls : list Handler
}.
Arguments mkRan {A}.
Arguments value {A}.
Arguments world {A}.
Arguments calls {A}.

Definition Comp (A : Type) := W -> Ran A.

Definition ret {A} (a : A) : Comp A := fun w => mkRan (Some a) w [].

(** Sequencing: an exception in [c] skips [k]. *)
Definition bind {A B} (c : Comp A) (k : A -> Comp B) : Comp B :=
  fun w =>
    let r := c w in
    match value r with
    | Some a =>
        let r' := k a (world r) in
        mkRan (value r') (world r') (calls r ++ calls r')
    | None => mkRan None (world r) (calls r)
    end.

(** [fn(data)] *)
Definition call (fn : Handler) (m : BroadcastMessage) : Comp unit :=
  fun w =>
    match fn m w with
    | Returned w' => mkRan (Some tt) w' [fn]
    | Threw w' => mkRan None w' [fn]
    end.

(** [try { c } catch {}] *)
Definition tryCatch (c : Comp unit) : Comp unit :=
  fun w => let r := c w in mkRan (Some tt) (world r) (calls r).

(** [for (const x of xs) { body(x) }] *)
Fixpoint forOf {X} (xs : list X) (body : X -> Comp unit) : Comp unit :=
  match xs with
  | [] => ret tt
  | x :: rest => bind (body x) (fun _ => forOf rest body)
  end.

(** The loop the three transports share:
    [for (const fn of Array.from(handlers)) { try { fn(data) } catch {} }]
    where [snapshot] is [Array.from(handlers)], taken before the first
    call. *)
Definition deliver (snapshot : list Handler) (m : BroadcastMessage)
    : Comp unit :=
  forOf snapshot (fun fn => tryCatch (call fn m)).

(** The same loop without the guard, for comparison. *)
Definition deliverUnguarded (snapshot : list Handler) (m : BroadcastMessage)
    : Comp unit :=
  forOf snapshot (fun fn => call fn m).

(** *** Supabase transport

    [handlers] is the [Set] of the channel object, in insertion order.
    The callback registered with [channel.on("broadcast", ...)]. *)
Variable handlers : W -> list Handler.

Definition supabaseOnBroadcast (data : BroadcastMessage) : Comp unit :=
  fun w => deliver (handlers w) data w.

(** *** BroadcastChannel transport

    [bcHandlers] is the module-level [Map] from room keys to handler
    sets.  [ch.onmessage]: *)
Variable bcHandlers : W -> gmap string (list Handler).

Definition broadcastOnMessage (key : string) (data : BroadcastMessage)
    : Comp unit :=
  fun w =>
    match bcHandlers w !! key with
    | None => ret tt w
    | Some set => deliver set data w
    end.

(** *** localStorage transport

    A storage event carries the key written and its new value, either of
    which may be null.  [JSON_parse] is [None] where [JSON.parse]
    throws.  [removeItem] is [localStorage.removeItem]. *)
Record StorageEvent := mkStorageEvent {
  e_key : option string;
  e_newValue : option string
}.

Variable JSON_parse : string -> option BroadcastMessage.
Variable removeItem : string -> W -> W.

(** A string operand of [!]: null and the empty string are falsy. *)
Definition truthy (s : option string) : option string :=
  match s with
  | Some v => if bool_decide (v = "") then None else Some v
  | None => None
  end.

Definition localStoragePrefix (key : string) : string := key +:+ "_ls_".

Definition onStorage (key : string) (e : StorageEvent) : Comp unit :=
  fun w =>
    match truthy (e_key e), truthy (e_newValue e) with
    | Some k, Some v =>
        if String.prefix (localStoragePrefix key) k then
          tryCatch
            (fun w =>
               match JSON_parse v with
               | None => mkRan None w []
               | Some msg =>
                   bind (deliver (handlers w) msg)
                     (fun _ w' => mkRan (Some tt) (removeItem k w') []) w
               end) w
        else ret tt w
    | _, _ => ret tt w
    end.
End Channel.

Arguments Returned {W}.
Arguments Threw {W}.
Arguments value {W A}.
Arguments world {W A}.
Arguments calls {W A}.
Arguments deliver {W}.
Arguments deliverUnguarded {W}.
Arguments supabaseOnBroadcast {W}.
Arguments broadcastOnMessage {W}.
Arguments onStorage {W}.

(** ** Notions the statements use *)

(** The time constant of an exponential approach of gain [g]: the time in
    which the distance to the target shrinks by the factor [1/e]. *)
Definition timeConstant (g : R) : R := / g.

(** The position recorded for [id] in the presence store. *)
Definition entryPos (st : Store) (id : string) : option (R * R) :=
  (λ e, (p_x e, p_y e)) <$> participants st !! id.

(** The condition under which a [move] message for a known entry is
    applied. *)
Definition moveExceeds (e : Participant) (x y : R) : Prop :=
  0.5 < Rabs (p_x e - x) \/ 0.5 < Rabs (p_y e - y).

(** The position drawn for a participant: its entry of [displayPosRef],
    or its stored position when it has none. *)
Definition displayOf (st : Store) (id : string) (e : Participant) : Vec2 :=
  default (mkVec2 (p_x e) (p_y e)) (displayPos st !! id).

(** [d'] lies strictly between [d] and [p] when these differ, and stays on
    [p] when they agree. *)
Definition toward (d d' p : R) : Prop :=
  (d < p -> d < d' < p) /\ (p < d -> p < d' < d) /\ (d = p -> d' = p).

(** The clamped elapsed times of the ticks of the list, added up; [lst] is
    the timestamp of the tick before the first. *)
Fixpoint elapsed (lst : R) (tks : list Tick) : R :=
  match tks with
  | [] => 0
  | tk :: rest => tickDt (t_now tk) lst + elapsed (t_now tk) rest
  end.

(** Every tick of the list has a positive clamped elapsed time. *)
Fixpoint ticking (lst : R) (tks : list Tick) : Prop :=
  match tks with
  | [] => True
  | tk :: rest => 0 < tickDt (t_now tk) lst /\ ticking (t_now tk) rest
  end.

(** The part of the distance that is left after a tick of length [dt]. *)
Definition remoteDecay (dt : R) : R := Rpower (1 - LERP_REMOTE / 60) (dt * 60).

(** The world a call leaves behind, returned or thrown. *)
Definition worldAfter {W} (o : Outcome W) : W :=
  match o with Returned w' | Threw w' => w' end.

(** The world after every handler of the list has run on the message, in
    order, each one in the world the one before left behind, whether that
    one returned or threw. *)
Definition runAll {W} (hs : list (Handler W)) (m : BroadcastMessage) (w : W) : W :=
  fold_left (λ w fn, worldAfter (fn m w)) hs w.

(** ** Scenarios *)

(** A participant standing still and facing left, alone in the room. *)
Definition guest : AvatarProfile := mkProfile "Convidado" "#7c3aed" (Some "").
Definition me_env : Env := mkEnv "me" guest false false.
Definition me_left : Participant :=
  mkParticipant "me" guest 512 320 DirLeft false (Some false) (Some 0) 0.
Definition rest_sim : Sim := mkSim (mkVec2 512 320) (mkVec2 0 0) ∅ None 0.
Definition rest_loop : Loop := mkLoop 984 960 900 0.
Definition rest_store : Store :=
  mkStore {[ "me" := me_left ]} ∅ [] false [] [].
Definition rest_tick : Tick := mkTick 1000 1700000000000 None.

(** The microphone is on and silent; 150 ms have passed since the last
    voice check, at 850 ms. *)
Definition mic_on_env : Env := mkEnv "me" guest false true.
Definition mic_loop : Loop := mkLoop 984 960 850 0.
Definition mic_tick : Tick := mkTick 1000 1700000000000 (Some 0).

(** A peer echoes a snapshot carrying the local id and the position
    (0, 0). *)
Definition echoed : Snapshot :=
  mkSnapshot "me" guest 0 0 DirDown false (Some false) (Some 0).

(** A peer whose authoritative position is (600, 320), drawn at
    (500, 300). *)
Definition peer_entry : Participant :=
  mkParticipant "peer" guest 600 320 DirRight false (Some false) (Some 0) 0.
Definition two_store : Store :=
  mkStore (<[ "peer" := peer_entry ]> {[ "me" := me_left ]})
    {[ "peer" := mkVec2 500 300 ]} [] false [] [].

(** [n] frames, 16 ms apart, after the frame at [t]. *)
Fixpoint evenTicks (t : R) (n : nat) : list Tick :=
  match n with
  | O => []
  | S k => mkTick (t + 16) 1700000000000 None :: evenTicks (t + 16) k
  end.

(** [n] frames, [gap] ms apart, after the frame at [t]. *)
Fixpoint burst (gap t : R) (n : nat) : list Tick :=
  match n with
  | O => []
  | S k => mkTick (t + gap) 1700000000000 None :: burst gap (t + gap) k
  end.

(** The fixtures [objectsRef] starts with. *)
Definition initialObjects : list WorldObject :=
  [ mkObject "lamp1" Lamp (11 * TILE) (2 * TILE) TILE (TILE * 2) true
      (Some {[ "on" := JBool true ]});
    mkObject "rug1" Rug (4 * TILE) (6 * TILE) (TILE * 3) (TILE * 2) false None;
    mkObject "board1" Board (1.5 * TILE) (1.2 * TILE) (TILE * 2.5) (TILE * 0.8)
      true (Some {[ "highlight" := JBool false ]}) ].

Definition room_store : Store :=
  mkStore {[ "me" := me_left ]} ∅ initialObjects false [] [].

(** The component after its first render and the effects of that render,
    and what these post: the refs as they are initialised, both flags off,
    [disableMic()] from the microphone effect, the local entry and the join
    from the presence effect, the avatar announcement, and a main loop
    started at [perf].  [now] is [Date.now()] in the presence effect. *)
Definition mount (id : string) (pr : AvatarProfile) (perf now : R)
    : (Sim * Loop * Store) * list BroadcastMessage :=
  let cx := Math_round ((WORLD_W * TILE) / 2) in
  let cy := Math_round ((WORLD_H * TILE) / 2) in
  ((mkSim (mkVec2 cx cy) (mkVec2 0 0) ∅ None 0,
    mkLoop perf 0 0 0,
    mkStore
      {[ id := mkParticipant id pr cx cy DirDown false (Some false) (Some 0) now ]}
      ∅ initialObjects true [] []),
   [ MsgVoice id 0 false;
     MsgJoin (mkSnapshot id pr cx cy DirDown false (Some false) (Some 0));
     MsgAvatar id pr false false ]).

(** The same component, 1000 ms after a main loop started at 0: a peer's
    chat message arrives after the frame at 1000 and again after the frame
    at 1016; each is followed by the render its [setLogs] causes. *)
Definition hello : ChatEntry := mkChat "peer" "Ana" "oi" 1700000001000.
Definition sameRender (perf : R) : Render := mkRender perf guest false false false.
Definition chatty : list Event :=
  [ EvTick (mkTick 1000 1700000001000 None);
    EvMsg 1700000001004 (MsgChat hello);
    EvRender (sameRender 1008);
    EvTick (mkTick 1016 1700000001016 None);
    EvMsg 1700000001020 (MsgChat hello);
    EvRender (sameRender 1024);
    EvTick (mkTick 1032 1700000001032 None) ].

(** The participant switches the microphone on 1000 ms after the mount;
    the next frame comes 200 ms later, before the microphone is
    granted. *)
Definition micOn (perf : R) : Render := mkRender perf guest false false true.
Definition switchOn : list Event :=
  [ EvRender (micOn 1000); EvTick (mkTick 1200 1700000001200 None) ].

(** Three subscribers on a world that is a log of what they saw; the
    second one throws. *)
Definition logA : Handler (list string) := fun _ w => Returned (w ++ ["a"]).
Definition boom : Handler (list string) := fun _ w => Threw w.
Definition logC : Handler (list string) := fun _ w => Returned (w ++ ["c"]).
Definition demoHandlers (w : list string) : list (Handler (list string)) :=
  [logA; boom; logC].
Definition demoBcHandlers (w : list string)
    : gmap string (list (Handler (list string))) :=
  {[ "vm_room_demo" := [logA; boom; logC] ]}.
Definition demoParse (s : string) : option BroadcastMessage :=
  if bool_decide (s = "leave peer") then Some (MsgLeave "peer") else None.
Definition demoRemove (k : string) (w : list string) : list string := w.

(** ** Further notions

    Parts of the source that the properties below speak about. *)

(** The direction the pressed keys ask for: [vx] and [vy] of
    [getDesiredVelocity] before normalisation. *)
Definition keyVector (keys : gset string) : Vec2 :=
  let up := hasKey keys "arrowup" || hasKey keys "w" in
  let down := hasKey keys "arrowdown" || hasKey keys "s" in
  let left := hasKey keys "arrowleft" || hasKey keys "a" in
  let right := hasKey keys "arrowright" || hasKey keys "d" in
  let vy1 := if up then 0 - 1 else 0 in
  let vy2 := if down then vy1 + 1 else vy1 in
  let vx1 := if left then 0 - 1 else 0 in
  let vx2 := if right then vx1 + 1 else vx1 in
  mkVec2 vx2 vy2.

(** The position lies in the world inset by half a tile on every side. *)
Definition inBounds (p : Vec2) : Prop :=
  TILE / 2 <= vx p <= WORLD_W * TILE - TILE / 2 /\
  TILE / 2 <= vy p <= WORLD_H * TILE - TILE / 2.

(** Neither component of the velocity exceeds the base speed. *)
Definition speedBounded (v : Vec2) : Prop :=
  Rabs (vx v) <= BASE_SPEED /\ Rabs (vy v) <= BASE_SPEED.

(** Frame timestamps never go back: every tick of the run comes no
    earlier than the one before, [lst] being the timestamp of the tick
    before the run. *)
Fixpoint clockMonotone (lst : R) (evs : list Event) : Prop :=
  match evs with
  | [] => True
  | EvTick tk :: rest => lst <= t_now tk /\ clockMonotone (t_now tk) rest
  | EvRender rd :: rest => clockMonotone (rn_now rd) rest
  | _ :: rest => clockMonotone lst rest
  end.

(** Every entry of the presence store sits under its own id. *)
Definition wellKeyed (ps : gmap string Participant) : Prop :=
  forall k e, ps !! k = Some e -> p_id e = k.


(** The participant a message is about, if any. *)
Definition msgParticipant (m : BroadcastMessage) : option string :=
  match m with
  | MsgJoin p | MsgState p => Some (s_id p)
  | MsgLeave id | MsgMove id _ _ _ | MsgAvatar id _ _ _ | MsgVoice id _ _ =>
      Some id
  | MsgChat _ | MsgObject _ _ => None
  end.

(** The fields of a world object that are fixed at creation. *)
Definition geometry (o : WorldObject) : string * ObjType * R * R * R * R * bool :=
  (o_id o, o_type o, o_x o, o_y o, o_w o, o_h o, o_interactive o).

(** The snapshot a peer sends in reply to a join. *)
Definition replySnapshot (env : Env) (sim : Sim) : Snapshot :=
  mkSnapshot (myId env) (profile env) (vx (pos sim)) (vy (pos sim))
    (getDirFromVel (vel sim)) (camEnabled env) (Some (micEnabled env)) (Some 0).

Definition isVoiceMsg (m : BroadcastMessage) : bool :=
  match m with MsgVoice _ _ _ => true | _ => false end.

(** The frame timestamps of the voice messages the ticks of a trace post,
    one per message.  The voice messages of the microphone effect are not
    among them. *)
Definition voiceTimesOf (e : Event * list BroadcastMessage) : list R :=
  match e.1 with
  | EvTick tk => map (λ _, t_now tk) (List.filter isVoiceMsg e.2)
  | _ => []
  end.

Definition voiceTimes (tr : list (Event * list BroadcastMessage)) : list R :=
  flat_map voiceTimesOf tr.

(** Each time is more than [gap] after the one before, the first one
    after [l]. *)
Fixpoint spacedBy (gap l : R) (ts : list R) : Prop :=
  match ts with
  | [] => True
  | t :: rest => l + gap < t /\ spacedBy gap t rest
  end.

(** The microphone level a tick receives is the RMS of samples in
    [-1, 1]. *)
Definition rmsInRange (tk : Tick) : Prop :=
  match t_rms tk with
  | Some r => 0 <= r <= 1
  | None => True
  end.

(** ** Pointer and ripples *)

(** The test of [hitObject]: the point lies in the rectangle of the
    object, borders included. *)
Definition containsPt (o : WorldObject) (pt : Vec2) : bool :=
  geb (vx pt) (o_x o) && geb (o_x o + o_w o) (vx pt)
  && geb (vy pt) (o_y o) && geb (o_y o + o_h o) (vy pt).

(** The loop of [hitObject], from index [n - 1] down to 0.  The result is
    the index of the object found: it stands for the reference the source
    returns. *)
Fixpoint hitFrom (objs : list WorldObject) (pt : Vec2) (n : nat) : option nat :=
  match n with
  | O => None
  | S i =>
      match objs !! i with
      | Some o => if containsPt o pt then Some i else hitFrom objs pt i
      | None => hitFrom objs pt i
      end
  end.

Definition hitObject (objs : list WorldObject) (pt : Vec2) : option nat :=
  hitFrom objs pt (length objs).

Record Ripple := mkRipple {
  r_x : R;
  r_y : R;
  r_r : R;
  r_a : R
}.

(** [!!v] for a value read from an object state; a missing state or key
    reads as [undefined]. *)
Definition jsTruthy (v : option JsVal) : bool :=
  match v with
  | Some (JBool b) => b
  | Some (JNum r) => neqb r 0
  | Some (JStr s) => negb (bool_decide (s = ""))
  | None => false
  end.

(** [obj.state = { ...obj.state, [k]: !(!!obj.state?.[k]) }] *)
Definition toggleKey (k : string) (o : WorldObject) : WorldObject :=
  let cur := jsTruthy (o_state o ≫= (.!! k)) in
  withState o (<[k := JBool (negb cur)]> (default ∅ (o_state o))).

(** The refs the pointer handler works on. *)
Record Scene := mkScene {
  sc_objects : list WorldObject;
  sc_target : option Vec2;
  sc_ripples : list Ripple
}.

(** "otherwise click-to-move" *)
Definition clickToMove (pt : Vec2) (sc : Scene) : Scene * list BroadcastMessage :=
  (mkScene (sc_objects sc) (Some pt)
     (sc_ripples sc ++ [mkRipple (vx pt) (vy pt) 0 1]), []).

(** The [pointerdown] handler; [pt] is the pointer in canvas
    coordinates. *)
Definition onPointerDown (pt : Vec2) (sc : Scene) : Scene * list BroadcastMessage :=
  match hitObject (sc_objects sc) pt ≫= (λ i, pair i <$> sc_objects sc !! i) with
  | Some (i, obj) =>
      if o_interactive obj then
        match o_type obj with
        | Lamp =>
            let obj' := toggleKey "on" obj in
            (mkScene (<[i := obj']> (sc_objects sc)) (sc_target sc)
               (sc_ripples sc
                ++ [mkRipple (o_x obj + o_w obj / 2) (o_y obj + o_h obj * 0.15) 0 1]),
             [MsgObject (o_id obj) (default ∅ (o_state obj'))])
        | Board =>
            let obj' := toggleKey "highlight" obj in
            (mkScene (<[i := obj']> (sc_objects sc)) (sc_target sc)
               (sc_ripples sc),
             [MsgObject (o_id obj) (default ∅ (o_state obj'))])
        | Rug => clickToMove pt sc
        end
      else clickToMove pt sc
  | None => clickToMove pt sc
  end.

(** The "Ripples" block of [step]. *)
Definition stepRipples (dt : R) (rs : list Ripple) : list Ripple :=
  List.filter (λ r, gtb (r_a r) 0)
    (map (λ r, mkRipple (r_x r) (r_y r) (r_r r + 90 * dt) (r_a r - 1.2 * dt)) rs).

(** The key a click toggles on an interactive object of a type. *)
Definition toggledKey (t : ObjType) : option string :=
  match t with Lamp => Some "on" | Board => Some "highlight" | Rug => None end.

(** The ripples after ticks of the given lengths, in order. *)
Definition ripplesAfter (dts : list R) (rs : list Ripple) : list Ripple :=
  fold_left (λ rs dt, stepRipples dt rs) dts rs.

Definition sumR (xs : list R) : R := fold_right Rplus 0 xs.

(** ** Subscriptions of the three transports

    A handler set is a [Set] of function references in insertion order;
    references are numbers, and [behave] gives the function a reference
    stands for. *)

(** [set.add(fn)] *)
Definition setAdd (fn : nat) (s : list nat) : list nat :=
  if bool_decide (fn ∈ s) then s else s ++ [fn].

(** [set.delete(fn)] *)
Definition setDelete (fn : nat) (s : list nat) : list nat :=
  List.filter (λ g, negb (bool_decide (g = fn))) s.

(** *** localStorage channel: its handler set and whether its storage
    listener is attached to the window. *)
Record LsChannel := mkLs {
  ls_handlers : list nat;
  ls_listening : bool
}.

(** [localStorageChannel(key)] in a browser. *)
Definition lsCreate : LsChannel := mkLs [] true.

Definition lsSubscribe (fn : nat) (ch : LsChannel) : LsChannel :=
  mkLs (setAdd fn (ls_handlers ch)) (ls_listening ch).

(** The closure [subscribe] returns. *)
Definition lsOff (fn : nat) (ch : LsChannel) : LsChannel :=
  let hs := setDelete fn (ls_handlers ch) in
  mkLs hs (if bool_decide (length hs = 0%nat) then false else ls_listening ch).

Definition lsUnsubscribe (fn : nat) (ch : LsChannel) : LsChannel :=
  mkLs (setDelete fn (ls_handlers ch)) (ls_listening ch).

Inductive LsOp := LsSubscribe (fn : nat) | LsOff (fn : nat) | LsUnsubscribe (fn : nat).

Definition lsApply (ch : LsChannel) (op : LsOp) : LsChannel :=
  match op with
  | LsSubscribe fn => lsSubscribe fn ch
  | LsOff fn => lsOff fn ch
  | LsUnsubscribe fn => lsUnsubscribe fn ch
  end.

(** *** Supabase channel: its handler set, the [subscribed] flag, how
    often [channel.subscribe()] was called and what was sent. *)
Record SbChannel := mkSb {
  sb_handlers : list nat;
  sb_subscribed : bool;
  sb_joins : nat;
  sb_sent : list BroadcastMessage
}.

Definition sbCreate : SbChannel := mkSb [] false 0 [].

Definition ensureSubscribe (ch : SbChannel) : SbChannel :=
  if sb_subscribed ch then ch
  else mkSb (sb_handlers ch) true (S (sb_joins ch)) (sb_sent ch).

Definition sbPost (m : BroadcastMessage) (ch : SbChannel) : SbChannel :=
  let ch := ensureSubscribe ch in
  mkSb (sb_handlers ch) (sb_subscribed ch) (sb_joins ch) (sb_sent ch ++ [m]).

Definition sbSubscribe (fn : nat) (ch : SbChannel) : SbChannel :=
  let ch := ensureSubscribe ch in
  mkSb (setAdd fn (sb_handlers ch)) (sb_subscribed ch) (sb_joins ch) (sb_sent ch).

(** [unsubscribe], and the closure [subscribe] returns. *)
Definition sbUnsubscribe (fn : nat) (ch : SbChannel) : SbChannel :=
  mkSb (setDelete fn (sb_handlers ch)) (sb_subscribed ch) (sb_joins ch) (sb_sent ch).

Inductive SbOp := SbPost (m : BroadcastMessage) | SbSubscribe (fn : nat) | SbUnsubscribe (fn : nat).

Definition sbApply (ch : SbChannel) (op : SbOp) : SbChannel :=
  match op with
  | SbPost m => sbPost m ch
  | SbSubscribe fn => sbSubscribe fn ch
  | SbUnsubscribe fn => sbUnsubscribe fn ch
  end.

(** *** BroadcastChannel transport: the module-level maps [channels] (the
    keys that have a channel object) and [bcHandlers]. *)
Record BcModule := mkBc {
  bc_channels : gset string;
  bc_handlers : gmap string (list nat)
}.

(** [broadcastChannel(key)]: the channel object is made on first use. *)
Definition bcOpen (key : string) (md : BcModule) : BcModule :=
  mkBc ({[ key ]} ∪ bc_channels md) (bc_handlers md).

Definition bcSubscribe (key : string) (fn : nat) (md : BcModule) : BcModule :=
  mkBc (bc_channels md)
    (<[key := setAdd fn (default [] (bc_handlers md !! key))]> (bc_handlers md)).

Definition bcUnsubscribe (key : string) (fn : nat) (md : BcModule) : BcModule :=
  match bc_handlers md !! key with
  | None => md
  | Some set => mkBc (bc_channels md) (<[key := setDelete fn set]> (bc_handlers md))
  end.

Section Transports.
Variable W : Type.
Variable behave : nat -> Handler W.
Variable JSON_parse : string -> option BroadcastMessage.
Variable JSON_stringify : BroadcastMessage -> string.
Variable removeItem : string -> W -> W.
Variable lsOf : W -> LsChannel.
Variable sbOf : W -> SbChannel.
Variable bcOf : W -> BcModule.

(** What [post] of the localStorage channel writes: the key, made of the
    prefix, [Date.now()] and a random suffix, and the value. *)
Definition lsPost (key ts rnd : string) (m : BroadcastMessage) : string * string :=
  (localStoragePrefix key +:+ ts +:+ "_" +:+ rnd, JSON_stringify m).

(** A storage event in a tab: [onStorage] runs if it is still attached. *)
Definition lsStorageEvent (key : string) (e : StorageEvent) : Comp W unit :=
  fun w =>
    if ls_listening (lsOf w)
    then onStorage (fun w => map behave (ls_handlers (lsOf w)))
           JSON_parse removeItem key e w
    else ret W tt w.

(** A broadcast arriving on the Supabase channel. *)
Definition sbBroadcast (data : BroadcastMessage) : Comp W unit :=
  supabaseOnBroadcast (fun w => map behave (sb_handlers (sbOf w))) data.

(** A message event on the [BroadcastChannel] of [key]. *)
Definition bcMessage (key : string) (data : BroadcastMessage) : Comp W unit :=
  broadcastOnMessage (fun w => map behave <$> bc_handlers (bcOf w)) key data.
End Transports.

Arguments lsStorageEvent {W}.
Arguments sbBroadcast {W}.
Arguments bcMessage {W}.

(** The posts among the operations on a Supabase channel, in order. *)
Definition sbPosts (ops : list SbOp) : list BroadcastMessage :=
  flat_map (λ op, match op with SbPost m => [m] | _ => [] end) ops.

(** An operation that makes sure the channel is subscribed. *)
Definition sbJoins (op : SbOp) : bool :=
  match op with SbPost _ | SbSubscribe _ => true | SbUnsubscribe _ => false end.

(** Handlers behind the references 0, 1 and anything else, and a
    serialisation that knows one message. *)
Definition demoBehave (fn : nat) : Handler (list string) :=
  match fn with O => logA | S O => boom | _ => logC end.
Definition demoStringify (m : BroadcastMessage) : string := "leave peer".
Definition demoLs (w : list string) : LsChannel := mkLs [0; 1; 2]%nat true.
Definition demoBc (w : list string) : BcModule :=
  mkBc {[ "vm_room_demo" ]} {[ "vm_room_demo" := [0; 1]%nat ]}.

(** Handlers on a world that is the module state of the BroadcastChannel
    transport; they return at once. *)
Definition idleBehave (fn : nat) : Handler BcModule := fun _ w => Returned w.

(** ** Choosing the transport *)

Inductive TransportKind := KSupabase | KBroadcast | KLocalStorage.

(** What the two modules keep: the cached Supabase client (the URL and key
    it was created with) and the kind chosen last, initially
    ['broadcast']. *)
Record Modules := mkModules {
  client : option (string * string);
  lastTransportKind : TransportKind
}.

Definition initialModules : Modules := mkModules None KBroadcast.

(** The environment a call sees: the two public variables, whether the
    window has [BroadcastChannel], and the library's [createClient], which
    is not part of this repository: [createClient url key] tells whether
    the call returns a client ([true]) or throws ([false], as the library
    does on a URL it cannot accept). *)
Record Runtime := mkRuntime {
  env_url : option string;
  env_key : option string;
  hasBroadcastChannel : bool;
  createClient : string -> string -> bool
}.

(** [getSupabaseClient()]: what the call returns and the module state.
    The outer [None] is an exception leaving the function: the call of
    [createClient] is not guarded, and when it throws the assignment to
    [client] has not happened. *)
Definition getSupabaseClient (rt : Runtime) (md : Modules)
    : option (option (string * string)) * Modules :=
  match client md with
  | Some c => (Some (Some c), md)
  | None =>
      match truthy (env_url rt), truthy (env_key rt) with
      | Some url, Some key =>
          if createClient rt url key
          then (Some (Some (url, key)),
                mkModules (Some (url, key)) (lastTransportKind md))
          else (None, md)
      | _, _ => (Some None, md)
      end
  end.

(** [useRoomChannel(roomId)]: the kind of the channel it returns and the
    module state.  [None] is an exception leaving the hook, which calls
    [getSupabaseClient] unguarded before it assigns [lastTransportKind]. *)
Definition useRoomChannel (rt : Runtime) (md : Modules)
    : option TransportKind * Modules :=
  let '(supa, md1) := getSupabaseClient rt md in
  match supa with
  | None => (None, md1)
  | Some (Some _) => (Some KSupabase, mkModules (client md1) KSupabase)
  | Some None =>
      if hasBroadcastChannel rt
      then (Some KBroadcast, mkModules (client md1) KBroadcast)
      else (Some KLocalStorage, mkModules (client md1) KLocalStorage)
  end.

Definition getTransportKind (md : Modules) : TransportKind := lastTransportKind md.

(** The module state after calls of [useRoomChannel] under the given
    environments. *)
Definition afterCalls (rts : list Runtime) (md : Modules) : Modules :=
  fold_left (λ md rt, (useRoomChannel rt md).2) rts md.

(** Two versions of the library: one accepts every URL, one only those
    that start with [http]. *)
Definition lenient (url key : string) : bool := true.
Definition httpOnly (url key : string) : bool := String.prefix "http" url.

(** ** The participants panel: [updateUIFromRef]

    The side panel renders a React state [participantsUI], a snapshot of
    the participants record.  [updateUIFromRef] rebuilds the snapshot from
    the previous one ([prev]) and the record ([cur]): the first loop walks
    the values of the record and writes under the [id] field of each, the
    second walks the keys of the previous snapshot.  Both are plain
    objects, given here by their own properties and read through the
    prototype chain; the record is one on which no stray write has
    happened, so that each of its own properties is a participant. *)

(** What [record[id]] evaluates to: an own entry, a member of
    [Object.prototype], or [undefined]. *)
Inductive Lookup := Own (e : Participant) | Inherited | Undefined.

Definition readRecord (m : gmap string Participant) (id : string) : Lookup :=
  match m !! id with
  | Some e => Own e
  | None => if inherited id then Inherited else Undefined
  end.

Definition uiChanged (ex : option Participant) (p : Participant) : bool :=
  match ex with
  | None => true
  | Some e =>
      negb (bool_decide (name (p_profile e) = name (p_profile p)))
      || negb (bool_decide (color (p_profile e) = color (p_profile p)))
      || negb (bool_decide (p_camEnabled e = p_camEnabled p))
      || negb (bool_decide (p_micEnabled e = p_micEnabled p))
  end.

(** [{ ...p, x: exists?.x ?? p.x, y: exists?.y ?? p.y }] *)
Definition uiEntry (ex : option Participant) (p : Participant) : Participant :=
  match ex with
  | Some e =>
      mkParticipant (p_id p) (p_profile p) (p_x e) (p_y e) (p_dir p)
        (p_camEnabled p) (p_micEnabled p) (p_speakingLevel p) (p_lastSeen p)
  | None => p
  end.

(** One round of the first loop.  [None] is the TypeError of
    [exists.profile.name] when [prev[p.id]] is a member of
    [Object.prototype]: it is truthy and has no [profile]. *)
Definition uiRefresh (prev : gmap string Participant) (p : Participant)
    (next : gmap string Participant) : option (gmap string Participant) :=
  match readRecord prev (p_id p) with
  | Inherited => None
  | Own e =>
      Some (if uiChanged (Some e) p
            then <[p_id p := uiEntry (Some e) p]> next else next)
  | Undefined => Some (<[p_id p := uiEntry None p]> next)
  end.

(** One round of the second loop: [if (!participantsRef.current[id])
    delete next[id]]. *)
Definition uiPrune (cur : gmap string Participant) (id : string)
    (next : gmap string Participant) : gmap string Participant :=
  match readRecord cur id with
  | Undefined => delete id next
  | _ => next
  end.

(** The updater passed to [setParticipantsUI]; [None] when it throws. *)
Definition updateUIFromRef (cur prev : gmap string Participant)
    : option (gmap string Participant) :=
  next ← map_fold (fun _ p acc => acc ≫= uiRefresh prev p) (Some prev) cur;
  Some (map_fold (fun id _ nx => uiPrune cur id nx) next prev).

(** A participant who joined under the name of a member of
    [Object.prototype]. *)
Definition ctor_peer : Participant :=
  mkParticipant "constructor" guest 512 320 DirDown false (Some false) (Some 0)
    1700000000000.

(** What the panel holds for a participant [p] of the record, given the
    entry the previous snapshot had under its id. *)
Definition uiShown (ex : option Participant) (p : Participant) : Participant :=
  if uiChanged ex p then uiEntry ex p else default p ex.

(** The fields the panel compares. *)
Definition uiSame (e p : Participant) : Prop :=
  name (p_profile e) = name (p_profile p) /\
  color (p_profile e) = color (p_profile p) /\
  p_camEnabled e = p_camEnabled p /\
  p_micEnabled e = p_micEnabled p.

(** ** Ids that name nothing inherited *)

(** The id a message is about is not the name of a member of
    [Object.prototype]. *)
Definition plainMsg (m : BroadcastMessage) : Prop :=
  match msgParticipant m with
  | Some id => inherited id = false
  | None => True
  end.

(** Every message of the run is about such an id. *)
Fixpoint plainRun (evs : list Event) : Prop :=
  match evs with
  | [] => True
  | EvMsg _ m :: rest => plainMsg m /\ plainRun rest
  | _ :: rest => plainRun rest
  end.

(** The microphone has been on and granted since a render at 1000 ms: the
    main loop started there, the local entry carries the flag. *)
Definition me_mic : Participant :=
  mkParticipant "me" guest 512 320 DirDown false (Some true) (Some 0) 0.
Definition mic_store : Store :=
  mkStore {[ "me" := me_mic ]} ∅ initialObjects false [] [].
Definition loud_tick : Tick := mkTick 1200 1700000001200 (Some 1).
Definition quiet_tick : Tick := mkTick 1400 1700000001400 (Some 0).

(** * Properties *)

(** ** Comparisons at known values *)

Ltac rbool :=
  unfold gtb, geb, ltb, neqb;
  repeat first
    [ rewrite bool_decide_eq_true_2 by lra
    | rewrite bool_decide_eq_false_2 by lra ];
  simpl.

Lemma gtb_spec a b : gtb a b = true <-> b < a.
Proof. unfold gtb. apply bool_decide_eq_true. Qed.

Lemma gtb_false a b : gtb a b = false <-> a <= b.
Proof.
  unfold gtb. rewrite bool_decide_eq_false. split; intros H; lra.
Qed.

(** ** Writing the participants record *)

Lemma inherited_spec k : inherited k = true <-> k ∈ objectPrototypeKeys.
Proof.
  unfold inherited. rewrite existsb_exists. split.
  - intros (x & Hx & He). apply String.eqb_eq in He. subst x.
    by apply list_elem_of_In.
  - intros H. exists k. split; [by apply list_elem_of_In | apply String.eqb_refl].
Qed.

Lemma writeEntry_own k e st :
  is_Some (participants st !! k) ->
  writeEntry k e st = setParticipants (<[k := e]> (participants st)) st.
Proof.
  intros [x Hx]. unfold writeEntry.
  rewrite (bool_decide_eq_false_2 (participants st !! k = None)) by congruence.
  by rewrite andb_false_r.
Qed.

Lemma writeEntry_plain k e st :
  k <> "__proto__" ->
  writeEntry k e st = setParticipants (<[k := e]> (participants st)) st.
Proof.
  intros H. unfold writeEntry. by rewrite (bool_decide_eq_false_2 _ H).
Qed.

Lemma writeEntry_other k e st j :
  j <> k -> participants (writeEntry k e st) !! j = participants st !! j.
Proof.
  intros H. unfold writeEntry. destruct (_ && _); simpl; [reflexivity|].
  by rewrite lookup_insert_ne.
Qed.

Lemma writeEntry_rest k e st :
  displayPos (writeEntry k e st) = displayPos st /\
  objects (writeEntry k e st) = objects st /\
  staticDirty (writeEntry k e st) = staticDirty st /\
  logs (writeEntry k e st) = logs st.
Proof. unfold writeEntry. by destruct (_ && _). Qed.


(** ** The effects of a render *)

(** Writing into the local entry keeps the ids of the record. *)
Lemma withMe_lookup id f st j :
  participants (withMe id f st) !! j =
    if bool_decide (j = id) then f <$> participants st !! id
    else participants st !! j.
Proof.
  unfold withMe. destruct (participants st !! id) as [me|] eqn:E; simpl.
  - case_bool_decide as Hj.
    + subst j. by rewrite lookup_insert_eq.
    + by rewrite lookup_insert_ne.
  - case_bool_decide as Hj; [by subst j|reflexivity].
Qed.

Lemma withMe_rest id f st :
  displayPos (withMe id f st) = displayPos st /\
  objects (withMe id f st) = objects st /\
  staticDirty (withMe id f st) = staticDirty st /\
  logs (withMe id f st) = logs st /\
  strays (withMe id f st) = strays st.
Proof. unfold withMe. by destruct (participants st !! id). Qed.

Lemma withMe_is_Some id f st j :
  is_Some (participants (withMe id f st) !! j) <-> is_Some (participants st !! j).
Proof.
  rewrite withMe_lookup. case_bool_decide as Hj; [subst j|reflexivity].
  by rewrite fmap_is_Some.
Qed.

Lemma withMe_id id st : withMe id (λ me, me) st = st.
Proof.
  unfold withMe. destruct (participants st !! id) as [me|] eqn:E; [|reflexivity].
  unfold setParticipants. rewrite insert_id by exact E. by destruct st.
Qed.

Lemma withMe_withMe id f g st :
  withMe id g (withMe id f st) = withMe id (λ me, g (f me)) st.
Proof.
  unfold withMe at 1. rewrite withMe_lookup, bool_decide_eq_true_2 by done.
  unfold withMe. destruct (participants st !! id) as [me|] eqn:E; simpl.
  - unfold setParticipants. simpl. by rewrite insert_insert_eq.
  - reflexivity.
Qed.

(** The store after the effects of a render and after the microphone is
    granted: the local entry is written, nothing else. *)
Lemma render_store env rd s :
  exists f,
    (forall me, p_id (f me) = p_id me /\ p_x (f me) = p_x me /\
                p_y (f me) = p_y me) /\
    (render env rd s).1.2 = withMe (myId env) f s.2.
Proof.
  destruct s as [[sim lp] st]. unfold render, micEffect, disableMic, avatarEffect.
  simpl.
  destruct (rn_micEnabled rd), (avatarDepsChanged env rd); simpl.
  - eexists. split; [|reflexivity]. by intros me.
  - exists (λ me, me). split; [by intros me|]. by rewrite withMe_id.
  - rewrite withMe_withMe. eexists. split; [|reflexivity]. by intros me.
  - eexists. split; [|reflexivity]. by intros me.
Qed.

Lemma micReady_store env s :
  exists f,
    (forall me, p_id (f me) = p_id me /\ p_x (f me) = p_x me /\
                p_y (f me) = p_y me) /\
    (react env EvMicReady s).1.2 = withMe (myId env) f s.2.
Proof.
  destruct s as [[sim lp] st]. simpl. destruct (micEnabled env); simpl.
  - eexists. split; [|reflexivity]. by intros me.
  - exists (λ me, me). split; [by intros me|]. by rewrite withMe_id.
Qed.

Lemma render_loop env rd s :
  (render env rd s).1.1.2 = mkLoop (rn_now rd) 0 0 0.
Proof.
  destruct s as [[sim lp] st]. unfold render.
  destruct (micEffect _ _ _) as [[sim1 st1] vs].
  by destruct (avatarDepsChanged env rd).
Qed.

(** The effects of a render leave position, velocity, keys and target
    alone. *)
Lemma render_sim env rd s :
  pos (render env rd s).1.1.1 = pos s.1.1 /\
  vel (render env rd s).1.1.1 = vel s.1.1 /\
  keys (render env rd s).1.1.1 = keys s.1.1 /\
  target (render env rd s).1.1.1 = target s.1.1.
Proof.
  destruct s as [[sim lp] st]. unfold render, micEffect, disableMic.
  destruct (micEnabled (envAfterRender env rd));
    by destruct (avatarDepsChanged env rd).
Qed.

Lemma react_micReady_sim env s :
  (react env EvMicReady s).1.1 = s.1.
Proof. destruct s as [[sim lp] st]. simpl. by destruct (micEnabled env). Qed.

Lemma render_voiceLevel env rd s :
  voiceLevel (render env rd s).1.1.1 =
    if rn_micEnabled rd then voiceLevel s.1.1 else 0.
Proof.
  destruct s as [[sim lp] st]. unfold render, micEffect, disableMic. simpl.
  destruct (rn_micEnabled rd); by destruct (avatarDepsChanged env rd).
Qed.

Lemma render_has_me env rd s :
  is_Some (participants s.2 !! myId env) ->
  is_Some (participants (render env rd s).1.2 !! myId env).
Proof.
  intros H. destruct s as [[sim lp] st]. unfold render, micEffect, disableMic.
  cbn [snd] in H.
  destruct (micEnabled (envAfterRender env rd)),
    (avatarDepsChanged env rd); cbn [fst snd]; unfold avatarEffect;
    cbn [fst snd myId envAfterRender];
    rewrite ?withMe_is_Some; exact H.
Qed.

Lemma throttleMove_no_voice env now lst p d :
  List.filter isVoiceMsg (throttleMove env now lst p d).2 = [].
Proof. unfold throttleMove. by destruct (gtb _ _). Qed.

(** ** Facing direction *)

Lemma getDirFromVel_right_example : getDirFromVel (mkVec2 3 (-1)) = DirRight.
Proof.
  unfold getDirFromVel; simpl.
  rewrite (Rabs_right 3) by lra. rewrite (Rabs_left (-1)) by lra.
  rbool. reflexivity.
Qed.

Lemma getDirFromVel_down_example : getDirFromVel (mkVec2 0 5) = DirDown.
Proof.
  unfold getDirFromVel; simpl.
  rewrite Rabs_R0. rewrite (Rabs_right 5) by lra.
  rbool. reflexivity.
Qed.

Lemma getDirFromVel_zero : getDirFromVel (mkVec2 0 0) = DirDown.
Proof.
  unfold getDirFromVel; simpl. rewrite Rabs_R0. rbool. reflexivity.
Qed.

(** Projections of one tick. *)

Lemma step_vel env tk sim lp st :
  vel (step env tk (sim, lp, st)).1.1.1 = stepVel (tickDt (t_now tk) (last lp)) sim.
Proof.
  unfold step.
  destruct (throttleMove _ _ _ _ _) as [ls mv].
  destruct (throttleVoice _ _ _ _ _ _) as [[lv pv] vs]. reflexivity.
Qed.

Lemma step_participants env tk sim lp st :
  participants (step env tk (sim, lp, st)).1.2 =
    let dt := tickDt (t_now tk) (last lp) in
    let vel' := stepVel dt sim in
    let pos' := stepPos dt (pos sim) vel' in
    match participants st !! myId env with
    | Some e =>
        <[myId env := updateMy env pos' (getDirFromVel vel') (t_dateNow tk)
                        (stepVoiceLevel (voiceLevel sim) (t_rms tk)) e]>
          (participants st)
    | None => participants st
    end.
Proof.
  unfold step.
  destruct (throttleMove _ _ _ _ _) as [ls mv].
  destruct (throttleVoice _ _ _ _ _ _) as [[lv pv] vs]. simpl.
  destruct (participants st !! myId env); reflexivity.
Qed.

(** A tick with no key down, no target and no velocity leaves the
    velocity at zero. *)
Lemma stepVel_rest dt p lvl :
  stepVel dt (mkSim p (mkVec2 0 0) ∅ None lvl) = mkVec2 0 0.
Proof.
  unfold stepVel, getDesiredVelocity, hasKey; simpl.
  rewrite !bool_decide_eq_false_2 by set_solver. simpl.
  rbool. unfold smoothApproach. f_equal; ring.
Qed.

(** On a tick whose smoothed velocity is zero the local entry faces down,
    whatever it faced before. *)
Lemma step_zero_vel_faces_down env tk sim lp st e :
  participants st !! myId env = Some e ->
  vel (step env tk (sim, lp, st)).1.1.1 = mkVec2 0 0 ->
  p_dir <$> participants (step env tk (sim, lp, st)).1.2 !! myId env
    = Some DirDown.
Proof.
  intros He Hv. rewrite step_vel in Hv.
  rewrite step_participants. cbv zeta. rewrite He, Hv.
  rewrite lookup_insert_eq. simpl. by rewrite getDirFromVel_zero.
Qed.

Lemma rest_vel_zero :
  vel (step me_env rest_tick (rest_sim, rest_loop, rest_store)).1.1.1 = mkVec2 0 0.
Proof. rewrite step_vel. apply stepVel_rest. Qed.

(** C1 (as amended): the facing-direction quantization returns "right" for
    velocity (3, -1) and "down" for velocity (0, 5); for velocity (0, 0) it
    returns "down", so on every tick whose velocity is (0, 0) the local
    participant's facing direction is set to "down", whatever its previous
    value. *)
Theorem C1_facing_direction :
  getDirFromVel (mkVec2 3 (-1)) = DirRight /\
  getDirFromVel (mkVec2 0 5) = DirDown /\
  getDirFromVel (mkVec2 0 0) = DirDown /\
  forall env tk sim lp st e,
    participants st !! myId env = Some e ->
    vel (step env tk (sim, lp, st)).1.1.1 = mkVec2 0 0 ->
    p_dir <$> participants (step env tk (sim, lp, st)).1.2 !! myId env
      = Some DirDown.
Proof.
  split; [apply getDirFromVel_right_example|].
  split; [apply getDirFromVel_down_example|].
  split; [apply getDirFromVel_zero|].
  intros. by eapply step_zero_vel_faces_down.
Qed.

Lemma C1_facing_direction_witness :
  p_dir <$> participants
      (step me_env rest_tick (rest_sim, rest_loop, rest_store)).1.2 !! "me"
    = Some DirDown.
Proof.
  apply (proj2 (proj2 (proj2 C1_facing_direction))
           me_env rest_tick rest_sim rest_loop rest_store me_left).
  - apply lookup_singleton_eq.
  - apply rest_vel_zero.
Defined.

(** C1 fails as stated: a participant facing left whose velocity is (0, 0)
    on a tick faces down after it. *)
Lemma C1_counterexample :
  p_dir <$> participants rest_store !! "me" = Some DirLeft /\
  vel (step me_env rest_tick (rest_sim, rest_loop, rest_store)).1.1.1
    = mkVec2 0 0 /\
  p_dir <$> participants
      (step me_env rest_tick (rest_sim, rest_loop, rest_store)).1.2 !! "me"
    = Some DirDown /\
  DirDown <> DirLeft.
Proof.
  split; [unfold rest_store; simpl; by rewrite lookup_singleton_eq|].
  split; [apply rest_vel_zero|].
  split; [|discriminate].
  apply (step_zero_vel_faces_down me_env rest_tick rest_sim rest_loop
           rest_store me_left).
  - apply lookup_singleton_eq.
  - apply rest_vel_zero.
Qed.

(** ** Velocity smoothing *)

Lemma smoothApproach_error c t g dt :
  g <> 0 ->
  smoothApproach c t g dt - t = (c - t) * exp (- (dt / timeConstant g)).
Proof.
  intros Hg. unfold smoothApproach, timeConstant. cbv zeta.
  replace (dt / / g) with (g * dt) by (field; exact Hg).
  replace (- g * dt) with (- (g * dt)) by ring. ring.
Qed.

Lemma axisGain_zero : axisGain 0 = DECEL.
Proof. unfold axisGain. by rewrite bool_decide_eq_true_2. Qed.

Lemma axisGain_nonzero d : d <> 0 -> axisGain d = ACCEL.
Proof. intros H. unfold axisGain. by rewrite bool_decide_eq_false_2. Qed.

Lemma axisGain_neq_0 d : axisGain d <> 0.
Proof.
  unfold axisGain, DECEL, ACCEL. destruct (bool_decide (d = 0)); lra.
Qed.

Lemma timeConstant_accel_decel :
  timeConstant DECEL < timeConstant ACCEL.
Proof. unfold timeConstant, DECEL, ACCEL. lra. Qed.

(** The fraction of the distance left after [dt]: larger with the
    accelerating gain than with the decelerating one. *)
Lemma remaining_accel_decel dt :
  0 < dt ->
  exp (- (dt / timeConstant DECEL)) < exp (- (dt / timeConstant ACCEL)).
Proof.
  intros Hdt. apply exp_increasing.
  unfold timeConstant, DECEL, ACCEL.
  replace (dt / / 10) with (10 * dt) by field.
  replace (dt / / 8) with (8 * dt) by field. lra.
Qed.

(** C2 (as amended): per axis, the velocity-smoothing update is an
    exponential approach toward the desired velocity; the time constant
    used when accelerating toward a nonzero desired component (1/8 s) is
    strictly higher than the one used when decelerating toward a zero
    desired component (1/10 s), so stops converge faster than starts. *)
Theorem C2_velocity_smoothing :
  (forall dt sim,
     let desired := getDesiredVelocity dt (pos sim) (keys sim) (target sim) in
     let v := stepVel dt sim in
     vx v - vx desired =
       (vx (vel sim) - vx desired)
         * exp (- (dt / timeConstant (axisGain (vx desired)))) /\
     vy v - vy desired =
       (vy (vel sim) - vy desired)
         * exp (- (dt / timeConstant (axisGain (vy desired))))) /\
  (forall d, d <> 0 ->
     axisGain d = ACCEL /\ axisGain 0 = DECEL /\
     timeConstant (axisGain 0) < timeConstant (axisGain d)) /\
  (forall d dt, d <> 0 -> 0 < dt ->
     exp (- (dt / timeConstant (axisGain 0)))
       < exp (- (dt / timeConstant (axisGain d)))).
Proof.
  split; [|split].
  - intros dt sim desired v. unfold v, stepVel. fold desired. simpl.
    split; apply smoothApproach_error, axisGain_neq_0.
  - intros d Hd. rewrite axisGain_zero, (axisGain_nonzero d Hd).
    split; [reflexivity|]. split; [reflexivity|].
    apply timeConstant_accel_decel.
  - intros d dt Hd Hdt. rewrite axisGain_zero, (axisGain_nonzero d Hd).
    by apply remaining_accel_decel.
Qed.

Lemma C2_velocity_smoothing_witness :
  timeConstant (axisGain 0) < timeConstant (axisGain 180) /\
  exp (- (0.05 / timeConstant (axisGain 0)))
    < exp (- (0.05 / timeConstant (axisGain 180))).
Proof.
  split.
  - apply (proj1 (proj2 C2_velocity_smoothing) 180). lra.
  - apply (proj2 (proj2 C2_velocity_smoothing) 180 0.05); lra.
Defined.

(** C2 fails as stated: toward a desired component of 180 the time
    constant is 1/8 s, toward a desired component of 0 it is 1/10 s, and
    1/8 is not below 1/10. *)
Lemma C2_counterexample :
  timeConstant (axisGain 180) = / 8 /\
  timeConstant (axisGain 0) = / 10 /\
  ~ timeConstant (axisGain 180) < timeConstant (axisGain 0).
Proof.
  rewrite axisGain_zero, (axisGain_nonzero 180) by lra.
  unfold timeConstant, ACCEL, DECEL.
  split; [reflexivity|]. split; [reflexivity|]. lra.
Qed.

(** ** Voice throttle *)

Lemma clamp_inside v lo hi : lo <= v <= hi -> clamp v lo hi = v.
Proof.
  intros [H1 H2]. unfold clamp.
  rewrite (Rmin_right hi v) by lra. apply Rmax_right. lra.
Qed.

Lemma clamp_bounds v lo hi : lo <= hi -> lo <= clamp v lo hi <= hi.
Proof.
  intros H. unfold clamp. split; [apply Rmax_l|].
  apply Rmax_lub; [lra | apply Rmin_l].
Qed.

Lemma step_posts env tk sim lp st :
  (step env tk (sim, lp, st)).2 =
    let dt := tickDt (t_now tk) (last lp) in
    let vel' := stepVel dt sim in
    let pos' := stepPos dt (pos sim) vel' in
    let lvl' := stepVoiceLevel (voiceLevel sim) (t_rms tk) in
    let my := updateMy env pos' (getDirFromVel vel') (t_dateNow tk) lvl'
                <$> participants st !! myId env in
    (throttleMove env (t_now tk) (lastSend lp) pos' (getDirFromVel vel')).2
    ++ (throttleVoice env (t_now tk) (lastVoice lp) (prevVoiceLevel lp) lvl' my).2.
Proof.
  unfold step. cbv zeta.
  destruct (throttleMove _ _ _ _ _) as [ls mv].
  destruct (throttleVoice _ _ _ _ _ _) as [[lv pv] vs]. reflexivity.
Qed.

(** When the local entry exists, the tick has written the current
    mic-enabled flag into it before the throttle compares the two, so the
    comparison never fires: a voice message is posted exactly when the
    interval has elapsed and the level moved by more than 0.03. *)
Lemma throttleVoice_entry env now lst prev lvl0 e :
  p_micEnabled e = Some (micEnabled env) ->
  (throttleVoice env now lst prev lvl0 (Some e)).2 =
    if gtb (now - lst) VOICE_RATE_MS
       && gtb (Rabs (clamp (lvl0 * 2.2) 0 1 - prev)) 0.03
    then [MsgVoice (myId env) (clamp (lvl0 * 2.2) 0 1) (micEnabled env)]
    else [].
Proof.
  intros He. unfold throttleVoice. simpl. rewrite He. simpl.
  destruct (gtb (now - lst) VOICE_RATE_MS); simpl; [|reflexivity].
  destruct (micEnabled env); simpl; rewrite orb_false_r;
    destruct (gtb _ 0.03); reflexivity.
Qed.

Lemma step_voice_posts env tk sim lp st e :
  participants st !! myId env = Some e ->
  (step env tk (sim, lp, st)).2 =
    (throttleMove env (t_now tk) (lastSend lp)
       (stepPos (tickDt (t_now tk) (last lp)) (pos sim)
          (stepVel (tickDt (t_now tk) (last lp)) sim))
       (getDirFromVel (stepVel (tickDt (t_now tk) (last lp)) sim))).2
    ++
    let lvl := clamp (stepVoiceLevel (voiceLevel sim) (t_rms tk) * 2.2) 0 1 in
    if gtb (t_now tk - lastVoice lp) VOICE_RATE_MS
       && gtb (Rabs (lvl - prevVoiceLevel lp)) 0.03
    then [MsgVoice (myId env) lvl (micEnabled env)]
    else [].
Proof.
  intros He. rewrite step_posts. cbv zeta. rewrite He. simpl.
  by rewrite throttleVoice_entry.
Qed.

(** C3: the code at the failing input.  While the local entry exists, a
    tick posts a voice message exactly when the interval has elapsed and
    the level differs from the last one sent by more than 0.03: the tick
    has written the current flag into the entry before it compares the
    two, so the comparison never holds.  At the failing input the last
    voice message sent (by the microphone effect at the mount) carried
    [micEnabled: false]; the participant then switches the microphone on,
    the render posts an avatar message and no voice message, and the next
    frame, 1200 ms after the main loop's last voice check, posts no voice
    message. *)
Theorem C3_mic_flip_posts_nothing :
  (forall env tk sim lp st e,
     participants st !! myId env = Some e ->
     ((exists m, m ∈ (step env tk (sim, lp, st)).2 /\ isVoiceMsg m = true) <->
      VOICE_RATE_MS < t_now tk - lastVoice lp /\
      0.03 < Rabs (clamp (stepVoiceLevel (voiceLevel sim) (t_rms tk) * 2.2) 0 1
                   - prevVoiceLevel lp))) /\
  (let env0 := mkEnv "me" guest false false in
   let s0 := (mount "me" guest 0 1700000000000).1 in
   let s1 := (react env0 (EvRender (micOn 1000)) s0).1 in
   let env1 := envAfter env0 (EvRender (micOn 1000)) in
   let tk := mkTick 1200 1700000001200 None in
   MsgVoice "me" 0 false ∈ (mount "me" guest 0 1700000000000).2 /\
   micEnabled env0 = false /\ micEnabled env1 = true /\
   (react env0 (EvRender (micOn 1000)) s0).2 = [MsgAvatar "me" guest false true] /\
   VOICE_RATE_MS < t_now tk - lastVoice s1.1.2 /\
   List.filter isVoiceMsg (react env1 (EvTick tk) s1).2 = [] /\
   voiceTimes (run env0 switchOn s0).2 = []).
Proof.
  split.
  - intros env tk sim lp st e He.
    rewrite (step_voice_posts _ _ _ _ _ e He). cbv zeta.
    rewrite <- !gtb_spec, <- andb_true_iff. split.
    + intros (m & Hin & Hv). apply elem_of_app in Hin as [Hin|Hin].
      * assert (List.In m (List.filter isVoiceMsg
                  (throttleMove env (t_now tk) (lastSend lp)
                     (stepPos (tickDt (t_now tk) (last lp)) (pos sim)
                        (stepVel (tickDt (t_now tk) (last lp)) sim))
                     (getDirFromVel (stepVel (tickDt (t_now tk) (last lp)) sim))).2))
          as Hf
          by (apply List.filter_In; split; [by apply list_elem_of_In|exact Hv]).
        rewrite throttleMove_no_voice in Hf. destruct Hf.
      * destruct (_ && _); [reflexivity|]. by apply elem_of_nil in Hin.
    + intros ->. eexists. split.
      * apply elem_of_app. right. apply list_elem_of_here.
      * reflexivity.
  - cbv zeta.
    assert (is_Some (participants
              (react (mkEnv "me" guest false false) (EvRender (micOn 1000))
                 (mount "me" guest 0 1700000000000).1).1.2 !! "me")) as [e He].
    { apply (render_has_me (mkEnv "me" guest false false)).
      unfold mount. simpl. rewrite lookup_singleton_eq. eauto. }
    assert (List.filter isVoiceMsg
              (react (envAfter (mkEnv "me" guest false false)
                        (EvRender (micOn 1000)))
                 (EvTick (mkTick 1200 1700000001200 None))
                 (react (mkEnv "me" guest false false) (EvRender (micOn 1000))
                    (mount "me" guest 0 1700000000000).1).1).2 = []) as Hnone.
    { change (react (mkEnv "me" guest false false) (EvRender (micOn 1000))
                (mount "me" guest 0 1700000000000).1)
        with (render (mkEnv "me" guest false false) (micOn 1000)
                (mount "me" guest 0 1700000000000).1) in *.
      destruct (render (mkEnv "me" guest false false) (micOn 1000)
                  (mount "me" guest 0 1700000000000).1)
        as [[[sim1 lp1] st1] out1] eqn:E1.
      assert (lp1 = mkLoop 1000 0 0 0) as ->.
      { replace lp1
          with (render (mkEnv "me" guest false false) (micOn 1000)
                  (mount "me" guest 0 1700000000000).1).1.1.2 by by rewrite E1.
        apply render_loop. }
      assert (voiceLevel sim1 = 0) as Hlvl.
      { replace sim1
          with (render (mkEnv "me" guest false false) (micOn 1000)
                  (mount "me" guest 0 1700000000000).1).1.1.1 by by rewrite E1.
        by rewrite render_voiceLevel. }
      cbn [fst snd] in He. cbn [fst].
      change (react ?env (EvTick ?tk) ?s) with (step env tk s).
      rewrite (step_voice_posts
                 (envAfter (mkEnv "me" guest false false) (EvRender (micOn 1000)))
                 _ _ _ _ e He).
      cbv zeta.
      rewrite List.filter_app, throttleMove_no_voice, Hlvl. simpl.
      unfold VOICE_RATE_MS.
      replace (0 * 2.2) with 0 by lra. rewrite (clamp_inside 0 0 1) by lra.
      replace (0 - 0) with 0 by lra. rewrite Rabs_R0. rbool. reflexivity. }
    split; [apply list_elem_of_here|]. split; [reflexivity|].
    split; [reflexivity|]. split; [reflexivity|]. split; [|split].
    + change (react (mkEnv "me" guest false false) (EvRender (micOn 1000))
                (mount "me" guest 0 1700000000000).1)
        with (render (mkEnv "me" guest false false) (micOn 1000)
                (mount "me" guest 0 1700000000000).1).
      rewrite render_loop. unfold VOICE_RATE_MS. simpl. lra.
    + exact Hnone.
    + unfold switchOn.
      change (voiceTimes
                (run (mkEnv "me" guest false false)
                   [EvRender (micOn 1000);
                    EvTick (mkTick 1200 1700000001200 None)]
                   (mount "me" guest 0 1700000000000).1).2)
        with (map (λ _ : BroadcastMessage, 1200)
                (List.filter isVoiceMsg
                   (react (envAfter (mkEnv "me" guest false false)
                             (EvRender (micOn 1000)))
                      (EvTick (mkTick 1200 1700000001200 None))
                      (react (mkEnv "me" guest false false)
                         (EvRender (micOn 1000))
                         (mount "me" guest 0 1700000000000).1).1).2) ++ []).
      by rewrite Hnone.
Qed.

(** A loud frame with the microphone on posts a voice message. *)
Lemma C3_mic_flip_posts_nothing_witness :
  exists m,
    m ∈ (step mic_on_env loud_tick (rest_sim, mkLoop 1000 0 0 0, mic_store)).2 /\
    isVoiceMsg m = true.
Proof.
  apply (proj1 C3_mic_flip_posts_nothing mic_on_env loud_tick rest_sim
           (mkLoop 1000 0 0 0) mic_store me_mic (lookup_singleton_eq "me" me_mic)).
  unfold loud_tick, rest_sim, VOICE_RATE_MS, stepVoiceLevel, lerp. simpl.
  replace ((0 + (1 - 0) * 0.25) * 2.2) with 0.55 by lra.
  rewrite (clamp_inside 0.55 0 1) by lra.
  replace (0.55 - 0) with 0.55 by lra. rewrite (Rabs_right 0.55) by lra. lra.
Defined.

(** ** Reconciliation and the local entry *)

Lemma step_local_position env tk sim lp st e :
  participants st !! myId env = Some e ->
  entryPos (step env tk (sim, lp, st)).1.2 (myId env) =
    Some (vx (pos (step env tk (sim, lp, st)).1.1.1),
          vy (pos (step env tk (sim, lp, st)).1.1.1)).
Proof.
  intros He. unfold entryPos. rewrite step_participants. cbv zeta.
  rewrite He, lookup_insert_eq. simpl.
  unfold step.
  destruct (throttleMove _ _ _ _ _) as [ls mv].
  destruct (throttleVoice _ _ _ _ _ _) as [[lv pv] vs]. reflexivity.
Qed.

(** The simulation state after a tick does not depend on the store. *)
Lemma step_sim_independent env tk sim lp st1 st2 :
  (step env tk (sim, lp, st1)).1.1.1 = (step env tk (sim, lp, st2)).1.1.1.
Proof.
  unfold step.
  repeat match goal with
         | |- context [throttleMove ?a ?b ?c ?d ?e] =>
             destruct (throttleMove a b c d e) as [? ?]
         | |- context [throttleVoice ?a ?b ?c ?d ?e ?f] =>
             destruct (throttleVoice a b c d e f) as [[? ?] ?]
         end.
  reflexivity.
Qed.

(** C4 (as amended): with a local entry present, an inbound avatar, voice,
    object or chat message leaves the local entry's position unchanged,
    and so does a move message for the local id whose two coordinate deltas
    are within 0.5; a join or state message for the local id overwrites the
    local entry's position with the payload's, a move message for the local
    id does so when a delta exceeds 0.5, and a leave message for the local
    id removes the entry.  Reconciliation never changes the simulated
    position, which the next tick copies back into the local entry. *)
Theorem C4_local_entry_position :
  forall env sim now m st e,
    participants st !! myId env = Some e ->
    let st' := (onMsg env sim now m st).1 in
    match m with
    | MsgJoin p | MsgState p =>
        s_id p = myId env -> entryPos st' (myId env) = Some (s_x p, s_y p)
    | MsgMove id x y d =>
        id = myId env ->
        entryPos st' (myId env) =
          if gtb (Rabs (p_x e - x)) 0.5 || gtb (Rabs (p_y e - y)) 0.5
          then Some (x, y) else Some (p_x e, p_y e)
    | MsgLeave id => id = myId env -> entryPos st' (myId env) = None
    | MsgAvatar _ _ _ _ | MsgVoice _ _ _ | MsgObject _ _ | MsgChat _ =>
        entryPos st' (myId env) = Some (p_x e, p_y e)
    end /\
    forall tk lp e',
      participants st' !! myId env = Some e' ->
      let s' := (step env tk (sim, lp, st')).1 in
      entryPos s'.2 (myId env) = Some (vx (pos s'.1.1), vy (pos s'.1.1)) /\
      s'.1.1 = (step env tk (sim, lp, st)).1.1.1.
Proof.
  intros env sim now m st e He st'. split.
  - subst st'. unfold entryPos.
    destruct m as [p|id|id x y d|c|p|id pr cam mic|id lvl mic|id s]; simpl.
    + intros ->. rewrite writeEntry_own by eauto. simpl.
      by rewrite lookup_insert_eq.
    + intros ->. by rewrite lookup_delete_eq.
    + intros ->. rewrite He.
      destruct (gtb _ _ || gtb _ _); simpl; [by rewrite lookup_insert_eq|].
      by rewrite He.
    + by rewrite He.
    + intros ->. rewrite writeEntry_own by eauto. simpl.
      by rewrite lookup_insert_eq.
    + destruct (decide (id = myId env)) as [->|Hne].
      * rewrite He. simpl. by rewrite lookup_insert_eq.
      * destruct (participants st !! id); [|destruct (inherited id)]; simpl;
          rewrite ?lookup_insert_ne by done; by rewrite He.
    + destruct (decide (id = myId env)) as [->|Hne].
      * rewrite He. simpl. by rewrite lookup_insert_eq.
      * destruct (participants st !! id); [|destruct (inherited id)]; simpl;
          rewrite ?lookup_insert_ne by done; by rewrite He.
    + destruct (findObject id (objects st)); simpl; by rewrite He.
  - intros tk lp e' He' s'. subst s'. split.
    + by eapply step_local_position.
    + apply step_sim_independent.
Qed.

Lemma C4_local_entry_position_witness :
  entryPos (onMsg me_env rest_sim 1700000000000 (MsgVoice "me" 0.5 true)
              rest_store).1 "me"
    = Some (512, 320) /\
  entryPos (onMsg me_env rest_sim 1700000000000 (MsgJoin echoed)
              rest_store).1 "me"
    = Some (0, 0) /\
  entryPos
    (step me_env rest_tick
       (rest_sim, rest_loop,
        (onMsg me_env rest_sim 1700000000000 (MsgJoin echoed) rest_store).1)).1.2
    "me"
    = Some (vx (pos (step me_env rest_tick
                       (rest_sim, rest_loop,
                        (onMsg me_env rest_sim 1700000000000 (MsgJoin echoed)
                           rest_store).1)).1.1.1),
            vy (pos (step me_env rest_tick
                       (rest_sim, rest_loop,
                        (onMsg me_env rest_sim 1700000000000 (MsgJoin echoed)
                           rest_store).1)).1.1.1)).
Proof.
  pose proof (lookup_singleton_eq "me" me_left) as Hme.
  split; [|split].
  - exact (proj1 (C4_local_entry_position me_env rest_sim 1700000000000
                    (MsgVoice "me" 0.5 true) rest_store me_left Hme)).
  - apply (proj1 (C4_local_entry_position me_env rest_sim 1700000000000
                    (MsgJoin echoed) rest_store me_left Hme)).
    reflexivity.
  - apply (proj2 (C4_local_entry_position me_env rest_sim 1700000000000
                    (MsgJoin echoed) rest_store me_left Hme)
             rest_tick rest_loop (ofSnapshot echoed 1700000000000)).
    apply lookup_insert_eq.
Defined.

(** C4 fails as stated: a join message carrying the local id moves the
    local entry from (512, 320) to the payload's (0, 0). *)
Lemma C4_counterexample :
  s_id echoed = myId me_env /\
  entryPos rest_store "me" = Some (512, 320) /\
  entryPos (onMsg me_env rest_sim 1700000000000 (MsgJoin echoed) rest_store).1
      "me" = Some (0, 0) /\
  (512, 320) <> (0, 0).
Proof.
  split; [reflexivity|].
  split; [unfold entryPos, rest_store; simpl; by rewrite lookup_singleton_eq|].
  split; [unfold entryPos; simpl; by rewrite lookup_insert_eq|].
  intros H. injection H as H1 H2. lra.
Qed.

(** ** Unknown ids, creation and [lastSeen] *)



Lemma moveExceeds_true e x y :
  moveExceeds e x y ->
  gtb (Rabs (p_x e - x)) 0.5 || gtb (Rabs (p_y e - y)) 0.5 = true.
Proof.
  intros [H|H]; apply orb_true_iff; [left|right]; by apply gtb_spec.
Qed.

Lemma moveExceeds_false e x y :
  Rabs (p_x e - x) <= 0.5 -> Rabs (p_y e - y) <= 0.5 ->
  gtb (Rabs (p_x e - x)) 0.5 || gtb (Rabs (p_y e - y)) 0.5 = false.
Proof.
  intros H1 H2. apply orb_false_iff. split; by apply gtb_false.
Qed.




(** ** Frame of a move message *)

(** C7: for a move message whose id is known, if both coordinate deltas
    are within 0.5 the store, and with it the participant's entry, is left
    unchanged; if either delta exceeds 0.5, exactly the fields x, y, dir
    and lastSeen of that entry are updated, and its other fields, the other
    entries and the rest of the store are unchanged. *)
Theorem C7_move_frame :
  forall env sim now id x y d st e,
    participants st !! id = Some e ->
    let st' := (onMsg env sim now (MsgMove id x y d) st).1 in
    (Rabs (p_x e - x) <= 0.5 -> Rabs (p_y e - y) <= 0.5 ->
       st' = st /\ participants st' !! id = Some e) /\
    (moveExceeds e x y ->
       exists e',
         participants st' !! id = Some e' /\
         p_x e' = x /\ p_y e' = y /\ p_dir e' = d /\ p_lastSeen e' = now /\
         p_id e' = p_id e /\ p_profile e' = p_profile e /\
         p_camEnabled e' = p_camEnabled e /\
         p_micEnabled e' = p_micEnabled e /\
         p_speakingLevel e' = p_speakingLevel e /\
         (forall j, j <> id -> participants st' !! j = participants st !! j) /\
         displayPos st' = displayPos st /\ objects st' = objects st /\
         staticDirty st' = staticDirty st /\ logs st' = logs st).
Proof.
  intros env sim now id x y d st e He st'. subst st'. simpl. rewrite He.
  split.
  - intros Hx Hy. rewrite (moveExceeds_false _ _ _ Hx Hy). simpl. by split.
  - intros Hex. rewrite (moveExceeds_true _ _ _ Hex). simpl.
    exists (applyMove e x y d now).
    split; [apply lookup_insert_eq|].
    repeat split; try reflexivity.
    intros j Hj. by apply lookup_insert_ne.
Qed.

Lemma C7_move_frame_witness :
  (onMsg me_env rest_sim 1700000000000 (MsgMove "me" 512.25 320 DirUp)
     rest_store).1 = rest_store /\
  exists e',
    participants (onMsg me_env rest_sim 1700000000000
                    (MsgMove "me" 10 20 DirUp) rest_store).1 !! "me" = Some e' /\
    p_x e' = 10 /\ p_y e' = 20 /\ p_dir e' = DirUp.
Proof.
  split.
  - apply (proj1 (C7_move_frame me_env rest_sim 1700000000000 "me" 512.25 320
                    DirUp rest_store me_left (lookup_singleton_eq "me" me_left))).
    + simpl. rewrite Rabs_left; lra.
    + simpl. rewrite Rabs_right; lra.
  - destruct (proj2 (C7_move_frame me_env rest_sim 1700000000000 "me" 10 20
                       DirUp rest_store me_left (lookup_singleton_eq "me" me_left)))
      as (e' & He' & Hx & Hy & Hd & _).
    + left. simpl. rewrite Rabs_right; lra.
    + exists e'. auto.
Defined.

(** ** Merging object state *)

Section ObjectMerge.
Implicit Types (s : gmap string JsVal) (objs : list WorldObject).

Lemma mergeState_idem old s :
  mergeState (Some (mergeState old s)) s = mergeState old s.
Proof.
  unfold mergeState. simpl.
  by rewrite (assoc_L (∪)), (idemp_L (∪)).
Qed.

Lemma mergeState_comm old s1 s2 :
  dom s1 ## dom s2 ->
  mergeState (Some (mergeState old s1)) s2
    = mergeState (Some (mergeState old s2)) s1.
Proof.
  intros Hd. apply map_disjoint_dom in Hd. unfold mergeState. simpl.
  rewrite !(assoc_L (∪)). f_equal. symmetry. by apply map_union_comm.
Qed.

Lemma mergeObject_idem id s objs :
  mergeObject id s (mergeObject id s objs) = mergeObject id s objs.
Proof.
  induction objs as [|o rest IH]; [reflexivity|]. simpl.
  destruct (bool_decide (o_id o = id)) eqn:E; simpl; rewrite E.
  - unfold withState. simpl. by rewrite mergeState_idem.
  - by rewrite IH.
Qed.

Lemma mergeObject_comm id1 id2 s1 s2 objs :
  dom s1 ## dom s2 ->
  mergeObject id2 s2 (mergeObject id1 s1 objs)
    = mergeObject id1 s1 (mergeObject id2 s2 objs).
Proof.
  intros Hd. induction objs as [|o rest IH]; [reflexivity|]. simpl.
  destruct (bool_decide (o_id o = id1)) eqn:E1;
    destruct (bool_decide (o_id o = id2)) eqn:E2; simpl;
    rewrite ?E1, ?E2; try reflexivity.
  - unfold withState. simpl. by rewrite (mergeState_comm _ s1 s2).
  - by rewrite IH.
Qed.

Lemma findObject_mergeObject id id' s objs :
  o_type <$> findObject id (mergeObject id' s objs)
    = o_type <$> findObject id objs.
Proof.
  induction objs as [|o rest IH]; [reflexivity|]. simpl.
  destruct (bool_decide (o_id o = id')) eqn:E'; simpl;
    destruct (bool_decide (o_id o = id)); try reflexivity.
  apply IH.
Qed.

Lemma mergeObject_absent id s objs :
  findObject id objs = None -> mergeObject id s objs = objs.
Proof.
  induction objs as [|o rest IH]; [reflexivity|]. simpl.
  destruct (bool_decide (o_id o = id)); [discriminate|].
  intros H. by rewrite IH.
Qed.

(** The store after an [object] message, by the type of the object
    found. *)
Lemma onMsg_object env sim now id s st :
  (onMsg env sim now (MsgObject id s) st).1 =
    mkStore (participants st) (displayPos st)
      (mergeObject id s (objects st))
      (match o_type <$> findObject id (objects st) with
       | Some t => if needsRedraw t then true else staticDirty st
       | None => staticDirty st
       end)
      (logs st) (strays st).
Proof.
  simpl. destruct (findObject id (objects st)) eqn:E; simpl; [reflexivity|].
  rewrite (mergeObject_absent _ _ _ E). by destruct st.
Qed.
End ObjectMerge.

(** C9: applying the same object message twice yields the same state map
    (indeed the same store) as applying it once, and two object messages
    whose partial states have disjoint key sets commute. *)
Theorem C9_object_merge :
  (forall old s, mergeState (Some (mergeState old s)) s = mergeState old s) /\
  (forall env sim t1 t2 id s st,
     (onMsg env sim t2 (MsgObject id s)
        (onMsg env sim t1 (MsgObject id s) st).1).1
       = (onMsg env sim t1 (MsgObject id s) st).1) /\
  (forall env sim t1 t2 id1 id2 s1 s2 st,
     dom s1 ## dom s2 ->
     (onMsg env sim t2 (MsgObject id2 s2)
        (onMsg env sim t1 (MsgObject id1 s1) st).1).1
       = (onMsg env sim t2 (MsgObject id1 s1)
            (onMsg env sim t1 (MsgObject id2 s2) st).1).1).
Proof.
  split; [apply mergeState_idem|]. split.
  - intros. rewrite !onMsg_object. simpl.
    rewrite mergeObject_idem, findObject_mergeObject.
    f_equal.
    destruct (o_type <$> findObject id (objects st)) as [t|]; [|reflexivity].
    by destruct (needsRedraw t).
  - intros env sim t1 t2 id1 id2 s1 s2 st Hd. rewrite !onMsg_object. simpl.
    rewrite (mergeObject_comm id1 id2 s1 s2 _ Hd), !findObject_mergeObject.
    f_equal.
    destruct (o_type <$> findObject id1 (objects st)) as [a|];
      destruct (o_type <$> findObject id2 (objects st)) as [b|];
      try reflexivity.
    by destruct (needsRedraw a), (needsRedraw b).
Qed.

Lemma C9_object_merge_witness :
  (onMsg me_env rest_sim 2 (MsgObject "lamp1" {[ "tint" := JStr "warm" ]})
     (onMsg me_env rest_sim 1 (MsgObject "lamp1" {[ "on" := JBool false ]})
        room_store).1).1
  = (onMsg me_env rest_sim 2 (MsgObject "lamp1" {[ "on" := JBool false ]})
       (onMsg me_env rest_sim 1 (MsgObject "lamp1" {[ "tint" := JStr "warm" ]})
          room_store).1).1.
Proof.
  apply (proj2 (proj2 C9_object_merge)).
  rewrite !dom_singleton_L. apply disjoint_singleton_l.
  rewrite elem_of_singleton. discriminate.
Defined.

(** ** Rate of move messages *)

Lemma throttleVoice_no_move env now lst prev lvl0 my :
  List.filter isMove (throttleVoice env now lst prev lvl0 my).2 = [].
Proof.
  unfold throttleVoice.
  destruct (gtb (now - lst) VOICE_RATE_MS); [|reflexivity].
  destruct (_ || _); reflexivity.
Qed.

Lemma step_moves env tk sim lp st :
  List.filter isMove (step env tk (sim, lp, st)).2 =
    let dt := tickDt (t_now tk) (last lp) in
    let vel' := stepVel dt sim in
    let pos' := stepPos dt (pos sim) vel' in
    if gtb (t_now tk - lastSend lp) SEND_RATE_MS
    then [MsgMove (myId env) (vx pos') (vy pos') (getDirFromVel vel')]
    else [].
Proof.
  rewrite step_posts. cbv zeta.
  rewrite List.filter_app, throttleVoice_no_move, app_nil_r.
  unfold throttleMove.
  destruct (gtb (t_now tk - lastSend lp) SEND_RATE_MS); reflexivity.
Qed.

Lemma step_lastSend env tk sim lp st :
  lastSend (step env tk (sim, lp, st)).1.1.2 =
    if gtb (t_now tk - lastSend lp) SEND_RATE_MS then t_now tk else lastSend lp.
Proof.
  unfold step, throttleMove.
  destruct (gtb (t_now tk - lastSend lp) SEND_RATE_MS);
    destruct (throttleVoice _ _ _ _ _ _) as [[lv pv] vs]; reflexivity.
Qed.

Lemma onMsg_posts_no_move env sim now m st :
  List.filter isMove (onMsg env sim now m st).2 = [].
Proof.
  destruct m as [p|id|id x y d|c|p|id pr cam mic|id lvl mic|id s]; simpl;
    try reflexivity.
  - by destruct (bool_decide (s_id p ≠ myId env)).
  - destruct (participants st !! id); [|reflexivity].
    by destruct (gtb _ _ || gtb _ _).
  - destruct (participants st !! id); [|destruct (inherited id)]; reflexivity.
  - destruct (participants st !! id); [|destruct (inherited id)]; reflexivity.
  - by destruct (findObject id (objects st)).
Qed.

(** What one event adds to the move times, and what it does to
    [lastSend]: a render starts a main loop whose [lastSend] is 0. *)
Lemma react_moves env ev s :
  moveTimesOf (ev, (react env ev s).2) =
    match ev with
    | EvTick tk =>
        if gtb (t_now tk - lastSend s.1.2) SEND_RATE_MS then [t_now tk] else []
    | _ => []
    end.
Proof.
  destruct s as [[sim lp] st]. destruct ev as [tk|now m|rd|]; try reflexivity.
  change (moveTimesOf (EvTick tk, (react env (EvTick tk) (sim, lp, st)).2))
    with (map (λ _ : BroadcastMessage, t_now tk)
            (List.filter isMove (step env tk (sim, lp, st)).2)).
  rewrite step_moves. cbv zeta. simpl.
  by destruct (gtb (t_now tk - lastSend lp) SEND_RATE_MS).
Qed.

Lemma react_lastSend env ev s :
  lastSend (react env ev s).1.1.2 =
    match ev with
    | EvTick tk =>
        if gtb (t_now tk - lastSend s.1.2) SEND_RATE_MS
        then t_now tk else lastSend s.1.2
    | EvRender _ => 0
    | _ => lastSend s.1.2
    end.
Proof.
  destruct s as [[sim lp] st]. destruct ev as [tk|now m|rd|].
  - apply step_lastSend.
  - reflexivity.
  - change (react env (EvRender rd) (sim, lp, st)) with (render env rd (sim, lp, st)).
    by rewrite render_loop.
  - simpl. by destruct (micEnabled env).
Qed.

Lemma run_cons env ev evs s :
  moveTimes (run env (ev :: evs) s).2 =
    moveTimesOf (ev, (react env ev s).2)
    ++ moveTimes (run (envAfter env ev) evs (react env ev s).1).2.
Proof. reflexivity. Qed.

Lemma run_cons_state env ev evs s :
  (run env (ev :: evs) s).1 = (run (envAfter env ev) evs (react env ev s).1).1.
Proof. reflexivity. Qed.

(** The move messages of one main loop are spaced by more than the send
    interval, starting from the [lastSend] the run began with. *)
Lemma run_spaced evs : forall env s,
  oneLoop evs ->
  spaced (lastSend s.1.2) (moveTimes (run env evs s).2).
Proof.
  induction evs as [|ev evs IH]; intros env s Hone; [exact I|].
  rewrite run_cons, react_moves.
  assert (oneLoop evs) as Hrest by (destruct ev; simpl in Hone; tauto).
  specialize (IH (envAfter env ev) (react env ev s).1 Hrest).
  rewrite react_lastSend in IH.
  destruct ev as [tk|now m|rd|]; try exact IH; [|destruct Hone].
  destruct (gtb (t_now tk - lastSend s.1.2) SEND_RATE_MS) eqn:E; [|exact IH].
  simpl. split; [|exact IH]. apply gtb_spec in E. lra.
Qed.

Lemma last_cons_default (a d : R) (l : list R) :
  List.last (a :: l) d = List.last l a.
Proof.
  revert a d. induction l as [|b l IH]; intros a d; [reflexivity|].
  change (List.last (a :: b :: l) d) with (List.last (b :: l) d).
  by rewrite (IH b d), (IH b a).
Qed.

(** Within one main loop, [lastSend] is the time of the latest move
    message. *)
Lemma run_lastSend evs : forall env s,
  oneLoop evs ->
  lastSend (run env evs s).1.1.2
    = List.last (moveTimes (run env evs s).2) (lastSend s.1.2).
Proof.
  induction evs as [|ev evs IH]; intros env s Hone; [reflexivity|].
  assert (oneLoop evs) as Hrest by (destruct ev; simpl in Hone; tauto).
  rewrite run_cons_state, run_cons, react_moves, (IH _ _ Hrest), react_lastSend.
  destruct ev as [tk|now m|rd|]; try reflexivity; [|destruct Hone].
  destruct (gtb (t_now tk - lastSend s.1.2) SEND_RATE_MS); [|reflexivity].
  simpl app. by rewrite last_cons_default.
Qed.

Lemma countIn_cons a T t ts :
  countIn a T (t :: ts) =
    if inWindow a T t then S (countIn a T ts) else countIn a T ts.
Proof. unfold countIn. simpl. by destruct (inWindow a T t). Qed.

Lemma inWindow_spec a T t : inWindow a T t = true <-> a <= t <= a + T.
Proof. unfold inWindow. apply bool_decide_eq_true. Qed.

(** After a time [l], spaced times up to the end of the window are fewer
    than the room left allows. *)
Lemma spaced_count_after a T : forall ts l,
  spaced l ts ->
  SEND_RATE_MS * INR (countIn a T ts) <= Rmax 0 (a + T - l).
Proof.
  induction ts as [|t ts IH]; intros l Hs.
  - unfold countIn. simpl. rewrite Rmult_0_r. apply Rmax_l.
  - destruct Hs as [Hl Hs]. specialize (IH t Hs).
    unfold SEND_RATE_MS in *.
    rewrite countIn_cons. destruct (inWindow a T t) eqn:E.
    + apply inWindow_spec in E. rewrite S_INR.
      rewrite Rmax_right in IH by lra.
      etransitivity; [|apply Rmax_r]. lra.
    + etransitivity; [exact IH|].
      apply Rmax_lub; [apply Rmax_l|].
      etransitivity; [|apply Rmax_r]. lra.
Qed.

Lemma spaced_count_window a T : forall ts l,
  0 <= T -> spaced l ts ->
  SEND_RATE_MS * (INR (countIn a T ts) - 1) <= T.
Proof.
  intros ts l HT. revert l.
  induction ts as [|t ts IH]; intros l Hs.
  - unfold countIn, SEND_RATE_MS. simpl. lra.
  - destruct Hs as [Hl Hs].
    rewrite countIn_cons. destruct (inWindow a T t) eqn:E.
    + apply inWindow_spec in E. rewrite S_INR.
      pose proof (spaced_count_after a T ts t Hs) as H.
      rewrite Rmax_right in H by lra. lra.
    + by apply (IH t).
Qed.

Lemma count_le_ceil (n : nat) (T : R) :
  SEND_RATE_MS * (INR n - 1) <= T ->
  (Z.of_nat n <= Zceil (T / SEND_RATE_MS) + 1)%Z.
Proof.
  unfold SEND_RATE_MS. intros H.
  apply le_IZR. rewrite plus_IZR, <- INR_IZR_INZ.
  pose proof (Zceil_bound (T / 60)) as [_ Hc]. lra.
Qed.

Lemma mount_loop id pr perf now :
  (mount id pr perf now).1.1.2 = mkLoop perf 0 0 0.
Proof. reflexivity. Qed.

(** The move messages of the run [chatty]. *)
Lemma chatty_moves :
  moveTimes
    (run (mkEnv "me" guest false false) chatty
       (mount "me" guest 0 1700000000000).1).2
  = [1000; 1016; 1032].
Proof.
  unfold chatty.
  rewrite !run_cons, !react_moves, !react_lastSend, mount_loop.
  unfold SEND_RATE_MS. simpl. rbool. reflexivity.
Qed.

(** C8: a tick posts a move message exactly when more than 60 ms have
    elapsed since [lastSend]; while no render intervenes, [lastSend] is the
    time of the previous move message and any time window of length [T]
    holds at most ceil(T / 60) + 1 move messages.  Every render starts a
    main loop whose [lastSend] is 0.  At the failing input, where a chat
    message and the render it causes come between the frames at 1000, 1016
    and 1032, each of the three frames posts a move message: three in a
    window of 32 ms, for which the bound is two. *)
Theorem C8_move_rate :
  (forall env tk sim lp st,
     (exists m, m ∈ (step env tk (sim, lp, st)).2 /\ isMove m = true)
       <-> SEND_RATE_MS < t_now tk - lastSend lp) /\
  (forall env evs s,
     oneLoop evs ->
     lastSend (run env evs s).1.1.2
       = List.last (moveTimes (run env evs s).2) (lastSend s.1.2)) /\
  (forall env evs s a T,
     oneLoop evs -> 0 <= T ->
     (Z.of_nat (countIn a T (moveTimes (run env evs s).2))
        <= Zceil (T / SEND_RATE_MS) + 1)%Z) /\
  (forall env rd s, lastSend (render env rd s).1.1.2 = 0) /\
  (let moves :=
     moveTimes
       (run (mkEnv "me" guest false false) chatty
          (mount "me" guest 0 1700000000000).1).2 in
   moves = [1000; 1016; 1032] /\
   countIn 1000 32 moves = 3%nat /\
   (Zceil (32 / SEND_RATE_MS) + 1 = 2)%Z).
Proof.
  split; [|split; [|split; [|split]]].
  - intros env tk sim lp st.
    pose proof (step_moves env tk sim lp st) as Hm. cbv zeta in Hm.
    rewrite <- gtb_spec. split.
    + intros (m & Hin & Hmv).
      destruct (gtb (t_now tk - lastSend lp) SEND_RATE_MS); [reflexivity|].
      assert (m ∈ List.filter isMove (step env tk (sim, lp, st)).2) as Hf.
      { apply list_elem_of_In, List.filter_In. split; [|exact Hmv].
        by apply list_elem_of_In. }
      rewrite Hm in Hf. by apply elem_of_nil in Hf.
    + intros E. rewrite E in Hm.
      assert (List.In (MsgMove (myId env)
                (vx (stepPos (tickDt (t_now tk) (last lp)) (pos sim)
                       (stepVel (tickDt (t_now tk) (last lp)) sim)))
                (vy (stepPos (tickDt (t_now tk) (last lp)) (pos sim)
                       (stepVel (tickDt (t_now tk) (last lp)) sim)))
                (getDirFromVel (stepVel (tickDt (t_now tk) (last lp)) sim)))
              (List.filter isMove (step env tk (sim, lp, st)).2)) as Hin.
      { rewrite Hm. by left. }
      apply List.filter_In in Hin as [Hin Hmv].
      eexists. split; [apply list_elem_of_In; exact Hin | exact Hmv].
  - intros env evs s Hone. by apply run_lastSend.
  - intros env evs s a T Hone HT. apply count_le_ceil.
    eapply spaced_count_window; [exact HT|]. by apply run_spaced.
  - intros env rd s. by rewrite render_loop.
  - cbv zeta. rewrite chatty_moves. split; [reflexivity|]. split.
    + unfold countIn, inWindow. simpl.
      rewrite !bool_decide_eq_true_2 by lra. reflexivity.
    + unfold SEND_RATE_MS.
      rewrite (Zceil_eq 1 (32 / 60)); [reflexivity|]. simpl. lra.
Qed.

(** Frames at 1000, 1016 and 1070 of one main loop started at 0: move
    messages at 1000 and 1070, two in the window of 70 ms from 1000. *)
Lemma C8_move_rate_witness :
  (Z.of_nat
     (countIn 1000 70
        (moveTimes
           (run (mkEnv "me" guest false false)
              [EvTick (mkTick 1000 1700000001000 None);
               EvTick (mkTick 1016 1700000001016 None);
               EvTick (mkTick 1070 1700000001070 None)]
              (mount "me" guest 0 1700000000000).1).2))
   <= Zceil (70 / SEND_RATE_MS) + 1)%Z /\
  countIn 1000 70
    (moveTimes
       (run (mkEnv "me" guest false false)
          [EvTick (mkTick 1000 1700000001000 None);
           EvTick (mkTick 1016 1700000001016 None);
           EvTick (mkTick 1070 1700000001070 None)]
          (mount "me" guest 0 1700000000000).1).2) = 2%nat.
Proof.
  split.
  - apply (proj1 (proj2 (proj2 C8_move_rate))); [simpl; tauto | lra].
  - rewrite !run_cons, !react_moves, !react_lastSend, mount_loop.
    unfold SEND_RATE_MS, countIn, inWindow. simpl. rbool.
    rewrite !bool_decide_eq_true_2 by lra. reflexivity.
Defined.

(** ** Remote display smoothing *)

Lemma remoteFactor_decay dt : remoteFactor dt = 1 - remoteDecay dt.
Proof. reflexivity. Qed.

Lemma remoteDecay_pos dt : 0 < remoteDecay dt.
Proof. unfold remoteDecay, Rpower. apply exp_pos. Qed.

Lemma ln_base_neg : ln (1 - LERP_REMOTE / 60) < 0.
Proof.
  unfold LERP_REMOTE. rewrite <- ln_1. apply ln_increasing; lra.
Qed.

Lemma remoteDecay_lt_1 dt : 0 < dt -> remoteDecay dt < 1.
Proof.
  intros Hdt. unfold remoteDecay, Rpower.
  apply Rlt_le_trans with (exp 0); [|rewrite exp_0; lra].
  apply exp_increasing. pose proof ln_base_neg. nra.
Qed.

Lemma remoteDecay_mono d1 d2 : d1 <= d2 -> remoteDecay d2 <= remoteDecay d1.
Proof.
  intros H. unfold remoteDecay, Rpower.
  destruct (Req_dec d1 d2) as [->|Hne]; [lra|].
  left. apply exp_increasing. pose proof ln_base_neg. nra.
Qed.

Lemma lerp_error d p dt :
  p - lerp d p (remoteFactor dt) = (p - d) * remoteDecay dt.
Proof. unfold lerp. rewrite remoteFactor_decay. ring. Qed.

Lemma lerp_toward d p dt :
  0 < dt -> toward d (lerp d p (remoteFactor dt)) p.
Proof.
  intros Hdt. pose proof (lerp_error d p dt) as He.
  pose proof (remoteDecay_pos dt). pose proof (remoteDecay_lt_1 dt Hdt).
  unfold toward. repeat split; intros; nra.
Qed.

Lemma smoothDisplay_lookup env dt ps disp id p :
  ps !! id = Some p ->
  smoothDisplay env dt ps disp !! id = Some (smoothEntry env dt disp id p).
Proof.
  intros H. unfold smoothDisplay.
  rewrite lookup_union, map_lookup_imap, H. simpl.
  by destruct (disp !! id).
Qed.

Lemma step_displayPos env tk sim lp st :
  displayPos (step env tk (sim, lp, st)).1.2 =
    smoothDisplay env (tickDt (t_now tk) (last lp))
      (participants (step env tk (sim, lp, st)).1.2) (displayPos st).
Proof.
  unfold step.
  destruct (throttleMove _ _ _ _ _) as [ls mv].
  destruct (throttleVoice _ _ _ _ _ _) as [[lv pv] vs]. reflexivity.
Qed.

Lemma step_last env tk sim lp st :
  last (step env tk (sim, lp, st)).1.1.2 = t_now tk.
Proof.
  unfold step.
  destruct (throttleMove _ _ _ _ _) as [ls mv].
  destruct (throttleVoice _ _ _ _ _ _) as [[lv pv] vs]. reflexivity.
Qed.

Lemma step_participants_remote env tk sim lp st id :
  id <> myId env ->
  participants (step env tk (sim, lp, st)).1.2 !! id = participants st !! id.
Proof.
  intros Hne. rewrite step_participants. cbv zeta.
  destruct (participants st !! myId env); [|reflexivity].
  by rewrite lookup_insert_ne.
Qed.

Lemma Vec2_eta (v : Vec2) : mkVec2 (vx v) (vy v) = v.
Proof. by destruct v. Qed.

(** One tick, for a remote participant. *)
Lemma step_remote env tk sim lp st id e :
  id <> myId env ->
  participants st !! id = Some e ->
  participants (step env tk (sim, lp, st)).1.2 !! id = Some e /\
  displayOf (step env tk (sim, lp, st)).1.2 id e =
    mkVec2
      (lerp (vx (displayOf st id e)) (p_x e)
         (remoteFactor (tickDt (t_now tk) (last lp))))
      (lerp (vy (displayOf st id e)) (p_y e)
         (remoteFactor (tickDt (t_now tk) (last lp)))).
Proof.
  intros Hne He.
  assert (participants (step env tk (sim, lp, st)).1.2 !! id = Some e) as He'.
  { by rewrite step_participants_remote. }
  split; [exact He'|].
  unfold displayOf at 1. rewrite step_displayPos.
  rewrite (smoothDisplay_lookup _ _ _ _ _ _ He'). simpl.
  unfold smoothEntry. by rewrite bool_decide_eq_false_2.
Qed.

(** One tick, for the local participant. *)
Lemma step_local_display env tk sim lp st e :
  participants st !! myId env = Some e ->
  displayPos (step env tk (sim, lp, st)).1.2 !! myId env
    = Some (pos (step env tk (sim, lp, st)).1.1.1).
Proof.
  intros He.
  pose proof (step_local_position env tk sim lp st e He) as Hp.
  unfold entryPos in Hp.
  destruct (participants (step env tk (sim, lp, st)).1.2 !! myId env)
    as [m|] eqn:Em; [|discriminate].
  rewrite step_displayPos, (smoothDisplay_lookup _ _ _ _ _ _ Em).
  unfold smoothEntry. rewrite bool_decide_eq_true_2 by reflexivity.
  change (Some (p_x m, p_y m) =
          Some (vx (pos (step env tk (sim, lp, st)).1.1.1),
                vy (pos (step env tk (sim, lp, st)).1.1.1))) in Hp.
  injection Hp as Hx Hy. rewrite Hx, Hy. f_equal. apply Vec2_eta.
Qed.

Lemma remoteDecay_plus d1 d2 :
  remoteDecay (d1 + d2) = remoteDecay d1 * remoteDecay d2.
Proof.
  unfold remoteDecay. rewrite <- Rpower_plus. f_equal. ring.
Qed.

Lemma remoteDecay_0 : remoteDecay 0 = 1.
Proof. unfold remoteDecay. rewrite Rmult_0_l. apply Rpower_O. unfold LERP_REMOTE. lra. Qed.

(** A run of ticks alone: what is left of the distance to the
    authoritative position depends on the clamped elapsed times added up,
    not on how many ticks they are. *)
Lemma run_ticks_remote env id e :
  id <> myId env ->
  forall tks s,
    participants s.2 !! id = Some e ->
    let s' := (run env (map EvTick tks) s).1 in
    participants s'.2 !! id = Some e /\
    p_x e - vx (displayOf s'.2 id e)
      = (p_x e - vx (displayOf s.2 id e)) * remoteDecay (elapsed (last s.1.2) tks) /\
    p_y e - vy (displayOf s'.2 id e)
      = (p_y e - vy (displayOf s.2 id e)) * remoteDecay (elapsed (last s.1.2) tks).
Proof.
  intros Hne. induction tks as [|tk tks IH]; intros [[sim lp] st] He.
  - simpl. rewrite remoteDecay_0. split; [exact He|]. split; ring.
  - simpl in He.
    destruct (step_remote env tk sim lp st id e Hne He) as [He1 Hd1].
    cbv zeta. change (map EvTick (tk :: tks)) with (EvTick tk :: map EvTick tks).
    rewrite run_cons_state.
    change (envAfter env (EvTick tk)) with env.
    change (react env (EvTick tk) (sim, lp, st)) with (step env tk (sim, lp, st)).
    specialize (IH (step env tk (sim, lp, st)).1).
    destruct (step env tk (sim, lp, st)) as [[[sim1 lp1] st1] out] eqn:Es.
    assert (last lp1 = t_now tk) as Hl.
    { pose proof (step_last env tk sim lp st) as H. by rewrite Es in H. }
    simpl in He1, Hd1, IH |- *. rewrite Hl in IH.
    destruct (IH He1) as (Hf & Hx & Hy).
    split; [exact Hf|].
    rewrite Hd1 in Hx, Hy. simpl in Hx, Hy.
    rewrite lerp_error in Hx, Hy.
    rewrite remoteDecay_plus, Hx, Hy. split; ring.
Qed.

(** The elapsed time after which what is left is the part [q]. *)
Lemma remoteDecay_reaches q :
  0 < q -> exists T, forall t, T <= t -> remoteDecay t <= q.
Proof.
  intros Hq. exists (ln q / (60 * ln (1 - LERP_REMOTE / 60))).
  intros t Ht. etransitivity; [apply (remoteDecay_mono _ _ Ht)|].
  unfold remoteDecay, Rpower. pose proof ln_base_neg as Hn.
  replace (ln q / (60 * ln (1 - LERP_REMOTE / 60)) * 60 * ln (1 - LERP_REMOTE / 60))
    with (ln q) by (field; lra).
  rewrite exp_ln by exact Hq. lra.
Qed.

(** C5 (as amended): for a remote participant whose authoritative position
    stays fixed, a tick with positive clamped elapsed time moves the
    display position strictly toward the authoritative position and never
    past it; over ticks without further messages, what is left of the
    distance is the factor (1 - 12/60)^(60 t) of it, [t] being the clamped
    elapsed times of the ticks added up in seconds, so the display
    position is within any given epsilon of the authoritative position
    once enough time has elapsed, however many ticks that takes; and the
    local participant's display position equals the simulated position
    after every tick. *)
Theorem C5_remote_interpolation :
  (forall env tk sim lp st id e,
     id <> myId env -> participants st !! id = Some e ->
     0 < tickDt (t_now tk) (last lp) ->
     let st' := (step env tk (sim, lp, st)).1.2 in
     participants st' !! id = Some e /\
     toward (vx (displayOf st id e)) (vx (displayOf st' id e)) (p_x e) /\
     toward (vy (displayOf st id e)) (vy (displayOf st' id e)) (p_y e)) /\
  (forall env id e tks s,
     id <> myId env -> participants s.2 !! id = Some e ->
     let st' := (run env (map EvTick tks) s).1.2 in
     participants st' !! id = Some e /\
     p_x e - vx (displayOf st' id e)
       = (p_x e - vx (displayOf s.2 id e))
         * Rpower (1 - LERP_REMOTE / 60) (elapsed (last s.1.2) tks * 60) /\
     p_y e - vy (displayOf st' id e)
       = (p_y e - vy (displayOf s.2 id e))
         * Rpower (1 - LERP_REMOTE / 60) (elapsed (last s.1.2) tks * 60)) /\
  (forall env id e eps s,
     id <> myId env -> participants s.2 !! id = Some e -> 0 < eps ->
     exists T, forall tks,
       T <= elapsed (last s.1.2) tks ->
       let st' := (run env (map EvTick tks) s).1.2 in
       participants st' !! id = Some e /\
       Rabs (vx (displayOf st' id e) - p_x e) < eps /\
       Rabs (vy (displayOf st' id e) - p_y e) < eps) /\
  (forall env tk sim lp st e,
     participants st !! myId env = Some e ->
     let s' := (step env tk (sim, lp, st)).1 in
     displayPos s'.2 !! myId env = Some (pos s'.1.1) /\
     entryPos s'.2 (myId env) = Some (vx (pos s'.1.1), vy (pos s'.1.1))).
Proof.
  split; [|split; [|split]].
  - intros env tk sim lp st id e Hne He Hdt st'. subst st'.
    destruct (step_remote env tk sim lp st id e Hne He) as [He' Hd].
    split; [exact He'|]. rewrite Hd. simpl.
    split; by apply lerp_toward.
  - intros env id e tks s Hne He. cbv zeta.
    exact (run_ticks_remote env id e Hne tks s He).
  - intros env id e eps s Hne He Heps.
    set (D := Rabs (p_x e - vx (displayOf s.2 id e))
              + Rabs (p_y e - vy (displayOf s.2 id e)) + 1).
    pose proof (Rabs_pos (p_x e - vx (displayOf s.2 id e))) as Hax.
    pose proof (Rabs_pos (p_y e - vy (displayOf s.2 id e))) as Hay.
    assert (0 < D) as HD by (unfold D; lra).
    destruct (remoteDecay_reaches (eps / D) ltac:(by apply Rdiv_lt_0_compat))
      as [T HT].
    exists T. intros tks Hel st'. subst st'.
    destruct (run_ticks_remote env id e Hne tks s He) as (Hf & Hx & Hy).
    split; [exact Hf|].
    specialize (HT _ Hel).
    pose proof (remoteDecay_pos (elapsed (last s.1.2) tks)) as Hpos.
    assert (D * remoteDecay (elapsed (last s.1.2) tks) <= eps) as Hb.
    { apply (Rmult_le_compat_l D) in HT; [|lra].
      replace (D * (eps / D)) with eps in HT by (field; lra). exact HT. }
    rewrite (Rabs_minus_sym (vx _)), (Rabs_minus_sym (vy _)), Hx, Hy.
    rewrite !Rabs_mult, !(Rabs_right (remoteDecay _)) by lra.
    split.
    + eapply Rlt_le_trans; [|exact Hb].
      apply Rmult_lt_compat_r; [exact Hpos | unfold D; lra].
    + eapply Rlt_le_trans; [|exact Hb].
      apply Rmult_lt_compat_r; [exact Hpos | unfold D; lra].
  - intros env tk sim lp st e He s'. subst s'. split.
    + by eapply step_local_display.
    + by eapply step_local_position.
Qed.

Lemma evenTicks_elapsed n : forall t, elapsed t (evenTicks t n) = INR n * 0.016.
Proof.
  induction n as [|n IH]; intros t; [simpl; lra|].
  rewrite S_INR. simpl. rewrite IH.
  unfold tickDt. rewrite Rmin_right by lra. lra.
Qed.

Lemma C5_remote_interpolation_witness :
  toward (vx (displayOf two_store "peer" peer_entry))
    (vx (displayOf (step me_env rest_tick (rest_sim, rest_loop, two_store)).1.2
           "peer" peer_entry))
    600 /\
  (exists N,
     Rabs (vx (displayOf
                 (run me_env (map EvTick (evenTicks 984 N))
                    (rest_sim, rest_loop, two_store)).1.2 "peer" peer_entry)
           - 600) < 1) /\
  displayPos (step me_env rest_tick (rest_sim, rest_loop, two_store)).1.2 !! "me"
    = Some (pos (step me_env rest_tick (rest_sim, rest_loop, two_store)).1.1.1).
Proof.
  destruct C5_remote_interpolation as (Htick & _ & Hconv & Hlocal).
  assert ("peer" <> myId me_env) as Hne by discriminate.
  assert (participants two_store !! "peer" = Some peer_entry) as Hpeer
    by apply lookup_insert_eq.
  assert (participants two_store !! myId me_env = Some me_left) as Hme.
  { unfold two_store. simpl. rewrite lookup_insert_ne by discriminate.
    apply lookup_singleton_eq. }
  split; [|split].
  - apply (Htick me_env rest_tick rest_sim rest_loop two_store "peer"
             peer_entry Hne Hpeer).
    unfold tickDt, rest_tick, rest_loop. simpl. apply Rmin_glb_lt; lra.
  - destruct (Hconv me_env "peer" peer_entry 1
                (rest_sim, rest_loop, two_store) Hne Hpeer ltac:(lra))
      as [T HT].
    destruct (archimed (T / 0.016)) as [Hup _].
    assert (exists N : nat, T / 0.016 <= INR N) as [N HN].
    { destruct (Z_lt_le_dec (up (T / 0.016)) 0) as [Hneg|Hnn].
      - exists O. apply IZR_lt in Hneg. simpl. lra.
      - exists (Z.to_nat (up (T / 0.016))).
        rewrite INR_IZR_INZ, Z2Nat.id by exact Hnn. lra. }
    exists N.
    apply (HT (evenTicks 984 N)).
    change (last (rest_sim, rest_loop, two_store).1.2) with 984.
    rewrite evenTicks_elapsed.
    apply (Rmult_le_compat_r 0.016) in HN; [|lra].
    replace (T / 0.016 * 0.016) with T in HN by (field; lra). exact HN.
  - apply (Hlocal me_env rest_tick rest_sim rest_loop two_store me_left Hme).
Defined.

Lemma burst_ticking gap n : 0 < gap -> forall t, ticking t (burst gap t n).
Proof.
  intros Hg. induction n as [|n IH]; intros t; [exact I|].
  simpl. split; [|apply IH].
  unfold tickDt. apply Rmin_glb_lt; lra.
Qed.

Lemma burst_length gap n t : length (burst gap t n) = n.
Proof. revert t. induction n as [|n IH]; intros t; simpl; by rewrite ?IH. Qed.

Lemma burst_elapsed gap n : forall t,
  elapsed t (burst gap t n) <= INR n * (gap / 1000).
Proof.
  induction n as [|n IH]; intros t; [simpl; lra|].
  rewrite S_INR. simpl. specialize (IH (t + gap)).
  pose proof (Rmin_r 0.05 ((t + gap - t) / 1000)) as Hm. unfold tickDt. lra.
Qed.

(** C5 fails as stated: no number of ticks is enough.  A peer drawn 100 to
    the left of its position is still more than 1 away after any number
    [N] of ticks with positive elapsed times, when these come within 16 ms
    altogether. *)
Lemma C5_counterexample :
  ~ (exists N : nat, forall tks,
       (N <= length tks)%nat -> ticking 984 tks ->
       Rabs (vx (displayOf
                   (run me_env (map EvTick tks)
                      (rest_sim, rest_loop, two_store)).1.2 "peer" peer_entry)
             - 600) < 1).
Proof.
  intros [N HN].
  assert ("peer" <> myId me_env) as Hne by discriminate.
  assert (participants two_store !! "peer" = Some peer_entry) as Hpeer
    by apply lookup_insert_eq.
  set (n := S N). set (gap := 16 / INR n).
  assert (0 < INR n) as Hn by (apply lt_0_INR; lia).
  assert (0 < gap) as Hgap by (by apply Rdiv_lt_0_compat; [lra|]).
  specialize (HN (burst gap 984 n)
                ltac:(rewrite burst_length; lia) (burst_ticking gap n Hgap 984)).
  destruct (run_ticks_remote me_env "peer" peer_entry Hne (burst gap 984 n)
              (rest_sim, rest_loop, two_store) Hpeer) as (_ & Hx & _).
  cbv zeta in Hx.
  change (last (rest_sim, rest_loop, two_store).1.2) with 984 in Hx.
  change (p_x peer_entry) with 600 in Hx.
  assert (vx (displayOf two_store "peer" peer_entry) = 500) as H500.
  { unfold displayOf, two_store. simpl. by rewrite lookup_singleton_eq. }
  cbn [snd] in Hx. rewrite H500 in Hx.
  pose proof (burst_elapsed gap n 984) as Hel.
  assert (INR n * (gap / 1000) = 0.016) as Htot.
  { unfold gap, Rdiv. rewrite (Rmult_comm 16), <- !Rmult_assoc, Rinv_r by lra.
    lra. }
  rewrite Htot in Hel.
  assert (remoteDecay (/ 60) <= remoteDecay (elapsed 984 (burst gap 984 n)))
    as Hlow by (apply remoteDecay_mono; lra).
  assert (remoteDecay (/ 60) = 0.8) as H08.
  { unfold remoteDecay, LERP_REMOTE.
    replace (/ 60 * 60) with 1 by lra. rewrite Rpower_1 by lra. lra. }
  rewrite H08 in Hlow.
  rewrite Rabs_minus_sym, Hx in HN.
  rewrite Rabs_right in HN by nra. nra.
Qed.

(** ** Delivery under throwing handlers *)

Section Delivery.
Context {W : Type}.
Implicit Types (w : W) (m : BroadcastMessage).

Lemma deliver_cons m (fn : Handler W) rest w :
  calls (deliver (fn :: rest) m w)
    = fn :: calls (deliver rest m (worldAfter (fn m w))) /\
  value (deliver (fn :: rest) m w)
    = value (deliver rest m (worldAfter (fn m w))).
Proof.
  unfold deliver. simpl. unfold bind, tryCatch, call.
  destruct (fn m w) as [w'|w']; by split.
Qed.

(** The guarded loop calls every handler of the snapshot, once each and
    in order, and no exception leaves it. *)
Lemma deliver_calls m : forall (snapshot : list (Handler W)) w,
  calls (deliver snapshot m w) = snapshot /\
  value (deliver snapshot m w) = Some tt.
Proof.
  induction snapshot as [|fn rest IH]; intros w; [by split|].
  destruct (deliver_cons m fn rest w) as [Hc Hv]. rewrite Hc, Hv.
  destruct (IH (worldAfter (fn m w))) as [Hc' Hv']. by rewrite Hc', Hv'.
Qed.

(** The guarded loop runs every handler of the snapshot: the world it
    leaves is the one all of them have acted on. *)
Lemma deliver_world m : forall (snapshot : list (Handler W)) w,
  world (deliver snapshot m w) = runAll snapshot m w.
Proof.
  induction snapshot as [|fn rest IH]; intros w; [reflexivity|].
  change (runAll (fn :: rest) m w) with (runAll rest m (worldAfter (fn m w))).
  rewrite <- (IH (worldAfter (fn m w))).
  unfold deliver. simpl. unfold bind, tryCatch, call.
  by destruct (fn m w) as [w'|w'].
Qed.

(** Without the guard, a throwing handler ends the loop: the handlers
    after it are not called, and the world stays as the throwing handler
    left it. *)
Lemma deliverUnguarded_stops m (fn : Handler W) rest w w' :
  fn m w = Threw w' ->
  calls (deliverUnguarded (fn :: rest) m w) = [fn] /\
  world (deliverUnguarded (fn :: rest) m w) = w' /\
  value (deliverUnguarded (fn :: rest) m w) = None.
Proof.
  intros H. unfold deliverUnguarded. simpl. unfold bind, call.
  rewrite H. by repeat split.
Qed.
End Delivery.

(** C10: in each of the three transports, once a message reaches the
    delivery loop, every handler of the snapshot of the handler set taken
    at that moment is run on it, once and in order, each in the world the
    one before left behind, whichever of them throw or change the handler
    set: the world after the delivery is the one all of them have acted
    on, and no exception leaves the loop.  The storage listener then
    removes the item.  Without the guard the handlers after a throwing one
    would not run. *)
Theorem C10_guarded_delivery :
  forall (W : Type) (handlers : W -> list (Handler W))
         (bcHandlers : W -> gmap string (list (Handler W)))
         (JSON_parse : string -> option BroadcastMessage)
         (removeItem : string -> W -> W)
         (m : BroadcastMessage) (w : W),
    (calls (supabaseOnBroadcast handlers m w) = handlers w /\
     world (supabaseOnBroadcast handlers m w) = runAll (handlers w) m w /\
     value (supabaseOnBroadcast handlers m w) = Some tt) /\
    (forall key set,
       bcHandlers w !! key = Some set ->
       calls (broadcastOnMessage bcHandlers key m w) = set /\
       world (broadcastOnMessage bcHandlers key m w) = runAll set m w /\
       value (broadcastOnMessage bcHandlers key m w) = Some tt) /\
    (forall key k v,
       k <> "" -> v <> "" ->
       String.prefix (localStoragePrefix key) k = true ->
       JSON_parse v = Some m ->
       let e := mkStorageEvent (Some k) (Some v) in
       calls (onStorage handlers JSON_parse removeItem key e w) = handlers w /\
       world (onStorage handlers JSON_parse removeItem key e w)
         = removeItem k (runAll (handlers w) m w) /\
       value (onStorage handlers JSON_parse removeItem key e w) = Some tt) /\
    (forall before fn after,
       world (deliver (before ++ fn :: after) m w)
         = runAll after m (worldAfter (fn m (runAll before m w)))) /\
    (forall fn rest w',
       fn m w = Threw w' ->
       world (deliver (fn :: rest) m w) = runAll rest m w' /\
       calls (deliver (fn :: rest) m w) = fn :: rest /\
       world (deliverUnguarded (fn :: rest) m w) = w' /\
       calls (deliverUnguarded (fn :: rest) m w) = [fn]).
Proof.
  intros W handlers bcHandlers JSON_parse removeItem m w.
  split; [|split; [|split; [|split]]].
  - unfold supabaseOnBroadcast.
    destruct (deliver_calls m (handlers w) w) as [Hc Hv].
    split; [exact Hc|]. split; [apply deliver_world | exact Hv].
  - intros key set Hset. unfold broadcastOnMessage. rewrite Hset.
    destruct (deliver_calls m set w) as [Hc Hv].
    split; [exact Hc|]. split; [apply deliver_world | exact Hv].
  - intros key k v Hk Hv Hpre Hparse e. subst e.
    unfold onStorage, truthy. simpl.
    rewrite !bool_decide_eq_false_2 by assumption.
    rewrite Hpre, Hparse. unfold tryCatch, bind. simpl.
    destruct (deliver_calls m (handlers w) w) as [Hc Hval].
    rewrite Hval. simpl. rewrite Hc, app_nil_r, deliver_world. by repeat split.
  - intros before fn after. rewrite deliver_world. unfold runAll.
    by rewrite fold_left_app.
  - intros fn rest w' Hthrow.
    destruct (deliverUnguarded_stops m fn rest w w' Hthrow) as (Hc & Hw & _).
    split; [|split; [|split]].
    + rewrite deliver_world. unfold runAll. simpl. by rewrite Hthrow.
    + apply deliver_calls.
    + exact Hw.
    + exact Hc.
Qed.

Example deliver_runs :
  world (deliver [logA; boom; logC] (MsgLeave "peer") []) = ["a"; "c"] /\
  world (deliverUnguarded [logA; boom; logC] (MsgLeave "peer") []) = ["a"].
Proof. split; reflexivity. Qed.

(** Three subscribers, the second of which throws: the third still sees
    the message, on each transport. *)
Lemma C10_guarded_delivery_witness :
  world (broadcastOnMessage demoBcHandlers "vm_room_demo" (MsgLeave "peer") [])
    = ["a"; "c"] /\
  calls (broadcastOnMessage demoBcHandlers "vm_room_demo" (MsgLeave "peer") [])
    = [logA; boom; logC] /\
  world (onStorage demoHandlers demoParse demoRemove "vm_room_demo"
           (mkStorageEvent (Some "vm_room_demo_ls_1700000000000_9f3a")
              (Some "leave peer")) [])
    = ["a"; "c"] /\
  world (deliver [boom; logC] (MsgLeave "peer") []) = ["c"] /\
  world (deliverUnguarded [boom; logC] (MsgLeave "peer") []) = [].
Proof.
  destruct (C10_guarded_delivery (list string) demoHandlers demoBcHandlers
              demoParse demoRemove (MsgLeave "peer") [])
    as (_ & Hbc & Hls & _ & Hthrow).
  destruct (Hbc "vm_room_demo" [logA; boom; logC]
              ltac:(apply lookup_singleton_eq)) as (Hc & Hw & _).
  destruct (Hls "vm_room_demo" "vm_room_demo_ls_1700000000000_9f3a" "leave peer"
              ltac:(discriminate) ltac:(discriminate) eq_refl eq_refl)
    as (_ & Hw' & _).
  destruct (Hthrow boom [logC] [] eq_refl) as (Hg & _ & Hu & _).
  split; [exact Hw|]. split; [exact Hc|]. split; [exact Hw'|].
  split; [exact Hg | exact Hu].
Defined.

(** ** Sample runs *)

(** The handshake: a peer with an empty store receives a join from a
    participant at (512, 320), records exactly that participant and
    replies with its own state. *)
Example join_handshake :
  onMsg me_env rest_sim 1700000000000
    (MsgJoin (mkSnapshot "peer" guest 512 320 DirDown false (Some false) (Some 0)))
    (mkStore ∅ ∅ [] false [] [])
  = (mkStore
       {[ "peer" := mkParticipant "peer" guest 512 320 DirDown false
                      (Some false) (Some 0) 1700000000000 ]}
       ∅ [] false [] [],
     [MsgState (mkSnapshot "me" guest 512 320
                  (getDirFromVel (mkVec2 0 0)) false (Some false) (Some 0))]).
Proof. reflexivity. Qed.

(** Frames at 1000, 1016 and 1070 ms after a move sent at 960 ms: only the
    third one is more than 60 ms later. *)
Example three_frames_one_move :
  moveTimes
    (run me_env
       [EvTick (mkTick 1000 1700000000000 None);
        EvTick (mkTick 1016 1700000000016 None);
        EvTick (mkTick 1070 1700000000070 None)]
       (rest_sim, rest_loop, rest_store)).2
  = [1070].
Proof.
  rewrite !run_cons, !react_moves, !react_lastSend.
  unfold SEND_RATE_MS, rest_loop. simpl. rbool. reflexivity.
Qed.

(** * Further properties of the component *)

(** ** [clamp] *)

Lemma clamp_below v lo hi : lo <= hi -> v < lo -> clamp v lo hi = lo.
Proof.
  intros Hb H. unfold clamp. rewrite (Rmin_right hi v) by lra.
  apply Rmax_left. lra.
Qed.

Lemma clamp_above v lo hi : lo <= hi -> hi < v -> clamp v lo hi = hi.
Proof.
  intros Hb H. unfold clamp. rewrite (Rmin_left hi v) by lra.
  apply Rmax_right. lra.
Qed.

(** X1: with [lo <= hi], [clamp] returns [lo] below the interval, its
    argument inside it and [hi] above it, so its result always lies in the
    interval; with the bounds swapped it returns [lo]. *)
Theorem clamp_cases v lo hi :
  (lo <= hi ->
     (v < lo -> clamp v lo hi = lo) /\
     (lo <= v <= hi -> clamp v lo hi = v) /\
     (hi < v -> clamp v lo hi = hi) /\
     lo <= clamp v lo hi <= hi /\
     clamp (clamp v lo hi) lo hi = clamp v lo hi) /\
  (hi < lo -> clamp v lo hi = lo).
Proof.
  split.
  - intros Hb. repeat split.
    + intros H. by apply clamp_below.
    + intros H. by apply clamp_inside.
    + intros H. by apply clamp_above.
    + apply clamp_bounds, Hb.
    + apply clamp_bounds, Hb.
    + apply clamp_inside, clamp_bounds, Hb.
  - intros H. unfold clamp. apply Rmax_left.
    pose proof (Rmin_l hi v). lra.
Qed.

Lemma clamp_cases_witness :
  clamp (-7) 0 1 = 0 /\ clamp 0.4 0 1 = 0.4 /\ clamp 3 0 1 = 1 /\
  clamp 0.4 1 0 = 1.
Proof.
  destruct (proj1 (clamp_cases (-7) 0 1) ltac:(lra)) as (H1 & _).
  destruct (proj1 (clamp_cases 0.4 0 1) ltac:(lra)) as (_ & H2 & _).
  destruct (proj1 (clamp_cases 3 0 1) ltac:(lra)) as (_ & _ & H3 & _).
  repeat split.
  - apply H1. lra.
  - apply H2. lra.
  - apply H3. lra.
  - apply (proj2 (clamp_cases 0.4 1 0)). lra.
Defined.

(** ** [getDirFromVel] *)

(** X2: the facing direction is horizontal exactly when the horizontal
    component is strictly larger in magnitude, and then follows its sign;
    otherwise (ties included) it is vertical, up exactly when the vertical
    component is negative. *)
Theorem getDirFromVel_cases v :
  (getDirFromVel v = DirRight <-> Rabs (vy v) < Rabs (vx v) /\ 0 < vx v) /\
  (getDirFromVel v = DirLeft <-> Rabs (vy v) < Rabs (vx v) /\ vx v < 0) /\
  (getDirFromVel v = DirUp <-> Rabs (vx v) <= Rabs (vy v) /\ vy v < 0) /\
  (getDirFromVel v = DirDown <-> Rabs (vx v) <= Rabs (vy v) /\ 0 <= vy v).
Proof.
  unfold getDirFromVel, gtb, geb. cbv zeta.
  pose proof (Rabs_pos (vx v)) as Hx. pose proof (Rabs_pos (vy v)) as Hy.
  assert (vx v = 0 -> Rabs (vx v) = 0) as Hx0 by (intros ->; apply Rabs_R0).
  assert (vy v < 0 -> 0 < Rabs (vy v)) as Hyn
    by (intros H; rewrite Rabs_left; lra).
  assert (0 < vy v -> 0 < Rabs (vy v)) as Hyp
    by (intros H; rewrite Rabs_right; lra).
  assert (vy v = 0 -> Rabs (vy v) = 0) as Hy0 by (intros ->; apply Rabs_R0).
  repeat case_bool_decide; repeat split;
    try (intros [? ?]); try (intros ?); try discriminate; try reflexivity;
    try lra;
    try (destruct (Rtotal_order (vy v) 0) as [?|[?|?]];
         [specialize (Hyn ltac:(assumption)) | specialize (Hy0 ltac:(assumption))
         | specialize (Hyp ltac:(assumption))]; lra).
Qed.

(** ** [getDesiredVelocity] *)

Lemma hypot_sqr a b : Math_hypot a b * Math_hypot a b = a * a + b * b.
Proof. unfold Math_hypot. apply sqrt_sqrt. nra. Qed.

Lemma hypot_nonneg a b : 0 <= Math_hypot a b.
Proof. unfold Math_hypot. apply sqrt_pos. Qed.

Lemma hypot_zero a b : Math_hypot a b = 0 -> a = 0 /\ b = 0.
Proof.
  intros H. pose proof (hypot_sqr a b) as Hs. rewrite H in Hs. nra.
Qed.

(** A vector scaled to length [s]. *)
Lemma hypot_normalised a b h s :
  h = Math_hypot a b -> 0 < h -> 0 <= s ->
  Math_hypot (a / h * s) (b / h * s) = s /\
  Rabs (a / h * s) <= s /\ Rabs (b / h * s) <= s.
Proof.
  intros Hh Hpos Hs. pose proof (hypot_sqr a b) as Hq. rewrite <- Hh in Hq.
  assert (a / h * s * (a / h * s) + b / h * s * (b / h * s) = s * s) as Hsum.
  { replace (a / h * s * (a / h * s) + b / h * s * (b / h * s))
      with ((a * a + b * b) / (h * h) * (s * s)) by (field; lra).
    rewrite <- Hq. field. lra. }
  split; [|split].
  - unfold Math_hypot. rewrite Hsum. apply sqrt_square, Hs.
  - apply Rabs_le. split; nra.
  - apply Rabs_le. split; nra.
Qed.

Lemma getDesiredVelocity_keyVector dt p keys tg :
  getDesiredVelocity dt p keys tg =
    let k := keyVector keys in
    if neqb (vx k) 0 || neqb (vy k) 0 then
      let h := Math_hypot (vx k) (vy k) in
      let mag := if neqb h 0 then h else 1 in
      mkVec2 ((vx k / mag) * BASE_SPEED) ((vy k / mag) * BASE_SPEED)
    else
      match tg with
      | Some t =>
          let dx := vx t - vx p in
          let dy := vy t - vy p in
          let dist := Math_hypot dx dy in
          if gtb dist 1 then
            mkVec2 ((dx / dist) * BASE_SPEED) ((dy / dist) * BASE_SPEED)
          else mkVec2 0 0
      | None => mkVec2 0 0
      end.
Proof. reflexivity. Qed.

Lemma neqb_true a b : neqb a b = true <-> a <> b.
Proof.
  unfold neqb. rewrite negb_true_iff, bool_decide_eq_false. tauto.
Qed.

Lemma neqb_false a b : neqb a b = false <-> a = b.
Proof.
  unfold neqb. rewrite negb_false_iff, bool_decide_eq_true. tauto.
Qed.

Lemma desired_zero_or_base dt p keys tg :
  let d := getDesiredVelocity dt p keys tg in
  (d = mkVec2 0 0 \/ Math_hypot (vx d) (vy d) = BASE_SPEED) /\
  speedBounded d.
Proof.
  cbv zeta. rewrite getDesiredVelocity_keyVector. cbv zeta.
  assert (0 <= BASE_SPEED) as Hs by (unfold BASE_SPEED; lra).
  assert (speedBounded (mkVec2 0 0)) as Hz.
  { unfold speedBounded. simpl. rewrite Rabs_R0. lra. }
  destruct (neqb (vx (keyVector keys)) 0 || neqb (vy (keyVector keys)) 0) eqn:E.
  - set (k := keyVector keys) in *.
    assert (Math_hypot (vx k) (vy k) <> 0) as Hh.
    { intros H0. apply hypot_zero in H0 as [Hx Hy].
      apply orb_true_iff in E as [E|E]; apply neqb_true in E; tauto. }
    rewrite (proj2 (neqb_true _ _) Hh).
    pose proof (hypot_nonneg (vx k) (vy k)).
    destruct (hypot_normalised (vx k) (vy k) (Math_hypot (vx k) (vy k))
                BASE_SPEED eq_refl ltac:(lra) Hs) as (H1 & H2 & H3).
    split; [right; exact H1 | split; assumption].
  - destruct tg as [t|]; [|split; [by left | exact Hz]].
    cbv zeta. destruct (gtb _ 1) eqn:G; [|split; [by left | exact Hz]].
    apply gtb_spec in G.
    destruct (hypot_normalised (vx t - vx p) (vy t - vy p) _ BASE_SPEED
                eq_refl ltac:(lra) Hs) as (H1 & H2 & H3).
    split; [right; exact H1 | split; assumption].
Qed.

(** X3: the desired velocity is either zero or has exactly the base speed,
    whatever the keys, the target and the position; in particular neither
    of its components exceeds the base speed. *)
Theorem getDesiredVelocity_speed dt p keys tg :
  let d := getDesiredVelocity dt p keys tg in
  (d = mkVec2 0 0 \/ Math_hypot (vx d) (vy d) = BASE_SPEED) /\
  Rabs (vx d) <= BASE_SPEED /\ Rabs (vy d) <= BASE_SPEED.
Proof. exact (desired_zero_or_base dt p keys tg). Qed.

Lemma keyVector_cases keys :
  (vx (keyVector keys) = -1 \/ vx (keyVector keys) = 0 \/ vx (keyVector keys) = 1) /\
  (vy (keyVector keys) = -1 \/ vy (keyVector keys) = 0 \/ vy (keyVector keys) = 1).
Proof.
  unfold keyVector. cbv zeta. simpl.
  split.
  - destruct (hasKey keys "arrowleft" || hasKey keys "a"),
      (hasKey keys "arrowright" || hasKey keys "d"); lra.
  - destruct (hasKey keys "arrowup" || hasKey keys "w"),
      (hasKey keys "arrowdown" || hasKey keys "s"); lra.
Qed.

(** X4: directional input takes precedence over a pending target: when
    the pressed keys ask for a direction, the desired velocity depends on
    neither the target nor the position.  Opposite keys cancel.  When the
    keys ask for no direction, the desired velocity is zero without a
    target or within one pixel of it, and otherwise a positive multiple of
    the vector from the position to the target. *)
Theorem getDesiredVelocity_precedence keys :
  (keyVector keys <> mkVec2 0 0 ->
     forall dt dt' p p' tg tg',
       getDesiredVelocity dt p keys tg = getDesiredVelocity dt' p' keys tg') /\
  (("arrowup" ∈ keys \/ "w" ∈ keys) -> ("arrowdown" ∈ keys \/ "s" ∈ keys) ->
     vy (keyVector keys) = 0) /\
  (("arrowleft" ∈ keys \/ "a" ∈ keys) -> ("arrowright" ∈ keys \/ "d" ∈ keys) ->
     vx (keyVector keys) = 0) /\
  (keyVector keys = mkVec2 0 0 ->
     forall dt p,
       getDesiredVelocity dt p keys None = mkVec2 0 0 /\
       forall t,
         (Math_hypot (vx t - vx p) (vy t - vy p) <= 1 ->
            getDesiredVelocity dt p keys (Some t) = mkVec2 0 0) /\
         (1 < Math_hypot (vx t - vx p) (vy t - vy p) ->
            exists k, 0 < k /\
              vx (getDesiredVelocity dt p keys (Some t)) = k * (vx t - vx p) /\
              vy (getDesiredVelocity dt p keys (Some t)) = k * (vy t - vy p))).
Proof.
  split; [|split; [|split]].
  - intros Hk dt dt' p p' tg tg'. rewrite !getDesiredVelocity_keyVector.
    cbv zeta.
    assert (neqb (vx (keyVector keys)) 0 || neqb (vy (keyVector keys)) 0 = true)
      as ->; [|reflexivity].
    destruct (neqb (vx (keyVector keys)) 0) eqn:Ex; [reflexivity|].
    destruct (neqb (vy (keyVector keys)) 0) eqn:Ey; [reflexivity|].
    apply neqb_false in Ex, Ey. destruct (keyVector keys) as [a b].
    simpl in Ex, Ey. subst. by destruct Hk.
  - intros Hu Hd. unfold keyVector, hasKey. cbv zeta. simpl.
    assert (bool_decide ("arrowup" ∈ keys) || bool_decide ("w" ∈ keys) = true)
      as -> by (apply orb_true_iff; destruct Hu; [left|right];
                by apply bool_decide_eq_true).
    assert (bool_decide ("arrowdown" ∈ keys) || bool_decide ("s" ∈ keys) = true)
      as -> by (apply orb_true_iff; destruct Hd; [left|right];
                by apply bool_decide_eq_true).
    lra.
  - intros Hl Hr. unfold keyVector, hasKey. cbv zeta. simpl.
    assert (bool_decide ("arrowleft" ∈ keys) || bool_decide ("a" ∈ keys) = true)
      as -> by (apply orb_true_iff; destruct Hl; [left|right];
                by apply bool_decide_eq_true).
    assert (bool_decide ("arrowright" ∈ keys) || bool_decide ("d" ∈ keys) = true)
      as -> by (apply orb_true_iff; destruct Hr; [left|right];
                by apply bool_decide_eq_true).
    lra.
  - intros Hk dt p.
    assert (forall tg, getDesiredVelocity dt p keys tg =
              match tg with
              | Some t =>
                  if gtb (Math_hypot (vx t - vx p) (vy t - vy p)) 1 then
                    mkVec2
                      ((vx t - vx p) / Math_hypot (vx t - vx p) (vy t - vy p)
                       * BASE_SPEED)
                      ((vy t - vy p) / Math_hypot (vx t - vx p) (vy t - vy p)
                       * BASE_SPEED)
                  else mkVec2 0 0
              | None => mkVec2 0 0
              end) as Hg.
    { intros tg. rewrite getDesiredVelocity_keyVector. cbv zeta. rewrite Hk.
      simpl. rewrite (proj2 (neqb_false 0 0) eq_refl). reflexivity. }
    split; [apply (Hg None)|]. intros t. rewrite (Hg (Some t)). split.
    + intros Hle. by rewrite (proj2 (gtb_false _ _) Hle).
    + intros Hlt. rewrite (proj2 (gtb_spec _ _) Hlt). simpl.
      exists (BASE_SPEED / Math_hypot (vx t - vx p) (vy t - vy p)).
      split; [apply Rdiv_lt_0_compat; unfold BASE_SPEED; lra|].
      split; field; lra.
Qed.

Lemma getDesiredVelocity_precedence_witness :
  getDesiredVelocity 0.016 (mkVec2 512 320) {[ "w" ]} (Some (mkVec2 100 100))
    = getDesiredVelocity 0.05 (mkVec2 40 40) {[ "w" ]} None /\
  vy (keyVector {[ "w"; "s" ]}) = 0 /\
  getDesiredVelocity 0.016 (mkVec2 512 320) ∅ None = mkVec2 0 0.
Proof.
  split; [|split].
  - apply (proj1 (getDesiredVelocity_precedence {[ "w" ]})).
    unfold keyVector, hasKey. cbv zeta.
    rewrite (bool_decide_eq_true_2 ("w" ∈ ({[ "w" ]} : gset string)))
      by set_solver.
    rewrite !bool_decide_eq_false_2 by set_solver. simpl.
    intros H. injection H as H. lra.
  - apply (proj1 (proj2 (getDesiredVelocity_precedence {[ "w"; "s" ]})));
      right; set_solver.
  - apply (proj2 (proj2 (proj2 (getDesiredVelocity_precedence ∅)))).
    unfold keyVector, hasKey. cbv zeta.
    rewrite !bool_decide_eq_false_2 by set_solver. reflexivity.
Defined.

(** ** Motion of the local participant *)

Lemma tickDt_le now lst : tickDt now lst <= 0.05.
Proof. unfold tickDt. apply Rmin_l. Qed.

Lemma tickDt_nonneg now lst : lst <= now -> 0 <= tickDt now lst.
Proof. intros H. unfold tickDt. apply Rmin_glb; lra. Qed.

Lemma tickDt_slow now lst : 50 <= now - lst -> tickDt now lst = 0.05.
Proof. intros H. unfold tickDt. apply Rmin_left. lra. Qed.

Lemma step_pos env tk sim lp st :
  pos (step env tk (sim, lp, st)).1.1.1 =
    stepPos (tickDt (t_now tk) (last lp)) (pos sim)
      (stepVel (tickDt (t_now tk) (last lp)) sim).
Proof.
  unfold step.
  destruct (throttleMove _ _ _ _ _) as [ls mv].
  destruct (throttleVoice _ _ _ _ _ _) as [[lv pv] vs]. reflexivity.
Qed.

Lemma stepPos_inBounds dt p v : inBounds (stepPos dt p v).
Proof.
  unfold inBounds, stepPos, TILE, WORLD_W, WORLD_H. simpl.
  split; apply clamp_bounds; lra.
Qed.

(** The smoothed value lies between the current one and the target. *)
Lemma smoothApproach_between c t g dt :
  0 <= g * dt ->
  Rmin c t <= smoothApproach c t g dt <= Rmax c t.
Proof.
  intros H. unfold smoothApproach. cbv zeta.
  assert (0 < exp (- g * dt) <= 1) as [He1 He2].
  { split; [apply exp_pos|]. rewrite <- exp_0 at 1.
    destruct (Req_dec (g * dt) 0) as [E|E].
    - replace (- g * dt) with 0 by lra. lra.
    - left. apply exp_increasing. lra. }
  pose proof (Rmin_l c t). pose proof (Rmin_r c t).
  pose proof (Rmax_l c t). pose proof (Rmax_r c t).
  split; nra.
Qed.

Lemma Rabs_le_between a b : Rabs a <= b -> - b <= a <= b.
Proof.
  intros H. pose proof (Rle_abs a). pose proof (Rle_abs (- a)) as Hn.
  rewrite Rabs_Ropp in Hn. lra.
Qed.

Lemma smoothApproach_abs c t g dt b :
  0 <= g * dt -> Rabs c <= b -> Rabs t <= b ->
  Rabs (smoothApproach c t g dt) <= b.
Proof.
  intros H Hc Ht. pose proof (smoothApproach_between c t g dt H) as [Hlo Hhi].
  apply Rabs_le_between in Hc, Ht. apply Rabs_le.
  pose proof (Rmin_glb c t (- b) ltac:(lra) ltac:(lra)).
  pose proof (Rmax_lub c t b ltac:(lra) ltac:(lra)). lra.
Qed.

Lemma axisGain_pos d : 0 < axisGain d.
Proof. unfold axisGain, DECEL, ACCEL. destruct (bool_decide (d = 0)); lra. Qed.

Lemma stepVel_bounded dt sim :
  0 <= dt -> speedBounded (vel sim) -> speedBounded (stepVel dt sim).
Proof.
  intros Hdt [Hx Hy].
  destruct (desired_zero_or_base dt (pos sim) (keys sim) (target sim))
    as [_ [Hdx Hdy]].
  unfold speedBounded, stepVel. simpl.
  split; apply smoothApproach_abs; try assumption;
    match goal with |- 0 <= axisGain ?d * _ =>
      pose proof (axisGain_pos d); nra end.
Qed.

Lemma clamp_step x d lo hi :
  lo <= x <= hi -> Rabs (clamp (x + d) lo hi - x) <= Rabs d.
Proof.
  intros Hx. assert (lo <= hi) as Hb by lra.
  pose proof (clamp_bounds (x + d) lo hi Hb) as Hc.
  destruct (Rlt_le_dec (x + d) lo) as [L|L].
  - rewrite (clamp_below _ _ _ Hb L). rewrite Rabs_left1 by lra.
    apply Rle_trans with (- d); [lra|]. rewrite <- Rabs_Ropp. apply Rle_abs.
  - destruct (Rlt_le_dec hi (x + d)) as [U|U].
    + rewrite (clamp_above _ _ _ Hb U). rewrite Rabs_right by lra.
      apply Rle_trans with d; [lra | apply Rle_abs].
    + rewrite (clamp_inside (x + d) lo hi) by lra.
      replace (x + d - x) with d by ring. lra.
Qed.

(** X5: after every tick the simulated position lies in the world inset
    by half a tile, whatever the velocity and the elapsed time; the local
    entry stores that position and the move message, when one is posted,
    carries it. *)
Theorem step_position_in_bounds env tk sim lp st :
  let s' := (step env tk (sim, lp, st)).1 in
  inBounds (pos s'.1.1) /\
  (forall e, participants st !! myId env = Some e ->
     entryPos s'.2 (myId env) = Some (vx (pos s'.1.1), vy (pos s'.1.1))) /\
  (forall id x y d,
     MsgMove id x y d ∈ (step env tk (sim, lp, st)).2 ->
     id = myId env /\ x = vx (pos s'.1.1) /\ y = vy (pos s'.1.1) /\
     d = getDirFromVel (vel s'.1.1) /\ inBounds (mkVec2 x y)).
Proof.
  cbv zeta. split; [|split].
  - rewrite step_pos. apply stepPos_inBounds.
  - intros e He. by eapply step_local_position.
  - intros id x y d Hin.
    assert (MsgMove id x y d ∈ List.filter isMove (step env tk (sim, lp, st)).2)
      as Hf.
    { apply list_elem_of_In, List.filter_In. split; [|reflexivity].
      by apply list_elem_of_In. }
    rewrite step_moves in Hf. cbv zeta in Hf.
    rewrite step_pos, step_vel.
    destruct (gtb _ SEND_RATE_MS); [|by apply elem_of_nil in Hf].
    apply list_elem_of_singleton in Hf. injection Hf as -> -> -> ->.
    repeat split; try reflexivity;
      apply (stepPos_inBounds _ (pos sim)
               (stepVel (tickDt (t_now tk) (last lp)) sim)).
Qed.

Lemma step_position_in_bounds_witness :
  entryPos (step me_env rest_tick (rest_sim, rest_loop, rest_store)).1.2 "me"
    = Some (vx (pos (step me_env rest_tick
                       (rest_sim, rest_loop, rest_store)).1.1.1),
            vy (pos (step me_env rest_tick
                       (rest_sim, rest_loop, rest_store)).1.1.1)).
Proof.
  apply (proj1 (proj2 (step_position_in_bounds me_env rest_tick rest_sim
                         rest_loop rest_store)) me_left).
  apply lookup_singleton_eq.
Defined.

Lemma step_target env tk sim lp st :
  target (step env tk (sim, lp, st)).1.1.1 =
    stepTarget (pos (step env tk (sim, lp, st)).1.1.1) (target sim).
Proof.
  unfold step.
  destruct (throttleMove _ _ _ _ _) as [ls mv].
  destruct (throttleVoice _ _ _ _ _ _) as [[lv pv] vs]. reflexivity.
Qed.

Lemma react_msg_sim env now m s :
  (react env (EvMsg now m) s).1.1 = s.1.
Proof. by destruct s as [[sim lp] st]. Qed.

(** An invariant of ticks (under a clock that does not go back), of
    message handling and of the effects holds along every run. *)
Lemma run_invariant (P : Sim * Loop * Store -> Prop) :
  (forall env tk s, last s.1.2 <= t_now tk -> P s -> P (step env tk s).1) ->
  (forall env now m s, P s -> P (react env (EvMsg now m) s).1) ->
  (forall env rd s, P s -> P (render env rd s).1) ->
  (forall env s, P s -> P (react env EvMicReady s).1) ->
  forall evs env s, clockMonotone (last s.1.2) evs -> P s -> P (run env evs s).1.
Proof.
  intros Htick Hmsg Hrender Hmic.
  induction evs as [|ev evs IH]; intros env s Hc Hs; [exact Hs|].
  rewrite run_cons_state. destruct ev as [tk|now m|rd|].
  - destruct Hc as [Hle Hc].
    change (react env (EvTick tk) s) with (step env tk s). apply IH.
    + destruct s as [[sim lp] st]. by rewrite step_last.
    + by apply Htick.
  - apply IH; [|by apply Hmsg].
    simpl in Hc. by rewrite react_msg_sim.
  - change (react env (EvRender rd) s) with (render env rd s).
    apply IH; [|by apply Hrender].
    simpl in Hc. by rewrite render_loop.
  - apply IH; [|by apply Hmic].
    simpl in Hc. by rewrite react_micReady_sim.
Qed.

(** X6: while frame timestamps do not go back, neither velocity component
    ever exceeds the base speed and the position stays in bounds, along
    every run; and one tick moves the participant by at most 9 pixels on
    each axis (base speed times the 50 ms ceiling of the elapsed time). *)
Theorem motion_bounded env :
  (forall evs s,
     clockMonotone (last s.1.2) evs ->
     speedBounded (vel s.1.1) -> inBounds (pos s.1.1) ->
     speedBounded (vel (run env evs s).1.1.1) /\
     inBounds (pos (run env evs s).1.1.1)) /\
  (forall tk sim lp st,
     last lp <= t_now tk ->
     speedBounded (vel sim) -> inBounds (pos sim) ->
     let sim' := (step env tk (sim, lp, st)).1.1.1 in
     Rabs (vx (pos sim') - vx (pos sim)) <= 9 /\
     Rabs (vy (pos sim') - vy (pos sim)) <= 9).
Proof.
  split.
  - intros evs s Hc Hv Hp.
    apply (run_invariant
             (fun s => speedBounded (vel s.1.1) /\ inBounds (pos s.1.1)));
      [| | | |exact Hc|by split].
    + intros env' tk [[sim lp] st] Hle [Hv' Hp']. split.
      * rewrite step_vel. apply stepVel_bounded; [|exact Hv'].
        apply tickDt_nonneg. exact Hle.
      * rewrite step_pos. apply stepPos_inBounds.
    + intros env' now m s' H. by rewrite react_msg_sim.
    + intros env' rd s' H.
      destruct (render_sim env' rd s') as (-> & -> & _). exact H.
    + intros env' s' H. by rewrite react_micReady_sim.
  - intros tk sim lp st Hle Hv [Hx Hy] sim'. subst sim'. rewrite step_pos.
    pose proof (tickDt_nonneg _ _ Hle) as Hdt0.
    pose proof (tickDt_le (t_now tk) (last lp)) as Hdt1.
    destruct (stepVel_bounded _ sim Hdt0 Hv) as [Hvx Hvy].
    unfold stepPos. simpl. unfold BASE_SPEED in *.
    apply Rabs_le_between in Hvx, Hvy.
    set (dt := tickDt (t_now tk) (last lp)) in *.
    set (v := stepVel dt sim) in *.
    assert (forall u, -180 <= u <= 180 -> Rabs (u * dt) <= 9) as Hb.
    { intros u Hu. apply Rabs_le.
      assert (0 <= (180 - u) * dt) by (apply Rmult_le_pos; lra).
      assert (0 <= (u + 180) * dt) by (apply Rmult_le_pos; lra).
      lra. }
    split; (eapply Rle_trans; [by apply clamp_step|]); by apply Hb.
Qed.

Lemma motion_bounded_witness :
  speedBounded
    (vel (run me_env [EvTick rest_tick] (rest_sim, rest_loop, rest_store)).1.1.1) /\
  Rabs (vx (pos (step me_env rest_tick (rest_sim, rest_loop, rest_store)).1.1.1)
        - vx (pos rest_sim)) <= 9.
Proof.
  assert (speedBounded (vel rest_sim)) as Hv.
  { unfold speedBounded, rest_sim, BASE_SPEED. simpl. rewrite Rabs_R0. lra. }
  assert (inBounds (pos rest_sim)) as Hp.
  { unfold inBounds, rest_sim, TILE, WORLD_W, WORLD_H. simpl. lra. }
  assert (last rest_loop <= t_now rest_tick) as Hle.
  { unfold rest_loop, rest_tick. simpl. lra. }
  split.
  - apply (proj1 (motion_bounded me_env) [EvTick rest_tick]
             (rest_sim, rest_loop, rest_store)); [by split|exact Hv|exact Hp].
  - apply (proj2 (motion_bounded me_env) rest_tick rest_sim rest_loop
             rest_store Hle Hv Hp).
Defined.

(** X7: a slow frame is treated like a 50 ms frame: two ticks that both
    come 50 ms or more after their predecessor produce, from the same
    simulation state, the same velocity, position and target, whatever
    the actual elapsed times, stores and loop variables are. *)
Theorem slow_frames_alike env env' tk tk' sim lp lp' st st' :
  50 <= t_now tk - last lp -> 50 <= t_now tk' - last lp' ->
  let a := (step env tk (sim, lp, st)).1.1.1 in
  let b := (step env' tk' (sim, lp', st')).1.1.1 in
  vel a = vel b /\ pos a = pos b /\ target a = target b /\
  vel a = stepVel 0.05 sim.
Proof.
  intros H1 H2. cbv zeta.
  rewrite !step_target, !step_pos, !step_vel.
  by rewrite (tickDt_slow _ _ H1), (tickDt_slow _ _ H2).
Qed.

Lemma slow_frames_alike_witness :
  pos (step me_env (mkTick 1484 0 None) (rest_sim, rest_loop, rest_store)).1.1.1
  = pos (step me_env (mkTick 1034 0 None) (rest_sim, rest_loop, rest_store)).1.1.1.
Proof.
  apply (slow_frames_alike me_env me_env (mkTick 1484 0 None)
           (mkTick 1034 0 None) rest_sim rest_loop rest_loop
           rest_store rest_store);
    unfold rest_loop; simpl; lra.
Defined.

(** ** Reconciliation: frames and invariants *)

(** X8: a message about one participant leaves every other entry of the
    presence store as it was, and chat and object messages leave the whole
    presence map as it was. *)
Theorem onMsg_other_entries env sim now m st :
  (forall id j, msgParticipant m = Some id -> j <> id ->
     participants (onMsg env sim now m st).1 !! j = participants st !! j) /\
  (msgParticipant m = None ->
     participants (onMsg env sim now m st).1 = participants st).
Proof.
  split.
  - intros id j Hm Hj.
    destruct m as [p|i|i x y d|c|p|i pr cam mic|i lvl mic|i s];
      simpl in Hm; try discriminate; injection Hm as <-; simpl.
    + by apply writeEntry_other.
    + by apply lookup_delete_ne.
    + destruct (participants st !! i); [|reflexivity].
      destruct (gtb _ _ || gtb _ _); [|reflexivity]. by apply lookup_insert_ne.
    + by apply writeEntry_other.
    + destruct (participants st !! i); [|destruct (inherited i)]; simpl;
        try reflexivity; by apply lookup_insert_ne.
    + destruct (participants st !! i); [|destruct (inherited i)]; simpl;
        try reflexivity; by apply lookup_insert_ne.
  - intros Hm.
    destruct m as [p|i|i x y d|c|p|i pr cam mic|i lvl mic|i s];
      simpl in Hm; try discriminate; simpl; [reflexivity|].
    by destruct (findObject i (objects st)).
Qed.

Lemma onMsg_other_entries_witness :
  participants (onMsg me_env rest_sim 1700000000000
                  (MsgLeave "peer") two_store).1 !! "me"
    = participants two_store !! "me" /\
  participants (onMsg me_env rest_sim 1700000000000
                  (MsgObject "lamp1" ∅) two_store).1
    = participants two_store.
Proof.
  split.
  - apply (proj1 (onMsg_other_entries me_env rest_sim 1700000000000
                    (MsgLeave "peer") two_store) "peer" "me");
      [reflexivity | discriminate].
  - apply (proj2 (onMsg_other_entries me_env rest_sim 1700000000000
                    (MsgObject "lamp1" ∅) two_store)).
    reflexivity.
Defined.

(** X9: an avatar message for a known participant changes exactly its
    profile, camera flag, microphone flag and lastSeen; a voice message for
    a known participant changes exactly its microphone flag, speaking level
    (clamped to [0, 1]) and lastSeen.  Position and direction stay. *)
Theorem avatar_voice_frame env sim now st id e :
  participants st !! id = Some e ->
  (forall pr cam mic,
     participants (onMsg env sim now (MsgAvatar id pr cam mic) st).1 !! id =
       Some (mkParticipant (p_id e) pr (p_x e) (p_y e) (p_dir e) cam
               (Some mic) (p_speakingLevel e) now)) /\
  (forall lvl mic,
     exists l, 0 <= l <= 1 /\
       (0 <= lvl <= 1 -> l = lvl) /\
       participants (onMsg env sim now (MsgVoice id lvl mic) st).1 !! id =
         Some (mkParticipant (p_id e) (p_profile e) (p_x e) (p_y e) (p_dir e)
                 (p_camEnabled e) (Some mic) (Some l) now)).
Proof.
  intros He. split.
  - intros pr cam mic. simpl. rewrite He. simpl. by rewrite lookup_insert_eq.
  - intros lvl mic. exists (clamp lvl 0 1).
    split; [apply clamp_bounds; lra|].
    split; [intros H; by apply clamp_inside|].
    simpl. rewrite He. simpl. by rewrite lookup_insert_eq.
Qed.

Lemma avatar_voice_frame_witness :
  participants (onMsg me_env rest_sim 1700000000000
                  (MsgAvatar "me" guest true true) rest_store).1 !! "me" =
    Some (mkParticipant "me" guest 512 320 DirLeft true (Some true) (Some 0)
            1700000000000).
Proof.
  apply (proj1 (avatar_voice_frame me_env rest_sim 1700000000000 rest_store
                  "me" me_left (lookup_singleton_eq "me" me_left))).
Defined.


Lemma step_strays env tk sim lp st :
  strays (step env tk (sim, lp, st)).1.2 = strays st.
Proof.
  unfold step.
  destruct (throttleMove _ _ _ _ _) as [ls mv].
  destruct (throttleVoice _ _ _ _ _ _) as [[lv pv] vs]. reflexivity.
Qed.

Lemma step_participants_dom env tk sim lp st id :
  is_Some (participants (step env tk (sim, lp, st)).1.2 !! id)
    <-> is_Some (participants st !! id).
Proof.
  rewrite step_participants. cbv zeta.
  destruct (participants st !! myId env) as [e|] eqn:E; [|reflexivity].
  destruct (decide (id = myId env)) as [->|Hne].
  - rewrite lookup_insert_eq, E. split; intros _; eauto.
  - by rewrite lookup_insert_ne.
Qed.

Lemma step_displayPos_dom env tk sim lp st id :
  is_Some (displayPos (step env tk (sim, lp, st)).1.2 !! id)
    <-> is_Some (participants st !! id) \/ is_Some (displayPos st !! id).
Proof.
  rewrite step_displayPos. unfold smoothDisplay.
  rewrite lookup_union, map_lookup_imap.
  rewrite <- (step_participants_dom env tk sim lp st id).
  destruct (participants (step env tk (sim, lp, st)).1.2 !! id) as [p|];
    destruct (displayPos st !! id) as [d|]; simpl;
    split; intros H; eauto; destruct H as [H|H]; by inversion H.
Qed.


Lemma step_absent env tk sim lp st id :
  participants st !! id = None -> displayPos st !! id = None ->
  participants (step env tk (sim, lp, st)).1.2 !! id = None /\
  displayPos (step env tk (sim, lp, st)).1.2 !! id = None.
Proof.
  intros Hp Hd. split; apply eq_None_not_Some.
  - rewrite step_participants_dom, Hp. by intros [? ?].
  - rewrite step_displayPos_dom, Hp, Hd. intros [[? ?]|[? ?]]; discriminate.
Qed.

Lemma run_ticks_absent env id tks : forall s,
  participants s.2 !! id = None -> displayPos s.2 !! id = None ->
  participants (run env (map EvTick tks) s).1.2 !! id = None /\
  displayPos (run env (map EvTick tks) s).1.2 !! id = None.
Proof.
  induction tks as [|tk tks IH]; intros [[sim lp] st] Hp Hd; [by split|].
  change (map EvTick (tk :: tks)) with (EvTick tk :: map EvTick tks).
  rewrite run_cons_state.
  change (react env (EvTick tk) (sim, lp, st)) with (step env tk (sim, lp, st)).
  destruct (step_absent env tk sim lp st id Hp Hd) as [Hp' Hd'].
  by apply IH.
Qed.

(** X10: after a leave message for an id, the id is absent from the
    presence store and from the display positions, nothing is posted and
    the other ids keep what they had; ticks alone never bring the id
    back. *)
Theorem leave_removes env sim now id st :
  let st' := (onMsg env sim now (MsgLeave id) st).1 in
  participants st' !! id = None /\ displayPos st' !! id = None /\
  (onMsg env sim now (MsgLeave id) st).2 = [] /\
  (forall j, j <> id ->
     participants st' !! j = participants st !! j /\
     displayPos st' !! j = displayPos st !! j) /\
  (forall tks sim' lp,
     let st'' := (run env (map EvTick tks) (sim', lp, st')).1.2 in
     participants st'' !! id = None /\ displayPos st'' !! id = None).
Proof.
  cbv zeta. simpl.
  split; [apply lookup_delete_eq|]. split; [apply lookup_delete_eq|].
  split; [reflexivity|]. split.
  - intros j Hj. by rewrite !lookup_delete_ne.
  - intros tks sim' lp. apply run_ticks_absent; apply lookup_delete_eq.
Qed.



Lemma wellKeyed_insert_own k e (ps : gmap string Participant) :
  wellKeyed ps -> p_id e = k -> wellKeyed (<[k := e]> ps).
Proof.
  intros Hps Hk j e'. destruct (decide (j = k)) as [->|Hne].
  - rewrite lookup_insert_eq. by intros [= <-].
  - rewrite lookup_insert_ne by done. apply Hps.
Qed.

Lemma wellKeyed_withMe id f st :
  (forall me, p_id (f me) = p_id me) ->
  wellKeyed (participants st) -> wellKeyed (participants (withMe id f st)).
Proof.
  intros Hf Hw. unfold withMe.
  destruct (participants st !! id) as [me|] eqn:E; [|exact Hw]. simpl.
  apply wellKeyed_insert_own; [exact Hw|]. rewrite Hf. by apply Hw.
Qed.

(** X12: while no message is about an id that names a member of
    [Object.prototype], every entry of the participants record is a
    participant stored under its own id, along every run: the record stays
    well keyed and the handler writes nothing through the prototype chain.
    A single avatar or voice message about such a name that has no entry
    ends this. *)
Theorem store_well_keyed env :
  (forall evs s,
     plainRun evs ->
     wellKeyed (participants s.2) -> strays s.2 = [] ->
     wellKeyed (participants (run env evs s).1.2) /\
     strays (run env evs s).1.2 = []) /\
  (forall sim now st id,
     participants st !! id = None -> inherited id = true ->
     (forall pr cam mic,
        strays (onMsg env sim now (MsgAvatar id pr cam mic) st).1 <> []) /\
     (forall lvl mic,
        strays (onMsg env sim now (MsgVoice id lvl mic) st).1 <> [])).
Proof.
  split.
  - intros evs. revert env.
    induction evs as [|ev evs IH]; intros env s Hplain Hw Hs; [by split|].
    rewrite run_cons_state.
    assert (plainRun evs) as Hrest by (destruct ev; simpl in Hplain; tauto).
    destruct s as [[sim lp] st]. simpl in Hw, Hs.
    apply IH; [exact Hrest| |]; destruct ev as [tk|now m|rd|].
    + change (react env (EvTick tk) (sim, lp, st)) with (step env tk (sim, lp, st)).
      rewrite step_participants. cbv zeta.
      destruct (participants st !! myId env) as [e|] eqn:E; [|exact Hw].
      apply wellKeyed_insert_own; [exact Hw|]. simpl. by apply Hw.
    + change (react env (EvMsg now m) (sim, lp, st)).1.2
        with (onMsg env sim now m st).1.
      destruct Hplain as [Hm _]. unfold plainMsg in Hm.
      destruct m as [p|i|i x y d|c|p|i pr cam mic|i lvl mic|i o];
        simpl in Hm; simpl.
      * rewrite writeEntry_plain by (intros E; by rewrite E in Hm).
        by apply wellKeyed_insert_own.
      * intros j e'. destruct (decide (j = i)) as [->|Hne].
        -- by rewrite lookup_delete_eq.
        -- rewrite lookup_delete_ne by done. apply Hw.
      * destruct (participants st !! i) as [e|] eqn:E; [|exact Hw].
        destruct (gtb _ _ || gtb _ _); [|exact Hw].
        apply wellKeyed_insert_own; [exact Hw|]. simpl. by apply Hw.
      * exact Hw.
      * rewrite writeEntry_plain by (intros E; by rewrite E in Hm).
        by apply wellKeyed_insert_own.
      * rewrite Hm. destruct (participants st !! i) as [e|] eqn:E;
          (apply wellKeyed_insert_own; [exact Hw|]); simpl;
          [by apply Hw | reflexivity].
      * rewrite Hm. destruct (participants st !! i) as [e|] eqn:E; [|exact Hw].
        apply wellKeyed_insert_own; [exact Hw|]. simpl. by apply Hw.
      * destruct (findObject i (objects st)); exact Hw.
    + change (react env (EvRender rd) (sim, lp, st))
        with (render env rd (sim, lp, st)).
      destruct (render_store env rd (sim, lp, st)) as (f & Hf & ->).
      apply wellKeyed_withMe; [|exact Hw]. intros me. apply Hf.
    + destruct (micReady_store env (sim, lp, st)) as (f & Hf & ->).
      apply wellKeyed_withMe; [|exact Hw]. intros me. apply Hf.
    + change (react env (EvTick tk) (sim, lp, st)) with (step env tk (sim, lp, st)).
      by rewrite step_strays.
    + change (react env (EvMsg now m) (sim, lp, st)).1.2
        with (onMsg env sim now m st).1.
      destruct Hplain as [Hm _]. unfold plainMsg in Hm.
      destruct m as [p|i|i x y d|c|p|i pr cam mic|i lvl mic|i o];
        simpl in Hm; simpl; try exact Hs.
      * rewrite writeEntry_plain by (intros E; by rewrite E in Hm). exact Hs.
      * destruct (participants st !! i) as [e|]; [|exact Hs].
        by destruct (gtb _ _ || gtb _ _).
      * rewrite writeEntry_plain by (intros E; by rewrite E in Hm). exact Hs.
      * rewrite Hm. by destruct (participants st !! i).
      * rewrite Hm. by destruct (participants st !! i).
      * by destruct (findObject i (objects st)).
    + change (react env (EvRender rd) (sim, lp, st))
        with (render env rd (sim, lp, st)).
      destruct (render_store env rd (sim, lp, st)) as (f & _ & ->).
      cbn [snd].
      by rewrite (proj2 (proj2 (proj2 (proj2 (withMe_rest (myId env) f st))))).
    + destruct (micReady_store env (sim, lp, st)) as (f & _ & ->).
      cbn [snd].
      by rewrite (proj2 (proj2 (proj2 (proj2 (withMe_rest (myId env) f st))))).
  - intros sim now st id Hn Hi. split.
    + intros pr cam mic. simpl. rewrite Hn, Hi. simpl.
      intros H. by apply app_nil in H as [_ ?].
    + intros lvl mic. simpl. rewrite Hn, Hi. simpl.
      intros H. by apply app_nil in H as [_ ?].
Qed.

(** A join, a chat message that makes the component render again, and a
    frame. *)
Lemma store_well_keyed_witness :
  wellKeyed
    (participants
       (run me_env
          [EvMsg 1700000000000 (MsgJoin echoed);
           EvMsg 1700000000004 (MsgChat hello);
           EvRender (sameRender 992);
           EvTick rest_tick]
          (rest_sim, rest_loop, rest_store)).1.2) /\
  strays
    (run me_env
       [EvMsg 1700000000000 (MsgJoin echoed);
        EvMsg 1700000000004 (MsgChat hello);
        EvRender (sameRender 992);
        EvTick rest_tick]
       (rest_sim, rest_loop, rest_store)).1.2 = [].
Proof.
  apply (proj1 (store_well_keyed me_env)).
  - simpl. repeat split; reflexivity.
  - intros k e. unfold rest_store. simpl.
    intros H. apply lookup_singleton_Some in H as [<- <-]. reflexivity.
  - reflexivity.
Defined.

(** ** Chat log *)

Lemma lastEntries_length n l : (length (lastEntries n l) <= n)%nat.
Proof. unfold lastEntries. rewrite length_drop. lia. Qed.

(** X13: a chat message is appended at the end of the log, after at most
    the 199 most recent earlier entries in their order, so the log never
    holds more than 200 entries; a log of at most 199 entries loses
    nothing.  The presence store is not touched and nothing is posted. *)
Theorem chat_log_bounded env sim now c st :
  let r := onMsg env sim now (MsgChat c) st in
  (length (logs r.1) <= 200)%nat /\
  (exists older,
     logs r.1 = older ++ [c] /\ older `suffix_of` logs st /\
     length older = Nat.min 199 (length (logs st))) /\
  ((length (logs st) <= 199)%nat -> logs r.1 = logs st ++ [c]) /\
  participants r.1 = participants st /\ r.2 = [].
Proof.
  cbv zeta. cbn [onMsg fst snd logs participants].
  split; [|split; [|split]].
  - rewrite length_app. pose proof (lastEntries_length 199 (logs st)) as H.
    change (length [c]) with 1%nat. lia.
  - exists (lastEntries 199 (logs st)). split; [reflexivity|].
    split; [apply suffix_drop|].
    unfold lastEntries. rewrite length_drop.
    destruct (Nat.min_spec 199 (length (logs st))) as [[? ->]|[? ->]]; lia.
  - intros H. unfold lastEntries.
    replace (length (logs st) - 199)%nat with 0%nat by lia. reflexivity.
  - by split.
Qed.

Lemma chat_log_bounded_witness :
  logs (onMsg me_env rest_sim 1700000000000
          (MsgChat (mkChat "peer" "Ana" "oi" 1700000000000)) rest_store).1
  = logs rest_store ++ [mkChat "peer" "Ana" "oi" 1700000000000].
Proof.
  apply (proj1 (proj2 (proj2 (chat_log_bounded me_env rest_sim 1700000000000
                                (mkChat "peer" "Ana" "oi" 1700000000000)
                                rest_store)))).
  simpl. lia.
Defined.

(** ** Handshake *)

(** X14: the join handshake.  A peer that receives a join from another id
    replies with exactly one state message carrying its own id, simulated
    position and facing, and records the sender's snapshot under the
    sender's id; the sender, on receiving that reply, posts nothing more
    and records the peer at that position.  A join carrying the receiver's
    own id gets no reply.  The recording is for ids other than
    ["__proto__"]: written under that name, a snapshot replaces the
    prototype of the record and no entry appears. *)
Theorem join_handshake_exchange envA envB simA simB stA stB t1 t2 snapA :
  (s_id snapA <> myId envB ->
     let rB := onMsg envB simB t1 (MsgJoin snapA) stB in
     let rA := onMsg envA simA t2 (MsgState (replySnapshot envB simB)) stA in
     rB.2 = [MsgState (replySnapshot envB simB)] /\
     rA.2 = [] /\
     (s_id snapA <> "__proto__" ->
        participants rB.1 !! s_id snapA = Some (ofSnapshot snapA t1) /\
        dom (participants rB.1) = {[ s_id snapA ]} ∪ dom (participants stB)) /\
     (myId envB <> "__proto__" ->
        entryPos rA.1 (myId envB) = Some (vx (pos simB), vy (pos simB)) /\
        dom (participants rA.1) = {[ myId envB ]} ∪ dom (participants stA)) /\
     (s_id snapA = "__proto__" -> participants stB !! "__proto__" = None ->
        participants rB.1 = participants stB /\
        strays rB.1 = strays stB ++ [ProtoFull (ofSnapshot snapA t1)])) /\
  (s_id snapA = myId envB ->
     (onMsg envB simB t1 (MsgJoin snapA) stB).2 = []).
Proof.
  split.
  - intros Hne. cbv zeta. simpl.
    rewrite bool_decide_eq_true_2 by exact Hne.
    split; [reflexivity|]. split; [reflexivity|]. split; [|split].
    + intros Hp. rewrite writeEntry_plain by exact Hp. simpl.
      split; [apply lookup_insert_eq | apply dom_insert_L].
    + intros Hp.
      rewrite (writeEntry_plain (myId envB)) by exact Hp.
      unfold entryPos. simpl. rewrite lookup_insert_eq.
      split; [reflexivity | apply dom_insert_L].
    + intros Hp Hn. unfold writeEntry. rewrite Hp.
      rewrite !bool_decide_eq_true_2 by done. by split.
  - intros He. simpl. rewrite bool_decide_eq_false_2; [reflexivity|].
    intros H. by apply H.
Qed.

Lemma join_handshake_exchange_witness :
  (onMsg me_env rest_sim 1700000000000
     (MsgJoin (mkSnapshot "peer" guest 512 320 DirDown false (Some false) (Some 0)))
     rest_store).2
    = [MsgState (replySnapshot me_env rest_sim)] /\
  participants
    (onMsg me_env rest_sim 1700000000000
       (MsgJoin (mkSnapshot "peer" guest 512 320 DirDown false (Some false)
                   (Some 0)))
       rest_store).1 !! "peer"
    = Some (mkParticipant "peer" guest 512 320 DirDown false (Some false)
              (Some 0) 1700000000000) /\
  entryPos
    (onMsg me_env rest_sim 1700000000000
       (MsgState (replySnapshot me_env rest_sim)) rest_store).1 "me"
    = Some (512, 320) /\
  (onMsg me_env rest_sim 1700000000000 (MsgJoin echoed) rest_store).2 = [].
Proof.
  destruct (proj1 (join_handshake_exchange me_env me_env rest_sim rest_sim
                     rest_store rest_store 1700000000000 1700000000000
                     (mkSnapshot "peer" guest 512 320 DirDown false (Some false)
                        (Some 0))) ltac:(discriminate))
    as (Hreply & _ & Hrec & Hback & _).
  split; [exact Hreply|]. split; [|split].
  - apply Hrec. discriminate.
  - apply Hback. discriminate.
  - apply (proj2 (join_handshake_exchange me_env me_env rest_sim rest_sim
                    rest_store rest_store 1700000000000 1700000000000 echoed)).
    reflexivity.
Defined.

(** ** World objects *)

Lemma mergeObject_geometry id s objs :
  map geometry (mergeObject id s objs) = map geometry objs.
Proof.
  induction objs as [|o rest IH]; [reflexivity|]. simpl.
  destruct (bool_decide (o_id o = id)); simpl; [reflexivity|].
  by rewrite IH.
Qed.

(** X15: the geometry of the world objects (id, type, rectangle,
    interactive flag, and their order) is the same after every run: only
    the state of an object changes.  An object message for an id that no
    object has changes nothing and posts nothing. *)
Theorem objects_geometry_fixed env :
  (forall evs s,
     map geometry (objects (run env evs s).1.2) = map geometry (objects s.2)) /\
  (forall sim now id state st,
     findObject id (objects st) = None ->
     onMsg env sim now (MsgObject id state) st = (st, [])).
Proof.
  split.
  - intros evs. revert env.
    induction evs as [|ev evs IH]; intros env s; [reflexivity|].
    rewrite run_cons_state, IH. destruct s as [[sim lp] st].
    destruct ev as [tk|now m|rd|].
    + change (react env (EvTick tk) (sim, lp, st)) with (step env tk (sim, lp, st)).
      unfold step.
      destruct (throttleMove _ _ _ _ _) as [ls mv].
      destruct (throttleVoice _ _ _ _ _ _) as [[lv pv] vs]. reflexivity.
    + change (react env (EvMsg now m) (sim, lp, st)).1.2
        with (onMsg env sim now m st).1.
      destruct m as [p|i|i x y d|c|p|i pr cam mic|i lvl mic|i o]; simpl;
        try reflexivity.
      * by rewrite (proj1 (proj2 (writeEntry_rest _ _ st))).
      * destruct (participants st !! i); [|reflexivity].
        by destruct (gtb _ _ || gtb _ _).
      * by rewrite (proj1 (proj2 (writeEntry_rest _ _ st))).
      * destruct (participants st !! i); [|destruct (inherited i)]; reflexivity.
      * destruct (participants st !! i); [|destruct (inherited i)]; reflexivity.
      * destruct (findObject i (objects st)); [|reflexivity]. simpl.
        apply mergeObject_geometry.
    + change (react env (EvRender rd) (sim, lp, st))
        with (render env rd (sim, lp, st)).
      destruct (render_store env rd (sim, lp, st)) as (f & _ & ->). cbn [snd].
      by rewrite (proj1 (proj2 (withMe_rest (myId env) f st))).
    + destruct (micReady_store env (sim, lp, st)) as (f & _ & ->). cbn [snd].
      by rewrite (proj1 (proj2 (withMe_rest (myId env) f st))).
  - intros sim now id state st H. simpl. by rewrite H.
Qed.

Lemma objects_geometry_fixed_witness :
  onMsg me_env rest_sim 1700000000000
    (MsgObject "sofa" {[ "on" := JBool false ]}) room_store
  = (room_store, []).
Proof.
  apply (proj2 (objects_geometry_fixed me_env)). reflexivity.
Defined.

(** ** Voice messages *)

Lemma spacedBy_weaken gap l l' ts : l' <= l -> spacedBy gap l ts -> spacedBy gap l' ts.
Proof. destruct ts as [|t ts]; [done|]. intros Hl [H1 H2]. split; [lra|exact H2]. Qed.

Lemma spacedBy_count_after gap a T : 0 < gap -> forall ts l,
  spacedBy gap l ts ->
  gap * INR (countIn a T ts) <= Rmax 0 (a + T - l).
Proof.
  intros Hg. induction ts as [|t ts IH]; intros l Hs.
  - unfold countIn. simpl. rewrite Rmult_0_r. apply Rmax_l.
  - destruct Hs as [Hl Hs]. specialize (IH t Hs).
    rewrite countIn_cons. destruct (inWindow a T t) eqn:E.
    + apply inWindow_spec in E. rewrite S_INR.
      rewrite Rmax_right in IH by lra.
      etransitivity; [|apply Rmax_r]. lra.
    + etransitivity; [exact IH|].
      apply Rmax_lub; [apply Rmax_l|].
      etransitivity; [|apply Rmax_r]. lra.
Qed.

Lemma spacedBy_count_window gap a T : 0 < gap -> 0 <= T -> forall ts l,
  spacedBy gap l ts ->
  (Z.of_nat (countIn a T ts) <= Zceil (T / gap) + 1)%Z.
Proof.
  intros Hg HT ts l Hs.
  assert (gap * (INR (countIn a T ts) - 1) <= T) as Hb.
  { revert l Hs. induction ts as [|t ts IH]; intros l Hs.
    - unfold countIn. simpl. lra.
    - destruct Hs as [Hl Hs].
      rewrite countIn_cons. destruct (inWindow a T t) eqn:E.
      + apply inWindow_spec in E. rewrite S_INR.
        pose proof (spacedBy_count_after gap a T Hg ts t Hs) as H.
        rewrite Rmax_right in H by lra. lra.
      + by apply (IH t). }
  apply le_IZR. rewrite plus_IZR, <- INR_IZR_INZ.
  pose proof (Zceil_bound (T / gap)) as [_ Hc].
  assert (INR (countIn a T ts) - 1 <= T / gap); [|lra].
  apply (Rmult_le_reg_l gap); [exact Hg|].
  replace (gap * (T / gap)) with T by (field; lra). exact Hb.
Qed.

Lemma step_lastVoice env tk sim lp st :
  lastVoice (step env tk (sim, lp, st)).1.1.2 =
    if gtb (t_now tk - lastVoice lp) VOICE_RATE_MS
    then t_now tk else lastVoice lp.
Proof.
  unfold step, throttleVoice.
  destruct (throttleMove _ _ _ _ _) as [ls mv].
  destruct (gtb (t_now tk - lastVoice lp) VOICE_RATE_MS); [|reflexivity].
  by destruct (_ || _).
Qed.

(** The voice messages of a tick: at most one, and none unless the voice
    interval has elapsed. *)
Lemma step_voices env tk sim lp st :
  List.filter isVoiceMsg (step env tk (sim, lp, st)).2 = [] \/
  (gtb (t_now tk - lastVoice lp) VOICE_RATE_MS = true /\
   exists m, List.filter isVoiceMsg (step env tk (sim, lp, st)).2 = [m]).
Proof.
  rewrite step_posts. cbv zeta.
  rewrite List.filter_app, throttleMove_no_voice. simpl.
  unfold throttleVoice.
  destruct (gtb (t_now tk - lastVoice lp) VOICE_RATE_MS); [|by left].
  destruct (_ || _); [|by left]. right. split; [reflexivity|]. eauto.
Qed.

Lemma step_voiceLevel env tk sim lp st :
  voiceLevel (step env tk (sim, lp, st)).1.1.1
    = stepVoiceLevel (voiceLevel sim) (t_rms tk).
Proof.
  unfold step.
  destruct (throttleMove _ _ _ _ _) as [ls mv].
  destruct (throttleVoice _ _ _ _ _ _) as [[lv pv] vs]. reflexivity.
Qed.

Lemma react_lastVoice env ev s :
  lastVoice (react env ev s).1.1.2 =
    match ev with
    | EvTick tk =>
        if gtb (t_now tk - lastVoice s.1.2) VOICE_RATE_MS
        then t_now tk else lastVoice s.1.2
    | EvRender _ => 0
    | _ => lastVoice s.1.2
    end.
Proof.
  destruct s as [[sim lp] st]. destruct ev as [tk|now m|rd|].
  - apply step_lastVoice.
  - reflexivity.
  - change (react env (EvRender rd) (sim, lp, st)) with (render env rd (sim, lp, st)).
    by rewrite render_loop.
  - simpl. by destruct (micEnabled env).
Qed.

Lemma run_voice_spaced evs : forall env s,
  oneLoop evs ->
  spacedBy VOICE_RATE_MS (lastVoice s.1.2) (voiceTimes (run env evs s).2).
Proof.
  induction evs as [|ev evs IH]; intros env s Hone; [exact I|].
  change (voiceTimes (run env (ev :: evs) s).2)
    with (voiceTimesOf (ev, (react env ev s).2)
          ++ voiceTimes (run (envAfter env ev) evs (react env ev s).1).2).
  assert (oneLoop evs) as Hrest by (destruct ev; simpl in Hone; tauto).
  specialize (IH (envAfter env ev) (react env ev s).1 Hrest).
  rewrite react_lastVoice in IH.
  destruct s as [[sim lp] st].
  destruct ev as [tk|now m|rd|]; try exact IH; [|destruct Hone].
  change (react env (EvTick tk) (sim, lp, st)) with (step env tk (sim, lp, st))
    in *.
  change (voiceTimesOf (EvTick tk, (step env tk (sim, lp, st)).2))
    with (map (λ _ : BroadcastMessage, t_now tk)
            (List.filter isVoiceMsg (step env tk (sim, lp, st)).2)).
  cbn [fst snd] in IH.
  destruct (step_voices env tk sim lp st) as [->|[E [m ->]]].
  - simpl. destruct (gtb _ VOICE_RATE_MS) eqn:E; [|exact IH].
    apply gtb_spec in E. eapply spacedBy_weaken; [|exact IH].
    unfold VOICE_RATE_MS in E. simpl. lra.
  - rewrite E in IH. simpl. split; [|exact IH].
    apply gtb_spec in E. simpl. lra.
Qed.

(** The voice messages a tick posts when the local entry exists. *)
Lemma step_voice_times env tk sim lp st e :
  participants st !! myId env = Some e ->
  voiceTimesOf (EvTick tk, (step env tk (sim, lp, st)).2) =
    if gtb (t_now tk - lastVoice lp) VOICE_RATE_MS
       && gtb (Rabs (clamp (stepVoiceLevel (voiceLevel sim) (t_rms tk) * 2.2) 0 1
                     - prevVoiceLevel lp)) 0.03
    then [t_now tk] else [].
Proof.
  intros He. unfold voiceTimesOf. cbn [fst snd].
  rewrite (step_voice_posts _ _ _ _ _ e He). cbv zeta.
  rewrite List.filter_app, throttleMove_no_voice. simpl "++".
  by destruct (_ && _).
Qed.

Lemma step_prevVoiceLevel env tk sim lp st e :
  participants st !! myId env = Some e ->
  prevVoiceLevel (step env tk (sim, lp, st)).1.1.2 =
    if gtb (t_now tk - lastVoice lp) VOICE_RATE_MS
       && gtb (Rabs (clamp (stepVoiceLevel (voiceLevel sim) (t_rms tk) * 2.2) 0 1
                     - prevVoiceLevel lp)) 0.03
    then clamp (stepVoiceLevel (voiceLevel sim) (t_rms tk) * 2.2) 0 1
    else prevVoiceLevel lp.
Proof.
  intros He. unfold step, throttleVoice.
  destruct (throttleMove _ _ _ _ _) as [ls mv]. rewrite He. simpl.
  destruct (gtb (t_now tk - lastVoice lp) VOICE_RATE_MS); [|reflexivity].
  simpl. destruct (micEnabled env); simpl; rewrite orb_false_r;
    by destruct (gtb _ 0.03).
Qed.

(** X16: the voice messages that the ticks of one main loop post are more
    than 140 ms apart: as long as no render intervenes, any time window of
    length [T] holds at most ceil(T / 140) + 1 of them. *)
Theorem voice_rate env evs s a T :
  oneLoop evs -> 0 <= T ->
  (Z.of_nat (countIn a T (voiceTimes (run env evs s).2))
     <= Zceil (T / VOICE_RATE_MS) + 1)%Z.
Proof.
  intros Hone HT.
  apply (spacedBy_count_window VOICE_RATE_MS a T
           ltac:(unfold VOICE_RATE_MS; lra) HT _ (lastVoice s.1.2)).
  by apply run_voice_spaced.
Qed.

(** A loud frame at 1200 and a quiet one at 1400 of a main loop started at
    1000, the microphone on: both post a voice message, two in the window
    of 200 ms from 1200. *)
Lemma voice_rate_witness :
  (Z.of_nat
     (countIn 1200 200
        (voiceTimes
           (run mic_on_env [EvTick loud_tick; EvTick quiet_tick]
              (rest_sim, mkLoop 1000 0 0 0, mic_store)).2))
   <= Zceil (200 / VOICE_RATE_MS) + 1)%Z /\
  voiceTimes
    (run mic_on_env [EvTick loud_tick; EvTick quiet_tick]
       (rest_sim, mkLoop 1000 0 0 0, mic_store)).2 = [1200; 1400].
Proof.
  split; [apply voice_rate; [simpl; tauto | lra]|].
  change (voiceTimes
            (run mic_on_env [EvTick loud_tick; EvTick quiet_tick]
               (rest_sim, mkLoop 1000 0 0 0, mic_store)).2)
    with (voiceTimesOf
            (EvTick loud_tick,
             (step mic_on_env loud_tick (rest_sim, mkLoop 1000 0 0 0, mic_store)).2)
          ++ (voiceTimesOf
                (EvTick quiet_tick,
                 (step mic_on_env quiet_tick
                    (step mic_on_env loud_tick
                       (rest_sim, mkLoop 1000 0 0 0, mic_store)).1).2)
              ++ [])).
  assert (participants mic_store !! myId mic_on_env = Some me_mic) as Hme
    by apply lookup_singleton_eq.
  rewrite (step_voice_times _ _ _ _ _ me_mic Hme).
  destruct (step mic_on_env loud_tick (rest_sim, mkLoop 1000 0 0 0, mic_store))
    as [[[sim1 lp1] st1] out1] eqn:E1.
  assert (is_Some (participants st1 !! myId mic_on_env)) as [e1 He1].
  { replace st1
      with (step mic_on_env loud_tick
              (rest_sim, mkLoop 1000 0 0 0, mic_store)).1.2 by by rewrite E1.
    apply step_participants_dom. eauto. }
  cbn [fst].
  rewrite (step_voice_times _ _ _ _ _ e1 He1).
  assert (lastVoice lp1 = 1200 /\ prevVoiceLevel lp1 = 0.55
          /\ voiceLevel sim1 = 0.25) as (Hlv & Hpv & Hvl).
  { replace lp1
      with (step mic_on_env loud_tick
              (rest_sim, mkLoop 1000 0 0 0, mic_store)).1.1.2 by by rewrite E1.
    replace sim1
      with (step mic_on_env loud_tick
              (rest_sim, mkLoop 1000 0 0 0, mic_store)).1.1.1 by by rewrite E1.
    rewrite step_lastVoice, (step_prevVoiceLevel _ _ _ _ _ me_mic Hme),
      step_voiceLevel.
    unfold loud_tick, rest_sim, VOICE_RATE_MS, stepVoiceLevel, lerp. simpl.
    replace ((0 + (1 - 0) * 0.25) * 2.2) with 0.55 by lra.
    rewrite (clamp_inside 0.55 0 1) by lra.
    replace (0.55 - 0) with 0.55 by lra. rewrite (Rabs_right 0.55) by lra.
    rbool. repeat split; lra. }
  rewrite Hlv, Hpv, Hvl.
  unfold loud_tick, quiet_tick, rest_sim, VOICE_RATE_MS, stepVoiceLevel, lerp.
  simpl.
  replace ((0 + (1 - 0) * 0.25) * 2.2) with 0.55 by lra.
  rewrite (clamp_inside 0.55 0 1) by lra.
  replace (0.55 - 0) with 0.55 by lra. rewrite (Rabs_right 0.55) by lra.
  replace ((0.25 + (0 - 0.25) * 0.25) * 2.2) with 0.4125 by lra.
  rewrite (clamp_inside 0.4125 0 1) by lra.
  rewrite (Rabs_left (0.4125 - 0.55)) by lra.
  rbool. reflexivity.
Defined.

(** What the voice throttle of a tick posts and leaves in
    [prevVoiceLevel]. *)
Lemma step_voice_throttle env tk sim lp st :
  let lvl := clamp (voiceLevel (step env tk (sim, lp, st)).1.1.1 * 2.2) 0 1 in
  (List.filter isVoiceMsg (step env tk (sim, lp, st)).2 = [] /\
   prevVoiceLevel (step env tk (sim, lp, st)).1.1.2 = prevVoiceLevel lp) \/
  (List.filter isVoiceMsg (step env tk (sim, lp, st)).2
     = [MsgVoice (myId env) lvl (micEnabled env)] /\
   prevVoiceLevel (step env tk (sim, lp, st)).1.1.2 = lvl /\
   VOICE_RATE_MS < t_now tk - lastVoice lp).
Proof.
  cbv zeta. rewrite step_voiceLevel, step_posts. cbv zeta.
  rewrite List.filter_app, throttleMove_no_voice. simpl "++".
  unfold step, throttleVoice.
  destruct (throttleMove _ _ _ _ _) as [ls mv].
  destruct (gtb (t_now tk - lastVoice lp) VOICE_RATE_MS) eqn:E; [|by left].
  destruct (_ || _); [|by left]. right.
  split; [reflexivity|]. split; [reflexivity|]. by apply gtb_spec.
Qed.

(** X17: a voice message posted by a tick carries the local id, the
    current mic-enabled flag and a level in [0, 1], namely the smoothed
    level times 2.2 clamped; that level becomes the reference of the
    hysteresis, which a tick that posts no voice message leaves as it was.
    The smoothed level is 0 without an analyser and stays in [0, 1] when
    the analyser's RMS does. *)
Theorem voice_message_content env tk sim lp st :
  let s' := (step env tk (sim, lp, st)).1 in
  (forall id lvl mic,
     MsgVoice id lvl mic ∈ (step env tk (sim, lp, st)).2 ->
     id = myId env /\ mic = micEnabled env /\ 0 <= lvl <= 1 /\
     lvl = clamp (voiceLevel s'.1.1 * 2.2) 0 1 /\
     prevVoiceLevel s'.1.2 = lvl /\
     VOICE_RATE_MS < t_now tk - lastVoice lp) /\
  ((forall m, m ∈ (step env tk (sim, lp, st)).2 -> isVoiceMsg m = false) ->
     prevVoiceLevel s'.1.2 = prevVoiceLevel lp) /\
  (t_rms tk = None -> voiceLevel s'.1.1 = 0) /\
  (rmsInRange tk -> 0 <= voiceLevel sim <= 1 -> 0 <= voiceLevel s'.1.1 <= 1).
Proof.
  cbv zeta. split; [|split; [|split]].
  - intros id lvl mic Hin.
    assert (MsgVoice id lvl mic
              ∈ List.filter isVoiceMsg (step env tk (sim, lp, st)).2) as Hf.
    { apply list_elem_of_In, List.filter_In. split; [|reflexivity].
      by apply list_elem_of_In. }
    destruct (step_voice_throttle env tk sim lp st) as [[H0 _]|(H1 & H2 & H3)].
    + rewrite H0 in Hf. by apply elem_of_nil in Hf.
    + rewrite H1 in Hf. apply list_elem_of_singleton in Hf.
      injection Hf as -> -> ->.
      repeat split; try assumption; try reflexivity;
        apply clamp_bounds; lra.
  - intros Hno.
    destruct (step_voice_throttle env tk sim lp st) as [[_ H0]|(H1 & _)];
      [exact H0|].
    assert (List.In (MsgVoice (myId env)
              (clamp (voiceLevel (step env tk (sim, lp, st)).1.1.1 * 2.2) 0 1)
              (micEnabled env))
              (List.filter isVoiceMsg (step env tk (sim, lp, st)).2)) as Hin
      by (rewrite H1; by left).
    apply List.filter_In in Hin as [Hin _].
    apply list_elem_of_In, Hno in Hin. discriminate.
  - intros Hr. rewrite step_voiceLevel, Hr. reflexivity.
  - intros Hr Hl. rewrite step_voiceLevel.
    unfold rmsInRange in Hr. unfold stepVoiceLevel, lerp.
    destruct (t_rms tk) as [r|]; lra.
Qed.

Lemma quiet_mic_tick_posts_nothing :
  (step mic_on_env mic_tick (rest_sim, mic_loop, mic_store)).2 = [].
Proof.
  rewrite (step_voice_posts _ _ _ _ _ me_mic) by apply lookup_singleton_eq.
  unfold throttleMove, SEND_RATE_MS, VOICE_RATE_MS, mic_tick, mic_loop, rest_sim.
  simpl. unfold stepVoiceLevel, lerp.
  replace ((0 + (0 - 0) * 0.25) * 2.2) with 0 by lra.
  rewrite (clamp_inside 0 0 1) by lra.
  replace (0 - 0) with 0 by lra. rewrite Rabs_R0.
  rbool. reflexivity.
Qed.

Lemma voice_message_content_witness :
  0 <= voiceLevel
         (step mic_on_env mic_tick (rest_sim, mic_loop, mic_store)).1.1.1 <= 1 /\
  prevVoiceLevel
    (step mic_on_env mic_tick (rest_sim, mic_loop, mic_store)).1.1.2
    = prevVoiceLevel mic_loop.
Proof.
  destruct (voice_message_content mic_on_env mic_tick rest_sim mic_loop
              mic_store) as (_ & Hprev & _ & Hrange).
  split.
  - apply Hrange.
    + unfold rmsInRange, mic_tick. simpl. lra.
    + unfold rest_sim. simpl. lra.
  - apply Hprev. intros m Hm.
    rewrite quiet_mic_tick_posts_nothing in Hm. by apply elem_of_nil in Hm.
Defined.

(** ** Objects under the pointer *)

Lemma hitFrom_Some objs pt : forall n i,
  hitFrom objs pt n = Some i ->
  (i < n)%nat /\
  exists o, objs !! i = Some o /\ containsPt o pt = true /\
    forall j o', (i < j < n)%nat -> objs !! j = Some o' ->
                 containsPt o' pt = false.
Proof.
  induction n as [|n IH]; intros i H; [discriminate|]. simpl in H.
  destruct (objs !! n) as [o|] eqn:E.
  - destruct (containsPt o pt) eqn:C.
    + injection H as <-. split; [lia|]. exists o.
      repeat split; try assumption. intros j o' Hj. lia.
    + destruct (IH i H) as (Hi & o1 & H1 & H2 & H3). split; [lia|].
      exists o1. repeat split; try assumption. intros j o' Hj Hj'.
      destruct (decide (j = n)) as [->|Hne]; [congruence|].
      apply (H3 j); [lia | exact Hj'].
  - destruct (IH i H) as (Hi & o1 & H1 & H2 & H3). split; [lia|].
    exists o1. repeat split; try assumption. intros j o' Hj Hj'.
    destruct (decide (j = n)) as [->|Hne]; [congruence|].
    apply (H3 j); [lia | exact Hj'].
Qed.

Lemma hitFrom_None objs pt : forall n,
  hitFrom objs pt n = None <->
  forall j o, (j < n)%nat -> objs !! j = Some o -> containsPt o pt = false.
Proof.
  induction n as [|n IH]; simpl.
  - split; [intros _ j o Hj; lia | done].
  - destruct (objs !! n) as [o|] eqn:E.
    + destruct (containsPt o pt) eqn:C.
      * split; [discriminate|]. intros H. specialize (H n o ltac:(lia) E).
        congruence.
      * rewrite IH. split; intros H j o' Hj Hj'.
        -- destruct (decide (j = n)) as [->|Hne]; [congruence|].
           apply (H j); [lia | exact Hj'].
        -- apply (H j); [lia | exact Hj'].
    + rewrite IH. split; intros H j o' Hj Hj'.
      * destruct (decide (j = n)) as [->|Hne]; [congruence|].
        apply (H j); [lia | exact Hj'].
      * apply (H j); [lia | exact Hj'].
Qed.

Lemma containsPt_geometry o o' pt :
  geometry o = geometry o' -> containsPt o pt = containsPt o' pt.
Proof.
  unfold geometry, containsPt. intros H.
  injection H as _ _ -> -> -> -> _. reflexivity.
Qed.

Lemma hitFrom_geometry objs objs' pt :
  map geometry objs = map geometry objs' ->
  forall n, hitFrom objs pt n = hitFrom objs' pt n.
Proof.
  intros Hg. induction n as [|n IH]; [reflexivity|]. simpl.
  assert (geometry <$> objs !! n = geometry <$> objs' !! n) as Hn.
  { rewrite <- !list_lookup_fmap.
    change (map geometry objs !! n = map geometry objs' !! n). by rewrite Hg. }
  destruct (objs !! n) as [o|], (objs' !! n) as [o'|]; simpl in Hn;
    try discriminate; [|exact IH].
  assert (geometry o = geometry o') as Ho by congruence.
  rewrite (containsPt_geometry o o' pt Ho), IH. reflexivity.
Qed.

(** X18: [hitObject] finds the last object of the list whose rectangle
    (borders included) contains the point, that is the one drawn on top;
    it finds nothing exactly when no object contains the point; and it
    depends only on the geometry of the objects, not on their state. *)
Theorem hitObject_spec objs pt :
  (forall i, hitObject objs pt = Some i ->
     exists o, objs !! i = Some o /\ containsPt o pt = true /\
       forall j o', (i < j)%nat -> objs !! j = Some o' ->
                    containsPt o' pt = false) /\
  (hitObject objs pt = None <->
     forall o, o ∈ objs -> containsPt o pt = false) /\
  (forall objs', map geometry objs = map geometry objs' ->
     hitObject objs pt = hitObject objs' pt).
Proof.
  unfold hitObject. split; [|split].
  - intros i H. destruct (hitFrom_Some objs pt _ i H) as (Hi & o & H1 & H2 & H3).
    exists o. repeat split; try assumption. intros j o' Hj Hj'.
    apply (H3 j); [|exact Hj']. apply lookup_lt_Some in Hj'. lia.
  - rewrite hitFrom_None. split.
    + intros H o Ho. apply list_elem_of_lookup in Ho as [j Hj].
      apply (H j); [|exact Hj]. by apply lookup_lt_Some in Hj.
    + intros H j o _ Hj. apply H. apply list_elem_of_lookup. eauto.
  - intros objs' Hg.
    assert (length objs = length objs') as ->.
    { rewrite <- (length_map geometry objs), Hg. apply length_map. }
    by apply hitFrom_geometry.
Qed.

Lemma lamp_is_hit : hitObject initialObjects (mkVec2 720 150) = Some 0%nat.
Proof.
  unfold hitObject, initialObjects. simpl.
  unfold containsPt, TILE. simpl. rbool. reflexivity.
Qed.

Lemma hitObject_spec_witness :
  exists o, initialObjects !! 0%nat = Some o /\
            containsPt o (mkVec2 720 150) = true.
Proof.
  destruct (proj1 (hitObject_spec initialObjects (mkVec2 720 150)) 0%nat
              lamp_is_hit) as (o & H1 & H2 & _).
  exists o. by split.
Defined.

(** ** Clicking on the scene *)

Lemma toggleKey_geometry k o : geometry (toggleKey k o) = geometry o.
Proof. reflexivity. Qed.

Lemma toggleKey_state k o :
  o_state (toggleKey k o) =
    Some (<[k := JBool (negb (jsTruthy (o_state o ≫= (.!! k))))]>
            (default ∅ (o_state o))).
Proof. reflexivity. Qed.

Lemma toggleKey_twice k o :
  o_state (toggleKey k (toggleKey k o)) =
    Some (<[k := JBool (jsTruthy (o_state o ≫= (.!! k)))]>
            (default ∅ (o_state o))).
Proof.
  rewrite (toggleKey_state k (toggleKey k o)), toggleKey_state. simpl.
  rewrite lookup_insert_eq. simpl. rewrite negb_involutive.
  by rewrite insert_insert_eq.
Qed.

Lemma hit_lookup objs pt i obj :
  hitObject objs pt = Some i -> objs !! i = Some obj ->
  hitObject objs pt ≫= (λ i, pair i <$> objs !! i) = Some (i, obj).
Proof. intros -> H. simpl. by rewrite H. Qed.

Lemma geometry_insert objs i obj obj' :
  objs !! i = Some obj -> geometry obj' = geometry obj ->
  map geometry (<[i := obj']> objs) = map geometry objs.
Proof.
  intros Hi Hg. change (geometry <$> <[i:=obj']> objs = geometry <$> objs).
  rewrite list_fmap_insert, Hg. apply list_insert_id.
  by rewrite list_lookup_fmap, Hi.
Qed.

(** What a click on an interactive lamp or board does. *)
Lemma onPointerDown_toggle pt sc i obj k :
  hitObject (sc_objects sc) pt = Some i ->
  sc_objects sc !! i = Some obj ->
  o_interactive obj = true -> toggledKey (o_type obj) = Some k ->
  (onPointerDown pt sc).1 =
    mkScene (<[i := toggleKey k obj]> (sc_objects sc)) (sc_target sc)
      (sc_ripples (onPointerDown pt sc).1) /\
  (onPointerDown pt sc).2 =
    [MsgObject (o_id obj) (default ∅ (o_state (toggleKey k obj)))].
Proof.
  intros Hh Hi Hint Hk. unfold onPointerDown.
  rewrite (hit_lookup _ _ _ _ Hh Hi), Hint.
  destruct (o_type obj); simpl in Hk; try discriminate;
    injection Hk as <-; by split.
Qed.

(** X19: a click that hits nothing, or an object that is not interactive,
    or a rug, sets the click as the target, adds a ripple there, changes no
    object and posts nothing.  A click on an interactive lamp (board)
    leaves the target alone, flips the truth value of its "on"
    ("highlight") key to a boolean, keeps the other keys, the geometry and
    the other objects, and posts one object message with the object's id
    and its new state; a second click on the same spot brings the key back
    to the boolean of its first truth value. *)
Theorem pointer_down pt sc :
  ((hitObject (sc_objects sc) pt = None \/
    exists i obj, hitObject (sc_objects sc) pt = Some i /\
      sc_objects sc !! i = Some obj /\
      (o_interactive obj = false \/ o_type obj = Rug)) ->
   onPointerDown pt sc =
     (mkScene (sc_objects sc) (Some pt)
        (sc_ripples sc ++ [mkRipple (vx pt) (vy pt) 0 1]), [])) /\
  (forall i obj k,
     hitObject (sc_objects sc) pt = Some i ->
     sc_objects sc !! i = Some obj ->
     o_interactive obj = true -> toggledKey (o_type obj) = Some k ->
     let r := onPointerDown pt sc in
     let old := default ∅ (o_state obj) in
     sc_target r.1 = sc_target sc /\
     map geometry (sc_objects r.1) = map geometry (sc_objects sc) /\
     (forall j, j <> i -> sc_objects r.1 !! j = sc_objects sc !! j) /\
     (exists st',
        sc_objects r.1 !! i = Some (withState obj st') /\
        r.2 = [MsgObject (o_id obj) st'] /\
        st' !! k = Some (JBool (negb (jsTruthy (old !! k)))) /\
        forall k', k' <> k -> st' !! k' = old !! k') /\
     (exists st'',
        sc_objects (onPointerDown pt r.1).1 !! i = Some (withState obj st'') /\
        st'' !! k = Some (JBool (jsTruthy (old !! k))) /\
        forall k', k' <> k -> st'' !! k' = old !! k')).
Proof.
  split.
  - intros [Hn|(i & obj & Hh & Hi & Hc)]; unfold onPointerDown.
    + by rewrite Hn.
    + rewrite (hit_lookup _ _ _ _ Hh Hi).
      destruct Hc as [-> | Hr]; [reflexivity|].
      rewrite Hr. by destruct (o_interactive obj).
  - intros i obj k Hh Hi Hint Hk r old. subst r.
    destruct (onPointerDown_toggle pt sc i obj k Hh Hi Hint Hk) as [H1 H2].
    assert (i < length (sc_objects sc))%nat as Hlen
      by (by apply lookup_lt_Some in Hi).
    assert (jsTruthy (o_state obj ≫= (.!! k)) = jsTruthy (old !! k)) as Hcur.
    { subst old. destruct (o_state obj); simpl; [reflexivity|].
      by rewrite lookup_empty. }
    rewrite H1. simpl. split; [reflexivity|].
    split; [by apply (geometry_insert _ _ obj)|].
    split; [intros j Hj; by apply list_lookup_insert_ne|]. split.
    + exists (default ∅ (o_state (toggleKey k obj))).
      split; [by rewrite list_lookup_insert_eq|]. split; [exact H2|].
      rewrite toggleKey_state. simpl. rewrite Hcur.
      split; [apply lookup_insert_eq|].
      intros k' Hk'. by apply lookup_insert_ne.
    + set (sc1 := mkScene (<[i:=toggleKey k obj]> (sc_objects sc))
                    (sc_target sc) (sc_ripples (onPointerDown pt sc).1)).
      assert (hitObject (sc_objects sc1) pt = Some i) as Hh1.
      { rewrite <- Hh. unfold hitObject, sc1. simpl.
        rewrite length_insert. apply hitFrom_geometry.
        by apply (geometry_insert _ _ obj). }
      assert (sc_objects sc1 !! i = Some (toggleKey k obj)) as Hi1
        by (by apply list_lookup_insert_eq).
      destruct (onPointerDown_toggle pt sc1 i (toggleKey k obj) k Hh1 Hi1
                  Hint Hk) as [H1' _].
      rewrite H1'. simpl. rewrite list_insert_insert_eq.
      exists (<[k := JBool (jsTruthy (old !! k))]> old).
      split.
      * rewrite list_lookup_insert_eq by exact Hlen.
        unfold withState at 1. unfold toggleKey at 1.
        rewrite toggleKey_state. simpl. rewrite lookup_insert_eq. simpl.
        rewrite negb_involutive, insert_insert_eq, Hcur. reflexivity.
      * split; [apply lookup_insert_eq|].
        intros k' Hk'. by apply lookup_insert_ne.
Qed.

Lemma floor_is_free : hitObject initialObjects (mkVec2 10 10) = None.
Proof.
  unfold hitObject, initialObjects. simpl.
  unfold containsPt, TILE. simpl. rbool. reflexivity.
Qed.

Lemma pointer_down_witness :
  onPointerDown (mkVec2 10 10) (mkScene initialObjects None []) =
    (mkScene initialObjects (Some (mkVec2 10 10)) [mkRipple 10 10 0 1], []) /\
  (exists st',
     (onPointerDown (mkVec2 720 150) (mkScene initialObjects None [])).2
       = [MsgObject "lamp1" st'] /\
     st' !! "on" = Some (JBool false)).
Proof.
  split.
  - apply (proj1 (pointer_down (mkVec2 10 10) (mkScene initialObjects None []))).
    left. apply floor_is_free.
  - destruct (proj2 (pointer_down (mkVec2 720 150)
                       (mkScene initialObjects None [])) 0%nat
                (mkObject "lamp1" Lamp (11 * TILE) (2 * TILE) TILE (TILE * 2) true
                   (Some {[ "on" := JBool true ]})) "on"
                lamp_is_hit eq_refl eq_refl eq_refl)
      as (_ & _ & _ & (st' & _ & Hpost & Hon & _) & _).
    exists st'. split; [exact Hpost|]. rewrite Hon. simpl.
    by rewrite lookup_singleton_eq.
Defined.

Lemma findObject_mergeObject_same id s objs o :
  findObject id objs = Some o ->
  findObject id (mergeObject id s objs)
    = Some (withState o (mergeState (o_state o) s)).
Proof.
  induction objs as [|o1 rest IH]; [discriminate|]. simpl.
  destruct (bool_decide (o_id o1 = id)) eqn:E; simpl; rewrite E.
  - by intros [= ->].
  - exact IH.
Qed.

(** X20: a toggle reaches the peers.  When a peer that has an object with
    the same id reconciles the object message posted by a click, its object
    agrees with the sender's new state on every key of that state, the
    toggled key included, keeps its other keys and its geometry. *)
Theorem toggle_reaches_peer pt sc i obj k env sim now stP objP :
  hitObject (sc_objects sc) pt = Some i ->
  sc_objects sc !! i = Some obj ->
  o_interactive obj = true -> toggledKey (o_type obj) = Some k ->
  findObject (o_id obj) (objects stP) = Some objP ->
  exists st' objP',
    (onPointerDown pt sc).2 = [MsgObject (o_id obj) st'] /\
    sc_objects (onPointerDown pt sc).1 !! i = Some (withState obj st') /\
    findObject (o_id obj)
      (objects (onMsg env sim now (MsgObject (o_id obj) st') stP).1)
      = Some objP' /\
    geometry objP' = geometry objP /\
    (forall key, is_Some (st' !! key) ->
       default ∅ (o_state objP') !! key = st' !! key) /\
    (forall key, st' !! key = None ->
       default ∅ (o_state objP') !! key = default ∅ (o_state objP) !! key) /\
    default ∅ (o_state objP') !! k
      = Some (JBool (negb (jsTruthy (default ∅ (o_state obj) !! k)))).
Proof.
  intros Hh Hi Hint Hk Hp.
  destruct (onPointerDown_toggle pt sc i obj k Hh Hi Hint Hk) as [H1 H2].
  exists (default ∅ (o_state (toggleKey k obj))),
         (withState objP
            (mergeState (o_state objP) (default ∅ (o_state (toggleKey k obj))))).
  split; [exact H2|]. split.
  { rewrite H1. simpl. rewrite list_lookup_insert_eq
      by (by apply lookup_lt_Some in Hi). reflexivity. }
  split.
  { simpl. rewrite Hp. simpl. by apply findObject_mergeObject_same. }
  split; [reflexivity|].
  assert (forall key v, default ∅ (o_state (toggleKey k obj)) !! key = Some v ->
            mergeState (o_state objP) (default ∅ (o_state (toggleKey k obj)))
              !! key = Some v) as Hin.
  { intros key v Hv. unfold mergeState. by apply lookup_union_Some_l. }
  split; [|split].
  - intros key [v Hv]. rewrite Hv. by apply Hin.
  - intros key Hn.
    change (mergeState (o_state objP) (default ∅ (o_state (toggleKey k obj)))
              !! key = default ∅ (o_state objP) !! key).
    unfold mergeState. by rewrite lookup_union_r.
  - apply Hin. rewrite toggleKey_state. simpl.
    rewrite lookup_insert_eq. do 3 f_equal.
    destruct (o_state obj); simpl; [reflexivity|]. by rewrite lookup_empty.
Qed.

Lemma toggle_reaches_peer_witness :
  exists st' objP',
    (onPointerDown (mkVec2 720 150) (mkScene initialObjects None [])).2
      = [MsgObject "lamp1" st'] /\
    findObject "lamp1"
      (objects (onMsg me_env rest_sim 1700000000000 (MsgObject "lamp1" st')
                  room_store).1) = Some objP' /\
    default ∅ (o_state objP') !! "on" = Some (JBool false).
Proof.
  destruct (toggle_reaches_peer (mkVec2 720 150)
              (mkScene initialObjects None []) 0%nat
              (mkObject "lamp1" Lamp (11 * TILE) (2 * TILE) TILE (TILE * 2) true
                 (Some {[ "on" := JBool true ]})) "on"
              me_env rest_sim 1700000000000 room_store
              (mkObject "lamp1" Lamp (11 * TILE) (2 * TILE) TILE (TILE * 2) true
                 (Some {[ "on" := JBool true ]}))
              lamp_is_hit eq_refl eq_refl eq_refl eq_refl)
    as (st' & objP' & H1 & _ & H3 & _ & _ & _ & H7).
  exists st', objP'. split; [exact H1|]. split; [exact H3|].
  rewrite H7. simpl. by rewrite lookup_singleton_eq.
Defined.

(** ** Ripples *)

Lemma stepRipples_elem dt rs r' :
  r' ∈ stepRipples dt rs <->
  0 < r_a r' /\
  exists r, r ∈ rs /\
    r' = mkRipple (r_x r) (r_y r) (r_r r + 90 * dt) (r_a r - 1.2 * dt).
Proof.
  unfold stepRipples. rewrite list_elem_of_In, List.filter_In, List.in_map_iff.
  rewrite gtb_spec. split.
  - intros [(r & <- & Hr) Ha]. split; [exact Ha|]. exists r.
    split; [by apply list_elem_of_In | reflexivity].
  - intros [Ha (r & Hr & ->)]. split; [|exact Ha]. exists r.
    split; [reflexivity | by apply list_elem_of_In].
Qed.

Lemma ripplesAfter_elem dts : forall rs r',
  r' ∈ ripplesAfter dts rs ->
  exists r, r ∈ rs /\
    r_x r' = r_x r /\ r_y r' = r_y r /\
    r_r r' = r_r r + 90 * sumR dts /\
    r_a r' = r_a r - 1.2 * sumR dts /\
    (dts <> [] -> 0 < r_a r').
Proof.
  induction dts as [|dt dts IH]; intros rs r' H.
  - exists r'. simpl in *. repeat split; try lra; [exact H | done].
  - simpl in H. destruct (IH _ _ H) as (r1 & H1 & Hx & Hy & Hr & Ha & Hpos).
    apply stepRipples_elem in H1 as [Ha1 (r & Hin & ->)]. simpl in *.
    exists r. repeat split; try assumption; try lra.
    intros _. destruct dts as [|d dts']; [|by apply Hpos].
    simpl in *. lra.
Qed.

(** X21: ripples fade.  After any ticks, every ripple still shown is one
    of the earlier ripples at the same place, its radius grown by 90 and
    its opacity reduced by 1.2 per second of elapsed tick time, and its
    opacity is positive; ticks never add a ripple; and once the elapsed
    tick time times 1.2 reaches the largest opacity, no ripple is left. *)
Theorem ripples_fade dts rs :
  (forall r', r' ∈ ripplesAfter dts rs ->
     exists r, r ∈ rs /\
       r_x r' = r_x r /\ r_y r' = r_y r /\
       r_r r' = r_r r + 90 * sumR dts /\
       r_a r' = r_a r - 1.2 * sumR dts /\
       (dts <> [] -> 0 < r_a r')) /\
  (length (ripplesAfter dts rs) <= length rs)%nat /\
  (forall a0, dts <> [] -> (forall r, r ∈ rs -> r_a r <= a0) ->
     a0 <= 1.2 * sumR dts -> ripplesAfter dts rs = []).
Proof.
  split; [apply ripplesAfter_elem|]. split.
  - revert rs. induction dts as [|dt dts IH]; intros rs; [done|].
    simpl. etransitivity; [apply IH|].
    unfold stepRipples. etransitivity; [apply List.filter_length_le|].
    by rewrite length_map.
  - intros a0 Hne Hall Hsum.
    destruct (ripplesAfter dts rs) as [|r' l] eqn:E; [reflexivity|].
    destruct (ripplesAfter_elem dts rs r') as (r & Hin & _ & _ & _ & Ha & Hpos).
    { rewrite E. apply list_elem_of_here. }
    specialize (Hpos Hne). specialize (Hall r Hin). lra.
Qed.

Lemma ripples_fade_witness :
  ripplesAfter [0.05; 0.05; 0.05; 0.05; 0.05; 0.05; 0.05; 0.05; 0.05; 0.05;
                0.05; 0.05; 0.05; 0.05; 0.05; 0.05; 0.05]
    [mkRipple 10 10 0 1] = [].
Proof.
  apply (proj2 (proj2 (ripples_fade _ [mkRipple 10 10 0 1])) 1).
  - discriminate.
  - intros r Hr. apply list_elem_of_singleton in Hr as ->. simpl. lra.
  - unfold sumR. simpl. lra.
Defined.

(** ** Handler sets *)

Lemma elem_of_setAdd g fn s : g ∈ setAdd fn s <-> g = fn \/ g ∈ s.
Proof.
  unfold setAdd. case_bool_decide as H.
  - split; [by right|]. intros [->|?]; assumption.
  - rewrite elem_of_app, list_elem_of_singleton. tauto.
Qed.

Lemma NoDup_setAdd fn s : NoDup s -> NoDup (setAdd fn s).
Proof.
  intros H. unfold setAdd. case_bool_decide as Hin; [exact H|].
  apply NoDup_app. split; [exact H|]. split; [|apply NoDup_singleton].
  intros x Hx Hx'. apply list_elem_of_singleton in Hx' as ->. contradiction.
Qed.

Lemma elem_of_setDelete g fn s : g ∈ setDelete fn s <-> g ∈ s /\ g <> fn.
Proof.
  unfold setDelete. rewrite list_elem_of_In, List.filter_In, <- list_elem_of_In.
  rewrite negb_true_iff, bool_decide_eq_false. tauto.
Qed.

Lemma setDelete_sublist fn s : setDelete fn s `sublist_of` s.
Proof.
  unfold setDelete. induction s as [|g s IH]; [done|]. simpl.
  destruct (negb (bool_decide (g = fn))).
  - by apply sublist_skip.
  - by apply sublist_cons.
Qed.

Lemma NoDup_setDelete fn s : NoDup s -> NoDup (setDelete fn s).
Proof. intros H. exact (sublist_NoDup _ _ H (setDelete_sublist fn s)). Qed.

Lemma setDelete_notin fn s : fn ∉ s -> setDelete fn s = s.
Proof.
  unfold setDelete. induction s as [|g s IH]; [done|]. intros Hn. simpl.
  apply not_elem_of_cons in Hn as [Hne Hn].
  rewrite bool_decide_eq_false_2 by congruence. simpl. by rewrite IH.
Qed.

Lemma setDelete_app fn s t : setDelete fn (s ++ t) = setDelete fn s ++ setDelete fn t.
Proof. unfold setDelete. apply List.filter_app. Qed.

Lemma setDelete_setAdd_fresh fn s : fn ∉ s -> setDelete fn (setAdd fn s) = s.
Proof.
  intros Hn. unfold setAdd. rewrite bool_decide_eq_false_2 by exact Hn.
  rewrite setDelete_app, setDelete_notin by exact Hn.
  unfold setDelete. simpl. rewrite bool_decide_eq_true_2 by reflexivity.
  simpl. apply app_nil_r.
Qed.

Lemma setAdd_idem fn s : setAdd fn (setAdd fn s) = setAdd fn s.
Proof.
  unfold setAdd at 1. rewrite bool_decide_eq_true_2; [reflexivity|].
  apply elem_of_setAdd. by left.
Qed.

Lemma prefix_append p x : String.prefix p (p +:+ x) = true.
Proof.
  induction p as [|a p IH]; simpl; [by destruct x|].
  destruct (Ascii.ascii_dec a a); [exact IH | congruence].
Qed.

(** ** The localStorage transport *)

Section LocalStorageFacts.
Context {W : Type} (behave : nat -> Handler W).
Context (JSON_parse : string -> option BroadcastMessage).
Context (JSON_stringify : BroadcastMessage -> string).
Context (removeItem : string -> W -> W) (lsOf : W -> LsChannel).

Lemma onStorage_accepts (hs : W -> list (Handler W)) key k v m w :
  k <> "" -> v <> "" ->
  String.prefix (localStoragePrefix key) k = true ->
  JSON_parse v = Some m ->
  let r := onStorage hs JSON_parse removeItem key
             (mkStorageEvent (Some k) (Some v)) w in
  calls r = hs w /\
  world r = removeItem k (world (deliver (hs w) m w)) /\
  value r = Some tt.
Proof.
  intros Hk Hv Hpre Hparse. cbv zeta.
  unfold onStorage, truthy. simpl.
  rewrite !bool_decide_eq_false_2 by assumption.
  rewrite Hpre, Hparse. unfold tryCatch, bind. simpl.
  destruct (deliver_calls m (hs w) w) as [Hc Hval].
  rewrite Hval. simpl. rewrite Hc, app_nil_r. by repeat split.
Qed.

(** X22: round trip through the storage.  What [post] writes for a room
    is accepted by the storage listener of every tab on the same room: the
    posted message (as parsed back) is delivered to all its handlers, in
    order, and the item is removed afterwards.  This needs [JSON.parse] to
    undo [JSON.stringify] on the message. *)
Theorem ls_post_round_trip key ts rnd m w :
  JSON_parse (JSON_stringify m) = Some m -> JSON_stringify m <> "" ->
  ls_listening (lsOf w) = true ->
  let kv := lsPost JSON_stringify key ts rnd m in
  let r := lsStorageEvent behave JSON_parse removeItem lsOf key
             (mkStorageEvent (Some kv.1) (Some kv.2)) w in
  calls r = map behave (ls_handlers (lsOf w)) /\
  world r =
    removeItem kv.1
      (world (deliver (map behave (ls_handlers (lsOf w))) m w)) /\
  value r = Some tt.
Proof.
  intros Hparse Hne Hl. cbv zeta. unfold lsStorageEvent. rewrite Hl.
  apply (onStorage_accepts (fun w => map behave (ls_handlers (lsOf w))));
    try assumption.
  - unfold lsPost, localStoragePrefix. simpl. by destruct key.
  - unfold lsPost. simpl. apply prefix_append.
Qed.

(** X23: a storage event is dropped, with no handler called and the world
    left as it was, when the listener is detached, when its key or its new
    value is null or empty, when its key does not start with the prefix of
    the room, or when its value does not parse (then the item is not
    removed either).  No exception leaves the listener. *)
Theorem ls_event_dropped key e w :
  (ls_listening (lsOf w) = false \/
   e_key e = None \/ e_key e = Some "" \/
   e_newValue e = None \/ e_newValue e = Some "" \/
   (exists k, e_key e = Some k /\
      String.prefix (localStoragePrefix key) k = false) \/
   (exists v, e_newValue e = Some v /\ JSON_parse v = None)) ->
  let r := lsStorageEvent behave JSON_parse removeItem lsOf key e w in
  calls r = [] /\ world r = w /\ value r = Some tt.
Proof.
  intros H. cbv zeta. unfold lsStorageEvent.
  destruct (ls_listening (lsOf w)) eqn:El; [|by repeat split].
  destruct H as [H|H]; [discriminate|].
  unfold onStorage.
  destruct e as [ek ev]. simpl in *.
  destruct ek as [k|]; simpl; [|by repeat split].
  case_bool_decide as Hk; [by repeat split|].
  destruct ev as [v|]; simpl; [|by repeat split].
  case_bool_decide as Hv; [by repeat split|].
  destruct (String.prefix (localStoragePrefix key) k) eqn:Hp;
    [|by repeat split].
  destruct H as [H|[H|[H|[H|[H|H]]]]]; try congruence.
  - destruct H as (k' & [= <-] & H). congruence.
  - destruct H as (v' & [= <-] & H). unfold tryCatch. rewrite H.
    by repeat split.
Qed.
End LocalStorageFacts.

Lemma ls_post_round_trip_witness :
  calls (lsStorageEvent demoBehave demoParse demoRemove demoLs "vm_room_demo"
           (mkStorageEvent
              (Some (lsPost demoStringify "vm_room_demo" "1700000000000" "9f3a"
                       (MsgLeave "peer")).1)
              (Some (lsPost demoStringify "vm_room_demo" "1700000000000" "9f3a"
                       (MsgLeave "peer")).2)) [])
    = [logA; boom; logC].
Proof.
  apply (ls_post_round_trip demoBehave demoParse demoStringify demoRemove demoLs
           "vm_room_demo" "1700000000000" "9f3a" (MsgLeave "peer") []).
  - reflexivity.
  - discriminate.
  - reflexivity.
Defined.

Lemma ls_event_dropped_witness :
  calls (lsStorageEvent demoBehave demoParse demoRemove demoLs "vm_room_demo"
           (mkStorageEvent (Some "vm_avatar_profile") (Some "leave peer")) [])
    = [].
Proof.
  apply (ls_event_dropped demoBehave demoParse demoRemove demoLs
           "vm_room_demo"
           (mkStorageEvent (Some "vm_avatar_profile") (Some "leave peer")) []).
  do 5 right. left. exists "vm_avatar_profile". by split.
Defined.

(** X24: subscriptions of the localStorage channel.  A function
    subscribed twice is registered once; removing one handler keeps the
    others, in their order.  [subscribe] and [unsubscribe] never touch the
    storage listener; the closure returned by [subscribe] detaches it
    exactly when it leaves the handler set empty, and once detached the
    listener is not attached again by any later operation. *)
Theorem ls_subscriptions :
  (forall ops, NoDup (ls_handlers (fold_left lsApply ops lsCreate))) /\
  (forall fn ch g,
     g ∈ ls_handlers (lsSubscribe fn ch) <-> g = fn \/ g ∈ ls_handlers ch) /\
  (forall fn ch,
     lsSubscribe fn (lsSubscribe fn ch) = lsSubscribe fn ch /\
     ls_listening (lsSubscribe fn ch) = ls_listening ch /\
     ls_listening (lsUnsubscribe fn ch) = ls_listening ch /\
     ls_handlers (lsUnsubscribe fn ch) = ls_handlers (lsOff fn ch) /\
     ls_handlers (lsUnsubscribe fn ch) `sublist_of` ls_handlers ch /\
     (forall g, g ∈ ls_handlers (lsUnsubscribe fn ch)
                <-> g ∈ ls_handlers ch /\ g <> fn) /\
     (ls_listening (lsOff fn ch) = true <->
        ls_listening ch = true /\ exists g, g ∈ ls_handlers ch /\ g <> fn)) /\
  (forall ops ch,
     ls_listening ch = false ->
     ls_listening (fold_left lsApply ops ch) = false).
Proof.
  split; [|split; [|split]].
  - intros ops.
    assert (forall ch, NoDup (ls_handlers ch) ->
              NoDup (ls_handlers (fold_left lsApply ops ch))) as H.
    { induction ops as [|op ops IH]; intros ch Hch; [exact Hch|].
      simpl. apply IH. destruct op; simpl;
        [by apply NoDup_setAdd | by apply NoDup_setDelete
        | by apply NoDup_setDelete]. }
    apply H. simpl. apply NoDup_nil_2.
  - intros fn ch g. simpl. apply elem_of_setAdd.
  - intros fn ch.
    split; [unfold lsSubscribe; simpl; by rewrite setAdd_idem|].
    split; [reflexivity|]. split; [reflexivity|]. split; [reflexivity|].
    split; [apply setDelete_sublist|].
    split; [intros g; apply elem_of_setDelete|].
    simpl. split.
    + intros H. case_bool_decide as Hl; [discriminate|]. split; [exact H|].
      destruct (setDelete fn (ls_handlers ch)) as [|g l] eqn:E; [done|].
      exists g. apply elem_of_setDelete. rewrite E. apply list_elem_of_here.
    + intros [Hl (g & Hg & Hne)].
      rewrite bool_decide_eq_false_2; [exact Hl|].
      intros Hlen. apply nil_length_inv in Hlen.
      assert (g ∈ setDelete fn (ls_handlers ch)) as Hin
        by (by apply elem_of_setDelete).
      rewrite Hlen in Hin. by apply elem_of_nil in Hin.
  - induction ops as [|op ops IH]; intros ch Hch; [exact Hch|].
    simpl. apply IH. destruct op; simpl; try exact Hch.
    case_bool_decide; [reflexivity | exact Hch].
Qed.

Lemma ls_subscriptions_witness :
  ls_listening
    (fold_left lsApply [LsSubscribe 7%nat] (lsOff 3%nat (lsSubscribe 3%nat lsCreate)))
    = false.
Proof.
  apply (proj2 (proj2 (proj2 ls_subscriptions))). reflexivity.
Defined.

(** ** The Supabase transport *)

Lemma ensureSubscribe_joins ch :
  sb_subscribed (ensureSubscribe ch) = true /\
  sb_handlers (ensureSubscribe ch) = sb_handlers ch /\
  sb_sent (ensureSubscribe ch) = sb_sent ch /\
  sb_joins (ensureSubscribe ch)
    = if sb_subscribed ch then sb_joins ch else S (sb_joins ch).
Proof. unfold ensureSubscribe. by destruct (sb_subscribed ch) eqn:E. Qed.

(** The state of a channel after some operations, from an invariant
    state. *)
Lemma sb_run ops : forall ch,
  (sb_joins ch = if sb_subscribed ch then 1 else 0)%nat ->
  NoDup (sb_handlers ch) ->
  let ch' := fold_left sbApply ops ch in
  (sb_joins ch' = if sb_subscribed ch' then 1 else 0)%nat /\
  NoDup (sb_handlers ch') /\
  sb_sent ch' = sb_sent ch ++ sbPosts ops /\
  (sb_subscribed ch' = true <->
     sb_subscribed ch = true \/ existsb sbJoins ops = true).
Proof.
  induction ops as [|op ops IH]; intros ch Hj Hn; cbv zeta.
  - simpl. rewrite app_nil_r. repeat split; try assumption.
    + by left.
    + by intros [?|?].
  - simpl fold_left.
    destruct (ensureSubscribe_joins ch) as (E1 & E2 & E3 & E4).
    assert (sb_joins (ensureSubscribe ch) = 1%nat) as E5.
    { rewrite E4, Hj. by destruct (sb_subscribed ch). }
    destruct op as [m|fn|fn].
    + change (sbApply ch (SbPost m)) with (sbPost m ch).
      destruct (IH (sbPost m ch)) as (H1 & H2 & H3 & H4).
      { simpl. by rewrite E1, E5. }
      { simpl. by rewrite E2. }
      split; [exact H1|]. split; [exact H2|]. split.
      * rewrite H3. simpl. rewrite E3. by rewrite <- app_assoc.
      * split; [intros _; by right|]. intros _. apply H4. left. exact E1.
    + change (sbApply ch (SbSubscribe fn)) with (sbSubscribe fn ch).
      destruct (IH (sbSubscribe fn ch)) as (H1 & H2 & H3 & H4).
      { simpl. by rewrite E1, E5. }
      { simpl. rewrite E2. by apply NoDup_setAdd. }
      split; [exact H1|]. split; [exact H2|]. split.
      * rewrite H3. simpl. by rewrite E3.
      * split; [intros _; by right|]. intros _. apply H4. left. exact E1.
    + change (sbApply ch (SbUnsubscribe fn)) with (sbUnsubscribe fn ch).
      destruct (IH (sbUnsubscribe fn ch)) as (H1 & H2 & H3 & H4).
      { exact Hj. }
      { simpl. by apply NoDup_setDelete. }
      split; [exact H1|]. split; [exact H2|]. split.
      * rewrite H3. reflexivity.
      * exact H4.
Qed.

(** X25: over any sequence of posts, subscriptions and unsubscriptions on
    a fresh Supabase channel, [channel.subscribe()] is called at most once,
    namely at the first post or subscription and never by an
    unsubscription; every post is sent, in order; and no function is
    registered twice. *)
Theorem sb_channel_joined_once ops :
  let ch := fold_left sbApply ops sbCreate in
  (sb_joins ch <= 1)%nat /\
  (sb_joins ch = 1%nat <-> existsb sbJoins ops = true) /\
  (sb_subscribed ch = true <-> sb_joins ch = 1%nat) /\
  sb_sent ch = sbPosts ops /\
  NoDup (sb_handlers ch).
Proof.
  cbv zeta.
  destruct (sb_run ops sbCreate eq_refl (NoDup_nil_2 (A:=nat))) as (H1 & H2 & H3 & H4).
  simpl in H3, H4.
  assert (sb_subscribed (fold_left sbApply ops sbCreate) = existsb sbJoins ops)
    as Hs.
  { destruct (existsb sbJoins ops).
    - apply H4. by right.
    - apply not_true_is_false. intros Ht.
      destruct (proj1 H4 Ht); discriminate. }
  rewrite Hs in H1. rewrite Hs, H1.
  destruct (existsb sbJoins ops).
  - repeat split; try assumption; lia.
  - repeat split; try assumption; try lia; discriminate.
Qed.

(** ** The BroadcastChannel transport *)

Section BroadcastFacts.
Context {W : Type} (behave : nat -> Handler W) (bcOf : W -> BcModule).

Lemma bcMessage_calls key m w :
  calls (bcMessage behave bcOf key m w)
    = map behave (default [] (bc_handlers (bcOf w) !! key)) /\
  value (bcMessage behave bcOf key m w) = Some tt.
Proof.
  unfold bcMessage, broadcastOnMessage. rewrite lookup_fmap.
  destruct (bc_handlers (bcOf w) !! key) as [set|]; simpl; [|by split].
  apply deliver_calls.
Qed.

(** X26: handler sets of the BroadcastChannel transport are kept per room
    key and shared by all channel objects of a key.  After a subscription
    under a key, a message event on that key calls the handlers registered
    before, in order, and then the new one (once, also if it was registered
    before); message events on other keys call whom they called before.
    Unsubscribing under a key that has no handler set changes nothing, and
    a key without a handler set gets no call. *)
Theorem bc_subscriptions key fn m w w' :
  (bcOf w' = bcSubscribe key fn (bcOf w) ->
     calls (bcMessage behave bcOf key m w')
       = map behave (setAdd fn (default [] (bc_handlers (bcOf w) !! key))) /\
     (forall key', key' <> key ->
        calls (bcMessage behave bcOf key' m w')
          = calls (bcMessage behave bcOf key' m w)) /\
     bc_channels (bcOf w') = bc_channels (bcOf w)) /\
  (bcOf w' = bcUnsubscribe key fn (bcOf w) ->
     calls (bcMessage behave bcOf key m w')
       = map behave (setDelete fn (default [] (bc_handlers (bcOf w) !! key))) /\
     (forall key', key' <> key ->
        calls (bcMessage behave bcOf key' m w')
          = calls (bcMessage behave bcOf key' m w))) /\
  (bc_handlers (bcOf w) !! key = None ->
     bcUnsubscribe key fn (bcOf w) = bcOf w /\
     calls (bcMessage behave bcOf key m w) = []) /\
  bc_handlers (bcOpen key (bcOf w)) = bc_handlers (bcOf w).
Proof.
  split; [|split; [|split]].
  - intros H. split; [|split].
    + rewrite (proj1 (bcMessage_calls key m w')), H. simpl.
      by rewrite lookup_insert_eq.
    + intros key' Hne.
      rewrite (proj1 (bcMessage_calls key' m w')),
        (proj1 (bcMessage_calls key' m w)), H. simpl.
      by rewrite lookup_insert_ne.
    + by rewrite H.
  - intros H. split.
    + rewrite (proj1 (bcMessage_calls key m w')), H. unfold bcUnsubscribe.
      destruct (bc_handlers (bcOf w) !! key) as [set|] eqn:E; simpl.
      * by rewrite lookup_insert_eq.
      * by rewrite E.
    + intros key' Hne.
      rewrite (proj1 (bcMessage_calls key' m w')),
        (proj1 (bcMessage_calls key' m w)), H. unfold bcUnsubscribe.
      destruct (bc_handlers (bcOf w) !! key) as [set|] eqn:E; simpl;
        [|reflexivity].
      by rewrite lookup_insert_ne.
  - intros H. split.
    + unfold bcUnsubscribe. by rewrite H.
    + rewrite (proj1 (bcMessage_calls key m w)), H. reflexivity.
  - reflexivity.
Qed.
End BroadcastFacts.

Lemma bc_subscriptions_witness :
  calls (bcMessage idleBehave (fun w => w) "vm_room_demo" (MsgLeave "peer")
           (bcSubscribe "vm_room_demo" 2%nat (mkBc ∅ ∅)))
    = map idleBehave
        (setAdd 2%nat (default [] (bc_handlers (mkBc ∅ ∅) !! "vm_room_demo"))) /\
  calls (bcMessage idleBehave (fun w => w) "vm_room_demo" (MsgLeave "peer")
           (bcUnsubscribe "vm_room_demo" 2%nat (mkBc ∅ ∅)))
    = map idleBehave
        (setDelete 2%nat
           (default [] (bc_handlers (mkBc ∅ ∅) !! "vm_room_demo"))) /\
  bcUnsubscribe "vm_room_other" 0%nat (demoBc []) = demoBc [] /\
  calls (bcMessage demoBehave demoBc "vm_room_other" (MsgLeave "peer") []) = [].
Proof.
  split; [|split].
  - apply (proj1 (bc_subscriptions idleBehave (fun w => w) "vm_room_demo" 2%nat
                    (MsgLeave "peer") (mkBc ∅ ∅)
                    (bcSubscribe "vm_room_demo" 2%nat (mkBc ∅ ∅)))).
    reflexivity.
  - apply (proj1 (proj2 (bc_subscriptions idleBehave (fun w => w)
                           "vm_room_demo" 2%nat (MsgLeave "peer") (mkBc ∅ ∅)
                           (bcUnsubscribe "vm_room_demo" 2%nat (mkBc ∅ ∅))))).
    reflexivity.
  - apply (proj1 (proj2 (proj2 (bc_subscriptions demoBehave demoBc
                                  "vm_room_other" 0%nat (MsgLeave "peer")
                                  [] [])))).
    by apply lookup_singleton_ne.
Defined.

(** ** Choosing the transport *)

Lemma getSupabaseClient_cached rt md c :
  client md = Some c -> getSupabaseClient rt md = (Some (Some c), md).
Proof. intros H. unfold getSupabaseClient. by rewrite H. Qed.

Lemma useRoomChannel_cached rt md c :
  client md = Some c ->
  useRoomChannel rt md = (Some KSupabase, mkModules (Some c) KSupabase).
Proof.
  intros H. unfold useRoomChannel.
  rewrite (getSupabaseClient_cached rt md c H). by rewrite H.
Qed.

Lemma afterCalls_cached rts md c :
  client md = Some c -> client (afterCalls rts md) = Some c.
Proof.
  revert md. induction rts as [|rt rts IH]; intros md H; [exact H|].
  simpl. apply IH. by rewrite (useRoomChannel_cached rt md c H).
Qed.

Lemma useRoomChannel_fresh rt md :
  client md = None ->
  useRoomChannel rt md =
    match truthy (env_url rt), truthy (env_key rt) with
    | Some u, Some k =>
        if createClient rt u k
        then (Some KSupabase, mkModules (Some (u, k)) KSupabase)
        else (None, md)
    | _, _ =>
        if hasBroadcastChannel rt
        then (Some KBroadcast, mkModules None KBroadcast)
        else (Some KLocalStorage, mkModules None KLocalStorage)
    end.
Proof.
  intros H. unfold useRoomChannel, getSupabaseClient. rewrite H.
  destruct (truthy (env_url rt)) as [u|], (truthy (env_key rt)) as [k|];
    simpl; rewrite ?H; try reflexivity.
  by destruct (createClient rt u k).
Qed.

(** X27: transport selection.  The hook throws exactly when no client is
    cached, both public variables are set and non-empty, and the library's
    createClient throws on them; the module state is then left as it was,
    so the reported kind is the one of an earlier call.  When the hook
    returns, the reported kind is the kind just chosen.  Supabase is
    chosen exactly when a client is cached, or both public variables are
    set and non-empty and createClient accepts them; otherwise the
    broadcast primitive is chosen when the window has it, and storage
    polling when not.  The client is created at most once: once Supabase
    has been chosen, every later call chooses it again with the same
    client, whatever the environment has become.  A call that does not
    choose Supabase caches nothing. *)
Theorem transport_selection rt md :
  let r := useRoomChannel rt md in
  (r.1 = None <->
     client md = None /\
     exists u k, truthy (env_url rt) = Some u /\ truthy (env_key rt) = Some k /\
                 createClient rt u k = false) /\
  (r.1 = None -> r.2 = md) /\
  (forall kind, r.1 = Some kind -> getTransportKind r.2 = kind) /\
  (r.1 = Some KSupabase <->
     is_Some (client md) \/
     exists u k, truthy (env_url rt) = Some u /\ truthy (env_key rt) = Some k /\
                 createClient rt u k = true) /\
  (r.1 = Some KBroadcast -> hasBroadcastChannel rt = true) /\
  (r.1 = Some KLocalStorage -> hasBroadcastChannel rt = false) /\
  (r.1 = Some KSupabase ->
     is_Some (client r.2) /\
     forall rts rt',
       client (afterCalls rts r.2) = client r.2 /\
       (useRoomChannel rt' (afterCalls rts r.2)).1 = Some KSupabase) /\
  (r.1 <> Some KSupabase -> client r.2 = None /\ client md = None).
Proof.
  cbv zeta.
  assert (forall c k, client (mkModules (Some c) k) = Some c) as Hmk by done.
  assert (forall c,
            is_Some (client (mkModules (Some c) KSupabase)) /\
            forall rts rt',
              client (afterCalls rts (mkModules (Some c) KSupabase))
                = client (mkModules (Some c) KSupabase) /\
              (useRoomChannel rt' (afterCalls rts (mkModules (Some c) KSupabase))).1
                = Some KSupabase) as Hstable.
  { intros c. split; [by eexists|]. intros rts rt'.
    pose proof (afterCalls_cached rts _ c (Hmk c KSupabase)) as Hc.
    split; [exact Hc|]. by rewrite (useRoomChannel_cached rt' _ c Hc). }
  destruct (client md) as [c|] eqn:Ec.
  - rewrite (useRoomChannel_cached rt md c Ec). simpl.
    split; [split; [discriminate | intros [? _]; discriminate]|].
    split; [discriminate|].
    split; [by intros kind [= <-]|].
    split; [split; [intros _; left; by eexists | done]|].
    split; [discriminate|]. split; [discriminate|].
    split; [intros _; apply Hstable|]. intros H. by destruct H.
  - rewrite (useRoomChannel_fresh rt md Ec).
    destruct (truthy (env_url rt)) as [u|] eqn:Eu;
      [destruct (truthy (env_key rt)) as [k|] eqn:Ek;
       [destruct (createClient rt u k) eqn:Ecc|]|].
    + simpl.
      split; [split; [discriminate | ];
              [intros (_ & u' & k' & [= <-] & [= <-] & Hf); congruence]|].
      split; [discriminate|].
      split; [by intros kind [= <-]|].
      split; [split; [intros _; right; by exists u, k | done]|].
      split; [discriminate|]. split; [discriminate|].
      split; [intros _; apply Hstable|]. intros H. by destruct H.
    + simpl.
      split; [split; [intros _; split; [done|]; by exists u, k | done]|].
      split; [done|].
      split; [discriminate|].
      split; [split; [discriminate|];
              intros [[? ?]|(u' & k' & [= <-] & [= <-] & Ht)];
                [discriminate | congruence]|].
      split; [discriminate|]. split; [discriminate|].
      split; [discriminate|]. intros _. by rewrite Ec.
    + destruct (hasBroadcastChannel rt); simpl;
        (split; [split; [discriminate
                        | intros (_ & ? & ? & _ & ? & _); discriminate]|]);
        (split; [discriminate|]);
        (split; [by intros kind [= <-]|]);
        (split; [split; [discriminate
                        | intros [[? ?]|(? & ? & _ & ? & _)]; discriminate]|]);
        (split; [done|]); (split; [done|]);
        (split; [discriminate|]); done.
    + destruct (hasBroadcastChannel rt); simpl;
        (split; [split; [discriminate
                        | intros (_ & ? & ? & ? & _); discriminate]|]);
        (split; [discriminate|]);
        (split; [by intros kind [= <-]|]);
        (split; [split; [discriminate
                        | intros [[? ?]|(? & ? & ? & _)]; discriminate]|]);
        (split; [done|]); (split; [done|]);
        (split; [discriminate|]); done.
Qed.

(** A call with only the key set caches nothing; a call on which
    createClient throws leaves the module state as it was; a client once
    created is found again by a call that has no configuration at all. *)
Lemma transport_selection_witness :
  client (useRoomChannel (mkRuntime None (Some "anon") true lenient)
            initialModules).2 = None /\
  (useRoomChannel (mkRuntime (Some "x.supabase.co") (Some "anon") true httpOnly)
     initialModules).2 = initialModules /\
  (useRoomChannel (mkRuntime None None false lenient)
     (afterCalls [mkRuntime None None true lenient]
        (useRoomChannel
           (mkRuntime (Some "https://x.supabase.co") (Some "anon") true httpOnly)
           initialModules).2)).1 = Some KSupabase.
Proof.
  split; [|split].
  - apply (proj2 (proj2 (proj2 (proj2 (proj2 (proj2 (proj2
             (transport_selection (mkRuntime None (Some "anon") true lenient)
                initialModules)))))))).
    discriminate.
  - apply (proj1 (proj2
             (transport_selection
                (mkRuntime (Some "x.supabase.co") (Some "anon") true httpOnly)
                initialModules))).
    reflexivity.
  - apply (proj1 (proj2 (proj2 (proj2 (proj2 (proj2 (proj2
             (transport_selection
                (mkRuntime (Some "https://x.supabase.co") (Some "anon") true
                   httpOnly)
                initialModules)))))))).
    reflexivity.
Defined.

(** ** Move messages: duplicates and drift *)

(** X28: after a move message for a known participant, the stored
    position is within 0.5 of the reported one on each axis (equal to it
    when the message was applied); delivering the same message again, at
    any later time, changes nothing, not even lastSeen. *)
Theorem move_tracks_and_deduplicates env sim t1 t2 id x y d st e :
  participants st !! id = Some e ->
  let st1 := (onMsg env sim t1 (MsgMove id x y d) st).1 in
  (exists e1,
     participants st1 !! id = Some e1 /\
     Rabs (p_x e1 - x) <= 0.5 /\ Rabs (p_y e1 - y) <= 0.5 /\
     (moveExceeds e x y -> p_x e1 = x /\ p_y e1 = y)) /\
  onMsg env sim t2 (MsgMove id x y d) st1 = (st1, []).
Proof.
  intros He. cbv zeta. simpl. rewrite He.
  destruct (gtb (Rabs (p_x e - x)) 0.5 || gtb (Rabs (p_y e - y)) 0.5) eqn:E.
  - simpl. rewrite lookup_insert_eq. split.
    + eexists. split; [reflexivity|]. simpl.
      replace (x - x) with 0 by ring. replace (y - y) with 0 by ring.
      rewrite Rabs_R0. repeat split; lra.
    + simpl. replace (x - x) with 0 by ring. replace (y - y) with 0 by ring.
      rewrite Rabs_R0. rbool. reflexivity.
  - simpl. rewrite He, E. split; [|reflexivity].
    apply orb_false_iff in E as [Ex Ey]. apply gtb_false in Ex, Ey.
    exists e. split; [reflexivity|]. split; [exact Ex|]. split; [exact Ey|].
    unfold moveExceeds. intros [H|H]; lra.
Qed.

Lemma move_tracks_and_deduplicates_witness :
  onMsg me_env rest_sim 1700000000500 (MsgMove "me" 10 20 DirUp)
    (onMsg me_env rest_sim 1700000000000 (MsgMove "me" 10 20 DirUp) rest_store).1
  = ((onMsg me_env rest_sim 1700000000000 (MsgMove "me" 10 20 DirUp)
        rest_store).1, []).
Proof.
  apply (proj2 (move_tracks_and_deduplicates me_env rest_sim 1700000000000
                  1700000000500 "me" 10 20 DirUp rest_store me_left
                  (lookup_singleton_eq "me" me_left))).
Defined.

(** ** The participants panel *)

Lemma uiChanged_false e p : uiChanged (Some e) p = false <-> uiSame e p.
Proof.
  unfold uiChanged, uiSame.
  rewrite !orb_false_iff, !negb_false_iff, !bool_decide_eq_true. tauto.
Qed.

Lemma uiShown_same ex p : uiSame (uiShown ex p) p.
Proof.
  unfold uiShown. destruct (uiChanged ex p) eqn:E.
  - destruct ex as [e|]; repeat split; reflexivity.
  - destruct ex as [e|]; [|discriminate]. by apply uiChanged_false.
Qed.

Lemma wellKeyed_insert i x (m : gmap string Participant) :
  m !! i = None -> wellKeyed (<[i:=x]> m) -> p_id x = i /\ wellKeyed m.
Proof.
  intros Hi Hw. split.
  - apply Hw. apply lookup_insert_eq.
  - intros k e Hk. apply Hw. rewrite lookup_insert_ne; [exact Hk|].
    intros ->. congruence.
Qed.

Lemma ui_refresh_lookup prev cur :
  wellKeyed cur ->
  match map_fold (fun _ p acc => acc ≫= uiRefresh prev p) (Some prev) cur with
  | None =>
      exists id, is_Some (cur !! id) /\ inherited id = true /\ prev !! id = None
  | Some r =>
      (forall id, is_Some (cur !! id) -> inherited id = true ->
                  is_Some (prev !! id)) /\
      forall id, r !! id = match cur !! id with
                           | Some p => Some (uiShown (prev !! id) p)
                           | None => prev !! id
                           end
  end.
Proof.
  apply (map_fold_weak_ind
           (fun r m => wellKeyed m ->
              match r with
              | None =>
                  exists id, is_Some (m !! id) /\ inherited id = true /\
                             prev !! id = None
              | Some r =>
                  (forall id, is_Some (m !! id) -> inherited id = true ->
                              is_Some (prev !! id)) /\
                  forall id, r !! id = match m !! id with
                                       | Some p => Some (uiShown (prev !! id) p)
                                       | None => prev !! id
                                       end
              end)).
  - intros _. split.
    + intros id [? H]. by rewrite lookup_empty in H.
    + intros id. by rewrite lookup_empty.
  - intros i x m r Hi IH Hw.
    destruct (wellKeyed_insert i x m Hi Hw) as [Hx Hm]. specialize (IH Hm).
    destruct r as [r|]; simpl.
    + destruct IH as [Hall Hlk]. unfold uiRefresh, readRecord. rewrite Hx.
      destruct (prev !! i) as [e|] eqn:Ep; [|destruct (inherited i) eqn:Ei].
      * split.
        -- intros id Hs Hin. destruct (decide (id = i)) as [->|Hne];
             [by rewrite Ep|].
           rewrite lookup_insert_ne in Hs by congruence. by apply Hall.
        -- intros id. destruct (decide (id = i)) as [->|Hne].
           ++ rewrite lookup_insert_eq, Ep. unfold uiShown.
              destruct (uiChanged (Some e) x) eqn:E.
              ** by rewrite lookup_insert_eq.
              ** by rewrite Hlk, Hi, Ep.
           ++ rewrite (lookup_insert_ne m i id x) by congruence.
              destruct (uiChanged (Some e) x).
              ** rewrite lookup_insert_ne by congruence. apply Hlk.
              ** apply Hlk.
      * exists i. rewrite lookup_insert_eq. split; [by eexists | done].
      * split.
        -- intros id Hs Hin. destruct (decide (id = i)) as [->|Hne];
             [congruence|].
           rewrite lookup_insert_ne in Hs by congruence. by apply Hall.
        -- intros id. destruct (decide (id = i)) as [->|Hne].
           ++ by rewrite !lookup_insert_eq, Ep.
           ++ rewrite !lookup_insert_ne by congruence. apply Hlk.
    + destruct IH as (id & Hs & Hin & Hp). exists id. split; [|done].
      destruct (decide (id = i)) as [->|Hne].
      * rewrite lookup_insert_eq. by eexists.
      * by rewrite lookup_insert_ne by congruence.
Qed.

Lemma ui_prune_lookup cur next (prev : gmap string Participant) id :
  map_fold (fun id _ nx => uiPrune cur id nx) next prev !! id
    = match prev !! id, readRecord cur id with
      | Some _, Undefined => None
      | _, _ => next !! id
      end.
Proof.
  revert id.
  apply (map_fold_weak_ind
           (fun r (m : gmap string Participant) =>
              forall id, r !! id = match m !! id, readRecord cur id with
                                   | Some _, Undefined => None
                                   | _, _ => next !! id
                                   end)).
  - intros id. by rewrite lookup_empty.
  - intros i x m r Hi IH id. unfold uiPrune.
    destruct (decide (id = i)) as [->|Hne].
    + rewrite lookup_insert_eq. destruct (readRecord cur i) eqn:E.
      * rewrite IH, Hi. reflexivity.
      * rewrite IH, Hi. reflexivity.
      * apply lookup_delete_eq.
    + rewrite (lookup_insert_ne m i id x) by congruence.
      destruct (readRecord cur i) eqn:E.
      * apply IH.
      * apply IH.
      * rewrite lookup_delete_ne by congruence. apply IH.
Qed.

Lemma updateUIFromRef_lookup cur prev :
  wellKeyed cur ->
  match updateUIFromRef cur prev with
  | None =>
      exists id, is_Some (cur !! id) /\ inherited id = true /\ prev !! id = None
  | Some next =>
      (forall id, is_Some (cur !! id) -> inherited id = true ->
                  is_Some (prev !! id)) /\
      forall id, next !! id = match cur !! id with
                              | Some p => Some (uiShown (prev !! id) p)
                              | None => if inherited id then prev !! id else None
                              end
  end.
Proof.
  intros Hw. unfold updateUIFromRef.
  pose proof (ui_refresh_lookup prev cur Hw) as H.
  destruct (map_fold _ (Some prev) cur) as [r|]; simpl; [|exact H].
  destruct H as [Hall Hlk]. split; [exact Hall|]. intros id.
  rewrite ui_prune_lookup, Hlk. unfold readRecord.
  destruct (cur !! id) as [p|], (prev !! id) as [e|], (inherited id);
    reflexivity.
Qed.

(** X29: the participants panel after a refresh, when every own property
    of the participants record is a participant stored under its own id.
    The refresh throws
    exactly when the record has an entry whose id names a member of
    Object.prototype and the earlier snapshot has no entry of its own
    under that id.  When it returns, the refreshed snapshot lists the ids
    of the record, and besides them only ids of the earlier snapshot that
    name a member of Object.prototype, which are never removed; each
    entry of the record is shown with its name, colour, camera and
    microphone; an id that was already listed keeps the position of the
    earlier snapshot, and, when none of the four compared fields differs,
    keeps its whole earlier entry (voice level, direction, accessory and
    last-seen time are then not refreshed); a new id gets a copy of the
    record's entry.  Refreshing again from the same record returns the
    same snapshot. *)
Theorem panel_refresh cur prev :
  wellKeyed cur ->
  (updateUIFromRef cur prev = None <->
     exists id, is_Some (cur !! id) /\ inherited id = true /\
                prev !! id = None) /\
  (forall next,
     updateUIFromRef cur prev = Some next ->
     (forall id, is_Some (next !! id) <->
        is_Some (cur !! id) \/ (inherited id = true /\ is_Some (prev !! id))) /\
     (forall id p, cur !! id = Some p ->
        exists e, next !! id = Some e /\ uiSame e p /\
          (forall o, prev !! id = Some o ->
             p_x e = p_x o /\ p_y e = p_y o /\ (uiSame o p -> e = o)) /\
          (prev !! id = None -> e = p)) /\
     (forall id, cur !! id = None ->
        next !! id = if inherited id then prev !! id else None) /\
     updateUIFromRef cur next = Some next).
Proof.
  intros Hw.
  pose proof (updateUIFromRef_lookup cur prev Hw) as H.
  destruct (updateUIFromRef cur prev) as [next|] eqn:Eu.
  - destruct H as [Hall Hn]. split.
    { split; [discriminate|]. intros (id & Hs & Hin & Hp).
      destruct (Hall id Hs Hin) as [? ?]. congruence. }
    intros next' [= <-]. split; [|split; [|split]].
    + intros id. rewrite Hn.
      destruct (cur !! id) as [p|], (inherited id), (prev !! id) as [o|];
        split; try (intros [? ?]; discriminate); try (intros _; by eexists);
        try (intros _; left; by eexists); try (intros _; right; by eauto).
      all: intros [[? ?]|[? [? ?]]]; discriminate.
    + intros id p Hp. exists (uiShown (prev !! id) p). rewrite Hn, Hp.
      split; [reflexivity|]. split; [apply uiShown_same|]. split.
      * intros o Ho. rewrite Ho. unfold uiShown.
        destruct (uiChanged (Some o) p) eqn:E.
        -- repeat split. intros Hs. apply uiChanged_false in Hs. congruence.
        -- repeat split.
      * intros Ho. by rewrite Ho.
    + intros id Hc. by rewrite Hn, Hc.
    + pose proof (updateUIFromRef_lookup cur next Hw) as H2.
      destruct (updateUIFromRef cur next) as [next2|].
      * destruct H2 as [_ Hn2]. f_equal. apply map_eq. intros id.
        rewrite Hn2, !Hn.
        destruct (cur !! id) as [p|]; [|by destruct (inherited id)].
        f_equal.
        pose proof (uiShown_same (prev !! id) p) as Hs.
        apply uiChanged_false in Hs. unfold uiShown at 1. by rewrite Hs.
      * destruct H2 as (id & [p Hp] & _ & Hnone).
        rewrite Hn, Hp in Hnone. discriminate.
  - split; [by split|]. intros next [=].
Qed.

(** A peer who joined as [constructor] makes the first refresh throw; with
    an ordinary record the refresh returns and a second one changes
    nothing. *)
Lemma panel_refresh_witness :
  updateUIFromRef {[ "constructor" := ctor_peer ]} ∅ = None /\
  exists next,
    updateUIFromRef (participants rest_store) ∅ = Some next /\
    updateUIFromRef (participants rest_store) next = Some next.
Proof.
  split.
  - apply (proj1 (panel_refresh {[ "constructor" := ctor_peer ]} ∅
                    ltac:(intros k e [<- <-]%lookup_singleton_Some;
                          reflexivity))).
    exists "constructor". rewrite lookup_singleton_eq.
    split; [by eexists | split; reflexivity].
  - eexists. split; [reflexivity|].
    apply (proj2 (panel_refresh (participants rest_store) ∅
                    ltac:(intros k e; unfold rest_store; simpl;
                          intros [<- <-]%lookup_singleton_Some;
                          reflexivity))).
    reflexivity.
Defined.
